(** * UrlAvailabilityChecker: the orchestration core of the domain checker

    A shallow embedding of [scrape/scraper.ts] (the parallel-session version,
    with the error-retry baseline) and the properties of its result store,
    batch partitioner, session worker and orchestrator. *)

From Stdlib Require Import ZArith Ascii String List Lia DecimalString DecimalZ.
From stdpp Require Import base tactics option list gmap strings pretty.

Set Warnings "-register-all".

Local Open Scope string_scope.
Local Open Scope list_scope.

(** ** JavaScript strings (byte strings; whitespace restricted to ASCII) *)

Module JsString.

(** [String.prototype.trim], on the ASCII white space characters. *)
Fixpoint trimStart (s : string) : string :=
  match s with
  | String a s' => if Ascii.is_space a then trimStart s' else s
  | EmptyString => EmptyString
  end.

Fixpoint trimEnd (s : string) : string :=
  match s with
  | String a s' =>
      match trimEnd s' with
      | EmptyString => if Ascii.is_space a then EmptyString else String a EmptyString
      | t => String a t
      end
  | EmptyString => EmptyString
  end.

Definition trim (s : string) : string := trimEnd (trimStart s).

(** [s.split(sep)] for a one-character separator: never the empty list. *)
Fixpoint split (sep : ascii) (s : string) : list string :=
  match s with
  | EmptyString => [EmptyString]
  | String a s' =>
      if decide (a = sep) then EmptyString :: split sep s'
      else match split sep s' with
           | t :: ts => String a t :: ts
           | [] => [String a EmptyString]
           end
  end.

(** [Boolean(s)] on a string: the empty string is the only falsy one. *)
Definition truthy (s : string) : bool :=
  match s with EmptyString => false | _ => true end.

Fixpoint startsWith (p s : string) : bool :=
  match p, s with
  | EmptyString, _ => true
  | String a p', String b s' => if decide (a = b) then startsWith p' s' else false
  | String _ _, EmptyString => false
  end.

(** [hay.includes(needle)]. *)
Fixpoint includes (needle hay : string) : bool :=
  startsWith needle hay ||
  match hay with
  | EmptyString => false
  | String _ hay' => includes needle hay'
  end.

Definition lower_ascii (a : ascii) : ascii :=
  let n := nat_of_ascii a in
  if (65 <=? n)%nat && (n <=? 90)%nat then ascii_of_nat (n + 32) else a.

Fixpoint toLowerCase (s : string) : string :=
  match s with
  | EmptyString => EmptyString
  | String a s' => String (lower_ascii a) (toLowerCase s')
  end.

Fixpoint drop (n : nat) (s : string) : string :=
  match n, s with
  | O, _ => s
  | S n', String _ s' => drop n' s'
  | S _, EmptyString => EmptyString
  end.

(** Drops the prefix [p] when [s] starts with it: one optional group of
    an anchored regular expression. *)
Definition stripPrefix (p s : string) : string :=
  if startsWith p s then drop (String.length p) s else s.

End JsString.

(** ** The batch partitioner of [run] *)

Module Partition.

(** [Math.min(3, domainsToCheck.length)]. *)
Definition numberOfSessions (domainsToCheck : list string) : nat :=
  Nat.min 3 (length domainsToCheck).

(** [domainsToCheck.forEach((domain, index) => domainBatches[index % K].push(domain))],
    started at index [i] on the batches [bs]. *)
Fixpoint distribute (K i : nat) (ds : list string) (bs : list (list string))
  : list (list string) :=
  match ds with
  | [] => bs
  | d :: ds' => distribute K (S i) ds' (alter (λ b, b ++ [d]) (i mod K) bs)
  end.

(** [Array.from({ length: K }, () => [])] filled by the [forEach]. *)
Definition domainBatches (domainsToCheck : list string) : list (list string) :=
  let K := numberOfSessions domainsToCheck in
  distribute K 0 domainsToCheck (replicate K []).

(** Reading the batches back in round-robin order: round [r] takes the
    [r]-th element of every batch that has one, batch 0 first. *)
Definition round (bs : list (list string)) (r : nat) : list string :=
  omap (λ b, b !! r) bs.

Definition roundRobin (bs : list (list string)) : list string :=
  concat (round bs <$> seq 0 (max_list (length <$> bs))).

End Partition.

Example split_lines_ex :
  JsString.split "010" ("a.com" +:+ String "010" " b.com ") = ["a.com"; " b.com "].
Proof. reflexivity. Qed.

Example batches_of_seven :
  Partition.domainBatches ["a"; "b"; "c"; "d"; "e"; "f"; "g"]
  = [["a"; "d"; "g"]; ["b"; "e"]; ["c"; "f"]].
Proof. reflexivity. Qed.

Example roundRobin_of_seven :
  Partition.roundRobin (Partition.domainBatches ["a"; "b"; "c"; "d"; "e"; "f"; "g"])
  = ["a"; "b"; "c"; "d"; "e"; "f"; "g"].
Proof. reflexivity. Qed.

(** ** JSON values and the JavaScript operations the program applies to them *)

Inductive json : Type :=
| JNull
| JBool (b : bool)
| JNum (n : Z)
| JStr (s : string)
| JArr (items : list json)
| JObj (fields : list (string * json)).

(** [JSON.parse] and [JSON.stringify(_, null, 4)] belong to the runtime, not
    to the repository: the program is parametric in them.  [JSON_parse]
    answers [None] where the runtime throws a [SyntaxError]. *)
Class JsonCodec := {
  JSON_parse : string → option json;
  JSON_stringify : json → string
}.

Inductive Exn : Type := IOError | TypeError | SyntaxError | RemoteError.

Inductive Outcome (A : Type) : Type :=
| Normal (a : A)
| Thrown (e : Exn).
Arguments Normal {A} a.
Arguments Thrown {A} e.

Inductive Status : Type := available | unavailable | unknown | error.

Definition status_string (s : Status) : string :=
  match s with
  | available => "available"
  | unavailable => "unavailable"
  | unknown => "unknown"
  | error => "error"
  end.

(** The object literal [{ domain, status }] of a [DomainEntry]. *)
Definition DomainEntry (domain : string) (status : Status) : json :=
  JObj [("domain", JStr domain); ("status", JStr (status_string status))].

Module Js.

(** The value a key is bound to in an object: the last binding wins. *)
Fixpoint field (k : string) (fs : list (string * json)) : option json :=
  match fs with
  | [] => None
  | (k', v) :: fs' =>
      match field k fs' with
      | Some v' => Some v'
      | None => if decide (k' = k) then Some v else None
      end
  end.

(** [v.k] for the keys [domain] and [status]: [None] is [undefined];
    reading a property of [null] throws. *)
Definition get (k : string) (v : json) : Outcome (option json) :=
  match v with
  | JNull => Thrown TypeError
  | JObj fs => Normal (field k fs)
  | _ => Normal None
  end.

(** [v.length], of which the program only uses that it can be read. *)
Definition length (v : json) : Outcome (option nat) :=
  match v with
  | JNull => Thrown TypeError
  | JArr l => Normal (Some (List.length l))
  | JStr s => Normal (Some (String.length s))
  | _ => Normal None
  end.

Fixpoint mapM {A B} (f : A → Outcome B) (l : list A) : Outcome (list B) :=
  match l with
  | [] => Normal []
  | x :: l' =>
      match f x with
      | Thrown e => Thrown e
      | Normal y =>
          match mapM f l' with
          | Thrown e => Thrown e
          | Normal ys => Normal (y :: ys)
          end
      end
  end.

Fixpoint filterM {A} (f : A → Outcome bool) (l : list A) : Outcome (list A) :=
  match l with
  | [] => Normal []
  | x :: l' =>
      match f x with
      | Thrown e => Thrown e
      | Normal b =>
          match filterM f l' with
          | Thrown e => Thrown e
          | Normal ys => Normal (if b then x :: ys else ys)
          end
      end
  end.

(** [v.map(cb)]: only arrays have a [map]. *)
Definition map {B} (cb : json → Outcome B) (v : json) : Outcome (list B) :=
  match v with
  | JArr l => mapM cb l
  | _ => Thrown TypeError
  end.

(** [v.filter(cb)]. *)
Definition filter (cb : json → Outcome bool) (v : json) : Outcome json :=
  match v with
  | JArr l =>
      match filterM cb l with
      | Normal l' => Normal (JArr l')
      | Thrown e => Thrown e
      end
  | _ => Thrown TypeError
  end.

(** [v.push(x)], returning the array after the push. *)
Definition push (x : json) (v : json) : Outcome json :=
  match v with
  | JArr l => Normal (JArr (l ++ [x]))
  | _ => Thrown TypeError
  end.

(** [entry => entry.domain]. *)
Definition entry_domain (entry : json) : Outcome (option json) := get "domain" entry.

(** [entry => entry.status !== 'error']. *)
Definition status_not_error (entry : json) : Outcome bool :=
  match get "status" entry with
  | Thrown e => Thrown e
  | Normal (Some (JStr s)) => Normal (negb (String.eqb s "error"))
  | Normal _ => Normal true
  end.

(** [new Set(values)] keeps the values it was given; the program only asks
    it for strings, which are compared by value. *)
Definition SetOf : Type := list (option json).

Definition has (s : SetOf) (d : string) : bool :=
  existsb (λ v, match v with Some (JStr x) => String.eqb x d | _ => false end) s.

Definition add (d : string) (s : SetOf) : SetOf := s ++ [Some (JStr d)].

(** [[...new Set(xs)]] on strings: first occurrences, in order. *)
Definition uniq_add (acc : list string) (x : string) : list string :=
  if decide (x ∈ acc) then acc else acc ++ [x].

Definition uniq (xs : list string) : list string := foldl uniq_add [] xs.

End Js.

(** ** The world the program runs in *)

(** What one remote interaction (session creation, a probe of the registrar
    site, closing the session) answers. *)
Inductive Reply : Type :=
| Fails
| Succeeds (isAvailable : bool) (pageContent : string).

Inductive RemoteOp : Type :=
| InitSession (sessionNumber : nat)
| SearchPage (domain : string)
| SearchBox (domain : string)
| CloseSession.

Inductive Event : Type :=
| Mkdir (dir : string)
| ReadFile (path content : string)
| WriteFile (path content : string)
| CopyFile (src dst : string)
| Rename (src dst : string)
| Sleep (ms : nat)
| Remote (op : RemoteOp)
| ConsoleLog (msg : string)
| ConsoleError (msg : string).

(** The file system, the clock read by [Date.now()], what the environment
    is going to do ([faults]: one flag per fallible file system call, [true]
    makes the call throw and leaves the disk as it was; [remote]: one reply
    per remote interaction; [schedule]: which of the concurrent workers the
    event loop resumes next) and the record of what the program did. *)
Record World : Type := mkWorld {
  files : gmap string string;
  dirs : gset string;
  clock : N;
  faults : list bool;
  remote : list Reply;
  schedule : list nat;
  trace : list Event
}.

Definition set_files (f : gmap string string) (w : World) : World :=
  mkWorld f (dirs w) (clock w) (faults w) (remote w) (schedule w) (trace w).
Definition set_dirs (d : gset string) (w : World) : World :=
  mkWorld (files w) d (clock w) (faults w) (remote w) (schedule w) (trace w).
Definition set_clock (c : N) (w : World) : World :=
  mkWorld (files w) (dirs w) c (faults w) (remote w) (schedule w) (trace w).
Definition set_faults (fs : list bool) (w : World) : World :=
  mkWorld (files w) (dirs w) (clock w) fs (remote w) (schedule w) (trace w).
Definition set_remote (rs : list Reply) (w : World) : World :=
  mkWorld (files w) (dirs w) (clock w) (faults w) rs (schedule w) (trace w).
Definition set_schedule (sc : list nat) (w : World) : World :=
  mkWorld (files w) (dirs w) (clock w) (faults w) (remote w) sc (trace w).
Definition emit (e : Event) (w : World) : World :=
  mkWorld (files w) (dirs w) (clock w) (faults w) (remote w) (schedule w) (trace w ++ [e]).

(** ** Asynchronous computations

    An [async] function runs until it finishes or reaches an [await], where
    it hands the world back; whoever resumes it passes the world as it then
    is.  [L] holds the local variables of the running function: they survive
    an exception, as the variables of a JavaScript function do. *)

Inductive Res (L A : Type) : Type :=
| Fin (o : Outcome A) (l : L) (w : World)
| Paused (w : World) (k : World → Res L A).
Arguments Fin {L A} o l w.
Arguments Paused {L A} w k.

Definition Prog (L A : Type) : Type := L → World → Res L A.

Fixpoint bindR {L A B} (r : Res L A) (f : A → Prog L B) : Res L B :=
  match r with
  | Fin (Normal a) l w => f a l w
  | Fin (Thrown e) l w => Fin (Thrown e) l w
  | Paused w k => Paused w (λ w', bindR (k w') f)
  end.

Fixpoint catchR {L A} (r : Res L A) (h : Exn → Prog L A) : Res L A :=
  match r with
  | Fin (Normal a) l w => Fin (Normal a) l w
  | Fin (Thrown e) l w => h e l w
  | Paused w k => Paused w (λ w', catchR (k w') h)
  end.

Fixpoint callR {L L' A} (l : L) (r : Res L' A) : Res L A :=
  match r with
  | Fin o _ w => Fin o l w
  | Paused w k => Paused w (λ w', callR l (k w'))
  end.

Fixpoint awaitR {L A} (r : Res L A) : Res L A :=
  match r with
  | Fin o l w => Paused w (λ w', Fin o l w')
  | Paused w k => Paused w (λ w', awaitR (k w'))
  end.

Fixpoint finallyR {L A} (r : Res L A) (f : Prog L unit) : Res L A :=
  match r with
  | Fin o l w => bindR (f l w) (λ _ l' w', Fin o l' w')
  | Paused w k => Paused w (λ w', finallyR (k w') f)
  end.

Definition ret {L A} (a : A) : Prog L A := λ l w, Fin (Normal a) l w.
Definition throw {L A} (e : Exn) : Prog L A := λ l w, Fin (Thrown e) l w.
Definition bind {L A B} (m : Prog L A) (f : A → Prog L B) : Prog L B :=
  λ l w, bindR (m l w) f.

(** [try { m } catch (e) { h e }]. *)
Definition try_catch {L A} (m : Prog L A) (h : Exn → Prog L A) : Prog L A :=
  λ l w, catchR (m l w) h.

(** [try { m } finally { f }]. *)
Definition try_finally {L A} (m : Prog L A) (f : Prog L unit) : Prog L A :=
  λ l w, finallyR (m l w) f.

(** Calling a function: the callee runs on its own local variables. *)
Definition call {L L' A} (m : Prog L' A) (l0 : L') : Prog L A :=
  λ l w, callR l (m l0 w).

(** [await m]: the caller resumes in a later turn of the event loop, also
    when [m] completed without waiting. *)
Definition await {L A} (m : Prog L A) : Prog L A := λ l w, awaitR (m l w).

(** An outcome computed without touching the world. *)
Definition lift {L A} (o : Outcome A) : Prog L A := λ l w, Fin o l w.

Definition getLocals {L} : Prog L L := λ l w, Fin (Normal l) l w.
Definition setLocals {L} (l' : L) : Prog L unit := λ _ w, Fin (Normal tt) l' w.

Global Instance prog_ret {L} : MRet (Prog L) := λ A a, ret a.
Global Instance prog_bind {L} : MBind (Prog L) := λ A B f m, bind m f.

(** [if (b) { m }] without an [else]. *)
Definition when {L} (b : bool) (m : Prog L unit) : Prog L unit :=
  if b then m else ret tt.

(** [for (const x of xs) body]. *)
Fixpoint forOf {L X} (xs : list X) (body : X → Prog L unit) : Prog L unit :=
  match xs with
  | [] => ret tt
  | x :: xs' => body x ;; forOf xs' body
  end.

(** *** Console, timers and the clock *)

Definition console_log {L} (msg : string) : Prog L unit :=
  λ l w, Fin (Normal tt) l (emit (ConsoleLog msg) w).
Definition console_error {L} (msg : string) : Prog L unit :=
  λ l w, Fin (Normal tt) l (emit (ConsoleError msg) w).

(** [await new Promise(resolve => setTimeout(resolve, ms))]. *)
Definition sleep {L} (ms : nat) : Prog L unit :=
  λ l w, Paused (emit (Sleep ms) (set_clock (clock w + N.of_nat ms) w))
                (λ w', Fin (Normal tt) l w').

Definition Date_now {L} : Prog L N := λ l w, Fin (Normal (clock w)) l w.

(** *** [path] and [fs] *)

Module path.

(** The part of [p] before its last ["/"], if it has one. *)
Fixpoint beforeLastSlash (p : string) : option string :=
  match p with
  | EmptyString => None
  | String a p' =>
      match beforeLastSlash p' with
      | Some d => Some (String a d)
      | None => if decide (a = "/"%char) then Some EmptyString else None
      end
  end.

(** [path.dirname] on a POSIX path that does not end in a slash. *)
Definition dirname (p : string) : string :=
  match beforeLastSlash p with
  | None => "."
  | Some EmptyString => "/"
  | Some d => d
  end.

(** [path.join(a, b)] for a directory [a] and a plain name [b]. *)
Definition join (a b : string) : string := a +:+ "/" +:+ b.

End path.

Module fs.

Definition take_fault (w : World) : bool * World :=
  match faults w with
  | [] => (false, w)
  | b :: bs => (b, set_faults bs w)
  end.

(** A call that may fail: it throws when the environment says so, and
    otherwise does [op], which may throw for a reason of its own. *)
Definition fallible {L A} (op : World → Outcome A * World) : Prog L A :=
  λ l w,
    let '(fault, w1) := take_fault w in
    if fault then Fin (Thrown IOError) l w1
    else let '(o, w2) := op w1 in Fin o l w2.

Definition existsSync {L} (p : string) : Prog L bool :=
  λ l w, Fin (Normal (bool_decide (is_Some (files w !! p)) || bool_decide (p ∈ dirs w))) l w.

(** [fs.mkdirSync(d, { recursive: true })]. *)
Definition mkdirSync {L} (d : string) : Prog L unit :=
  fallible (λ w, (Normal tt, emit (Mkdir d) (set_dirs ({[d]} ∪ dirs w) w))).

Definition writeFileSync {L} (p content : string) : Prog L unit :=
  fallible (λ w, (Normal tt, emit (WriteFile p content) (set_files (<[p:=content]> (files w)) w))).

Definition readFileSync {L} (p : string) : Prog L string :=
  fallible (λ w,
    match files w !! p with
    | Some content => (Normal content, emit (ReadFile p content) w)
    | None => (Thrown IOError, w)
    end).

Definition copyFileSync {L} (src dst : string) : Prog L unit :=
  fallible (λ w,
    match files w !! src with
    | Some content =>
        (Normal tt, emit (CopyFile src dst) (set_files (<[dst:=content]> (files w)) w))
    | None => (Thrown IOError, w)
    end).

Definition renameSync {L} (src dst : string) : Prog L unit :=
  fallible (λ w,
    match files w !! src with
    | Some content =>
        (Normal tt,
         emit (Rename src dst) (set_files (<[dst:=content]> (delete src (files w))) w))
    | None => (Thrown IOError, w)
    end).

End fs.

(** ** The result store *)

Definition show_length (n : option nat) : string :=
  match n with Some k => pretty k | None => "undefined" end.

Section Store.
Context `{JsonCodec} {L : Type}.

(** [JSON.parse(data)]. *)
Definition parse (data : string) : Prog L json :=
  lift (match JSON_parse data with Some v => Normal v | None => Thrown SyntaxError end).

(** The [try] block of [safelyReadResultsFile]: one attempt to read. *)
Definition readAttempt (filePath : string) : Prog L json :=
  present ← fs.existsSync filePath;
  if negb present then
    console_log ("Results file does not exist yet at " +:+ filePath +:+ ", creating empty array");;
    let dir := path.dirname filePath in
    dirPresent ← fs.existsSync dir;
    when (negb dirPresent)
      (fs.mkdirSync dir;; console_log ("Created directory: " +:+ dir));;
    fs.writeFileSync filePath (JSON_stringify (JArr []));;
    ret (JArr [])
  else
    data ← fs.readFileSync filePath;
    if negb (JsString.truthy (JsString.trim data)) then
      console_log ("Results file at " +:+ filePath +:+ " is empty, returning empty array");;
      ret (JArr [])
    else
      try_catch
        (results ← parse data;
         n ← lift (Js.length results);
         console_log ("Successfully read " +:+ show_length n +:+ " entries from " +:+ filePath);;
         ret results)
        (λ parseError,
           console_error ("Error parsing JSON from " +:+ filePath +:+ ":");;
           now ← Date_now;
           let backupPath := filePath +:+ ".backup." +:+ pretty now in
           fs.copyFileSync filePath backupPath;;
           console_log ("Created backup of corrupted file at " +:+ backupPath);;
           fs.writeFileSync filePath (JSON_stringify (JArr []));;
           ret (JArr [])).

(** The [while (retries < maxRetries)] loop with [left] iterations to go,
    so that [retries = maxRetries - left] on entry. *)
Fixpoint readLoop (filePath : string) (maxRetries left : nat) : Prog L json :=
  match left with
  | O =>
      console_error ("Failed to read results file after " +:+ pretty maxRetries +:+ " attempts");;
      ret (JArr [])
  | S left' =>
      try_catch (readAttempt filePath)
        (λ _error,
           let retries := maxRetries - left' in
           console_error ("Error reading results file (attempt " +:+ pretty retries
                          +:+ "/" +:+ pretty maxRetries +:+ "):");;
           sleep 1000;;
           readLoop filePath maxRetries left')
  end.

Definition safelyReadResultsFile (filePath : string) (maxRetries : nat) : Prog L json :=
  readLoop filePath maxRetries maxRetries.

(** The [try] block of [safelyWriteResultsFile]: one attempt to write. *)
Definition writeAttempt (filePath : string) (data : json) : Prog L bool :=
  let dir := path.dirname filePath in
  dirPresent ← fs.existsSync dir;
  when (negb dirPresent)
    (fs.mkdirSync dir;; console_log ("Created directory for results: " +:+ dir));;
  present ← fs.existsSync filePath;
  when present
    (let backupPath := filePath +:+ ".backup" in
     fs.copyFileSync filePath backupPath;;
     console_log ("Created backup of existing results at " +:+ backupPath));;
  let tempFilePath := filePath +:+ ".tmp" in
  fs.writeFileSync tempFilePath (JSON_stringify data);;
  n ← lift (Js.length data);
  console_log ("Wrote " +:+ show_length n +:+ " entries to temporary file " +:+ tempFilePath);;
  fs.renameSync tempFilePath filePath;;
  console_log ("Successfully renamed temporary file to " +:+ filePath);;
  ret true.

Fixpoint writeLoop (filePath : string) (data : json) (maxRetries left : nat) : Prog L bool :=
  match left with
  | O =>
      console_error ("Failed to write results file after " +:+ pretty maxRetries +:+ " attempts");;
      ret false
  | S left' =>
      try_catch (writeAttempt filePath data)
        (λ _error,
           let retries := maxRetries - left' in
           console_error ("Error writing results file (attempt " +:+ pretty retries
                          +:+ "/" +:+ pretty maxRetries +:+ "):");;
           sleep (1000 * retries);;
           writeLoop filePath data maxRetries left')
  end.

Definition safelyWriteResultsFile (filePath : string) (data : json) (maxRetries : nat)
  : Prog L bool :=
  writeLoop filePath data maxRetries maxRetries.

End Store.

(** The same two functions as the first program of [src/scrape/scraper.ts]
    has them: no backup, no quarantine, a constant delay. *)
Module Scraper.
Section Store.
Context `{JsonCodec} {L : Type}.

Definition readAttempt (filePath : string) : Prog L json :=
present ← fs.existsSync filePath;
if negb present then ret (JArr [])
else
  content ← fs.readFileSync filePath;
  if negb (JsString.truthy (JsString.trim content)) then ret (JArr [])
  else parse content.

Fixpoint readLoop (filePath : string) (maxRetries left : nat) : Prog L json :=
match left with
| O =>
    console_error ("Failed to read results file after " +:+ pretty maxRetries +:+ " attempts");;
    ret (JArr [])
| S left' =>
    try_catch (readAttempt filePath)
      (λ _error,
         let retries := maxRetries - left' in
         console_error ("Error reading results file (attempt " +:+ pretty retries
                        +:+ "/" +:+ pretty maxRetries +:+ "):");;
         sleep 1000;;
         readLoop filePath maxRetries left')
end.

Definition safelyReadResultsFile (filePath : string) (maxRetries : nat) : Prog L json :=
readLoop filePath maxRetries maxRetries.

Definition writeAttempt (filePath : string) (data : json) : Prog L bool :=
let dir := path.dirname filePath in
dirPresent ← fs.existsSync dir;
when (negb dirPresent) (fs.mkdirSync dir);;
let tempFilePath := filePath +:+ ".tmp" in
fs.writeFileSync tempFilePath (JSON_stringify data);;
fs.renameSync tempFilePath filePath;;
ret true.

Fixpoint writeLoop (filePath : string) (data : json) (maxRetries left : nat) : Prog L bool :=
match left with
| O =>
    console_error ("Failed to write results file after " +:+ pretty maxRetries +:+ " attempts");;
    ret false
| S left' =>
    try_catch (writeAttempt filePath data)
      (λ _error,
         let retries := maxRetries - left' in
         console_error ("Error writing results file (attempt " +:+ pretty retries
                        +:+ "/" +:+ pretty maxRetries +:+ "):");;
         sleep 1000;;
         writeLoop filePath data maxRetries left')
end.

Definition safelyWriteResultsFile (filePath : string) (data : json) (maxRetries : nat)
: Prog L bool :=
writeLoop filePath data maxRetries maxRetries.

End Store.
End Scraper.

(** ** The availability checker *)

(** One interaction with the remote session: the caller waits for it, and
    it fails or answers as the environment decides (no reply left: it
    fails). *)
Definition remoteCall {L} (op : RemoteOp) : Prog L (bool * string) :=
  λ l w,
    Paused (emit (Remote op) w)
      (λ w',
         match remote w' with
         | Succeeds b content :: rs => Fin (Normal (b, content)) l (set_remote rs w')
         | Fails :: rs => Fin (Thrown RemoteError) l (set_remote rs w')
         | [] => Fin (Thrown RemoteError) l w'
         end).

(** [domain.replace(/^(https?:\/\/)?(www\.)?/, '')]. *)
Definition cleanDomain (domain : string) : string :=
  let noScheme :=
    if JsString.startsWith "https://" domain then JsString.drop 8 domain
    else if JsString.startsWith "http://" domain then JsString.drop 7 domain
    else domain in
  JsString.stripPrefix "www." noScheme.

(** [`https://www.name.com/domain/search/${cleanDomain}`]. *)
Definition searchUrl (domain : string) : string :=
  "https://www.name.com/domain/search/" +:+ cleanDomain domain.

Section Checker.
Context {L : Type}.

(** The alternative approach: the home page and its search box. *)
Definition searchBox (domain : string) : Prog L Status :=
  '(_, pageContent) ← remoteCall (SearchBox domain);
  let lowerPageContent := JsString.toLowerCase pageContent in
  if JsString.includes "is a great choice" lowerPageContent
     && JsString.includes "add to cart" lowerPageContent
  then ret available
  else if JsString.includes "is taken" lowerPageContent
          || JsString.includes "make offer" lowerPageContent
  then ret unavailable
  else ret unknown.

(** [checkDomainAvailabilityName(domain, stagehand, retryCount)] with
    [retryCount = 2 - left]: the call without a third argument is
    [left = 2], and [retryCount >= 2] is [left = 0]. *)
Fixpoint checkDomainAvailabilityName (domain : string) (left : nat) : Prog L Status :=
  let retryCount := 2 - left in
  try_catch
    (console_log ("Checking domain on Name.com: " +:+ domain
                  +:+ " (attempt " +:+ pretty (retryCount + 1) +:+ ")");;
     when (0 <? retryCount)%nat
       (let delayMs := 5000 * retryCount in
        console_log ("Waiting for " +:+ pretty delayMs +:+ "ms before retry...");;
        sleep delayMs);;
     try_catch
       ('(isAvailable, _) ← remoteCall (SearchPage (searchUrl domain));
        if (isAvailable : bool)
        then console_log ("Domain " +:+ domain +:+ " is AVAILABLE based on extract result");;
             ret available
        else console_log ("Domain " +:+ domain +:+ " is UNAVAILABLE based on extract result");;
             ret unavailable)
       (λ navigationError,
          console_error ("Navigation error for " +:+ domain +:+ ":");;
          match left with
          | O =>
              console_log ("Multiple navigation errors, trying alternative approach for "
                           +:+ domain +:+ "...");;
              try_catch (searchBox domain)
                (λ altError,
                   console_error ("Alternative approach failed for " +:+ domain +:+ ":");;
                   throw altError)
          | S left' =>
              console_log ("Retrying with delay for " +:+ domain +:+ "...");;
              checkDomainAvailabilityName domain left'
          end))
    (λ _error,
       console_error ("Error checking domain " +:+ domain +:+ ":");;
       ret error).

Definition checkDomainAvailability (domain : string) : Prog L Status :=
  try_catch (await (checkDomainAvailabilityName domain 2))
    (λ _error,
       console_error ("Error checking domain " +:+ domain +:+ ":");;
       ret error).

(** [initializeBrowserbaseSession]: the session is created remotely. *)
Definition initializeBrowserbaseSession (sessionNumber : nat) : Prog L unit :=
  console_log ("Initializing Browserbase and Stagehand session " +:+ pretty sessionNumber
               +:+ " with stealth mode...");;
  _ ← remoteCall (InitSession sessionNumber);
  console_log ("Stagehand session " +:+ pretty sessionNumber +:+ " initialized successfully").

End Checker.

(** ** The session worker *)

(** The variables of [processDomainBatch]: [stagehand] is [false] while it
    is [null]. *)
Record Locals : Type := mkLocals {
  stagehand : bool;
  currentResults : json;
  checkedDomainsSet : Js.SetOf
}.

Definition noLocals : Locals := mkLocals false (JArr []) [].

Definition assignStagehand (s : bool) : Prog Locals unit :=
  l ← getLocals; setLocals (mkLocals s (currentResults l) (checkedDomainsSet l)).
Definition assignCurrentResults (v : json) : Prog Locals unit :=
  l ← getLocals; setLocals (mkLocals (stagehand l) v (checkedDomainsSet l)).
Definition assignCheckedDomainsSet (s : Js.SetOf) : Prog Locals unit :=
  l ← getLocals; setLocals (mkLocals (stagehand l) (currentResults l) s).

Section Worker.
Context `{JsonCodec}.

(** The two statements
    [currentResults = await safelyReadResultsFile(outputPath);
     checkedDomainsSet = new Set(currentResults.map(entry => entry.domain));]. *)
Definition reloadResults (outputPath : string) : Prog Locals unit :=
  results ← await (safelyReadResultsFile outputPath 3);
  assignCurrentResults results;;
  keys ← lift (Js.map Js.entry_domain results);
  assignCheckedDomainsSet keys.

(** [currentResults.push(entry); await safelyWriteResultsFile(outputPath, currentResults);]. *)
Definition pushAndSave (outputPath : string) (entry : json) : Prog Locals unit :=
  l ← getLocals;
  pushed ← lift (Js.push entry (currentResults l));
  assignCurrentResults pushed;;
  _ ← await (safelyWriteResultsFile outputPath pushed 3);
  ret tt.

Definition addChecked (domain : string) : Prog Locals unit :=
  l ← getLocals; assignCheckedDomainsSet (Js.add domain (checkedDomainsSet l)).

(** What the [try] block does once the status is known, from
    [// Create a new entry] on: the store is read again and the entry is
    added if the domain is not in it. *)
Definition recordResult (sessionNumber : nat) (outputPath domain : string)
    (status : Status) : Prog Locals unit :=
  let session := "Session " +:+ pretty sessionNumber in
  let newEntry := DomainEntry domain status in
  reloadResults outputPath;;
  l ← getLocals;
  if negb (Js.has (checkedDomainsSet l) domain) then
    pushAndSave outputPath newEntry;;
    console_log (session +:+ ": Results for " +:+ domain +:+ " saved to " +:+ outputPath);;
    addChecked domain
  else
    console_log (session +:+ ": Domain " +:+ domain
                 +:+ " was checked by another session while processing, skipping save").

(** The inner [try] of the [catch (domainError)] block,
    [// Try to save the error status]. *)
Definition recordError (sessionNumber : nat) (outputPath domain : string)
  : Prog Locals unit :=
  let session := "Session " +:+ pretty sessionNumber in
  try_catch
    (reloadResults outputPath;;
     l ← getLocals;
     when (negb (Js.has (checkedDomainsSet l) domain))
       (pushAndSave outputPath (DomainEntry domain error);;
        addChecked domain))
    (λ saveError,
       console_error (session +:+ ": Failed to save error status for " +:+ domain +:+ ":")).

(** The body of [for (const domain of domains)]. *)
Definition processDomain (sessionNumber : nat) (outputPath domain : string)
  : Prog Locals unit :=
  let session := "Session " +:+ pretty sessionNumber in
  try_catch
    (l ← getLocals;
     if Js.has (checkedDomainsSet l) domain then
       console_log (session +:+ ": Domain " +:+ domain +:+ " already checked, skipping...")
     else
       console_log (session +:+ " checking domain: " +:+ domain);;
       status ← await (checkDomainAvailability domain);
       recordResult sessionNumber outputPath domain status)
    (λ domainError,
       console_error (session +:+ ": Error processing domain " +:+ domain +:+ ":");;
       recordError sessionNumber outputPath domain).

Definition processDomainBatch (domains : list string) (sessionNumber : nat)
  (outputPath : string) : Prog Locals unit :=
  try_finally
    (try_catch
       (await (initializeBrowserbaseSession sessionNumber);;
        assignStagehand true;;
        console_log ("Stagehand session " +:+ pretty sessionNumber +:+ " initialized successfully");;
        reloadResults outputPath;;
        console_log ("Session " +:+ pretty sessionNumber
                     +:+ ": Starting with the already checked domains");;
        forOf domains (processDomain sessionNumber outputPath))
       (λ sessionError,
          console_error ("Error in session " +:+ pretty sessionNumber +:+ ":")))
    (l ← getLocals;
     when (stagehand l)
       (try_catch
          (_ ← remoteCall CloseSession;
           console_log ("Session " +:+ pretty sessionNumber +:+ " closed successfully"))
          (λ closeError,
             console_error ("Error closing session " +:+ pretty sessionNumber +:+ ":")))).

End Worker.

(** ** [Promise.all] over the workers

    The functions are called one after another, each running up to its
    first [await]; the event loop then resumes them in the order the
    [schedule] of the world gives, and when the schedule is used up it lets
    every worker still waiting run to its end, the first one first. *)

Inductive Task (L : Type) : Type :=
| Waiting (k : World → Res L unit)
| Settled (o : Outcome unit).
Arguments Waiting {L} k.
Arguments Settled {L} o.

Definition settle {L} (r : Res L unit) : Task L * World :=
  match r with
  | Fin o _ w => (Settled o, w)
  | Paused w k => (Waiting k, w)
  end.

Fixpoint startAll {L} (ps : list (Prog L unit)) (l0 : L) (w : World) : list (Task L) * World :=
  match ps with
  | [] => ([], w)
  | p :: ps' =>
      let '(t, w1) := settle (p l0 w) in
      let '(ts, w2) := startAll ps' l0 w1 in
      (t :: ts, w2)
  end.

Definition resume {L} (i : nat) (ts : list (Task L)) (w : World) : list (Task L) * World :=
  match ts !! i with
  | Some (Waiting k) => let '(t, w') := settle (k w) in (<[i:=t]> ts, w')
  | _ => (ts, w)
  end.

Fixpoint runSchedule {L} (sched : list nat) (ts : list (Task L)) (w : World)
  : list (Task L) * World :=
  match sched with
  | [] => (ts, w)
  | i :: sched' => let '(ts', w') := resume i ts w in runSchedule sched' ts' w'
  end.

(** Resuming a computation at once every time it waits. *)
Fixpoint finish {L A} (r : Res L A) : Outcome A * L * World :=
  match r with
  | Fin o l w => (o, l, w)
  | Paused w k => finish (k w)
  end.

Fixpoint drain {L} (ts : list (Task L)) (w : World) : list (Outcome unit) * World :=
  match ts with
  | [] => ([], w)
  | Settled o :: ts' => let '(os, w') := drain ts' w in (o :: os, w')
  | Waiting k :: ts' =>
      let '(o, _, w1) := finish (k w) in
      let '(os, w2) := drain ts' w1 in
      (o :: os, w2)
  end.

Fixpoint firstRejection (os : list (Outcome unit)) : Outcome unit :=
  match os with
  | [] => Normal tt
  | Thrown e :: _ => Thrown e
  | Normal _ :: os' => firstRejection os'
  end.

(** [await Promise.all(ps)]. *)
Definition promise_all {L L'} (ps : list (Prog L' unit)) (l0 : L') : Prog L unit :=
  λ l w,
    let '(ts, w1) := startAll ps l0 w in
    Paused w1
      (λ w2,
         let '(ts', w3) := runSchedule (schedule w2) ts (set_schedule [] w2) in
         let '(os, w4) := drain ts' w3 in
         Fin (firstRejection os) l w4).

(** ** The orchestrator *)

(** [a < b] on two [length]s, either of which may be [undefined]. *)
Definition length_lt (a b : option nat) : bool :=
  match a, b with
  | Some x, Some y => (x <? y)%nat
  | _, _ => false
  end.

Section Orchestrator.
Context `{JsonCodec}.

(** [domainsContent.split('\n').map(d => d.trim()).filter(Boolean)]. *)
Definition inputDomains (domainsContent : string) : list string :=
  List.filter JsString.truthy (JsString.trim <$> JsString.split "010" domainsContent).

(** [uniqueDomains.filter(domain => !checkedDomainsSet.has(domain))]. *)
Definition domainsToCheck (uniqueDomains : list string) (checked : Js.SetOf) : list string :=
  List.filter (λ domain, negb (Js.has checked domain)) uniqueDomains.

(** The statements of [run] from [// Read existing results] to the end of
    [if (validResults.length < existingResults.length)]: the records that
    count as checked. *)
Definition baseline (outputPath : string) : Prog unit json :=
  existingResults ← await (safelyReadResultsFile outputPath 3);
  existingLength ← lift (Js.length existingResults);
  console_log ("Successfully read " +:+ show_length existingLength
               +:+ " entries from " +:+ outputPath);;
  validResults ← lift (Js.filter Js.status_not_error existingResults);
  validLength ← lift (Js.length validResults);
  when (length_lt validLength existingLength)
    (console_log "Removed the domains with error status for retry";;
     _ ← await (safelyWriteResultsFile outputPath validResults 3);
     console_log ("Updated results file with " +:+ show_length validLength
                  +:+ " valid entries"));;
  ret validResults.

(** [run], for the directory [projectRoot = path.resolve(__dirname, '..')]. *)
Definition run (projectRoot : string) : Prog unit unit :=
  try_catch
    (console_log ("Project root: " +:+ projectRoot);;
     let inputDir := path.join projectRoot "input" in
     let outputDir := path.join projectRoot "output" in
     inputDirPresent ← fs.existsSync inputDir;
     when (negb inputDirPresent)
       (console_log ("Creating input directory: " +:+ inputDir);;
        fs.mkdirSync inputDir);;
     outputDirPresent ← fs.existsSync outputDir;
     when (negb outputDirPresent)
       (console_log ("Creating output directory: " +:+ outputDir);;
        fs.mkdirSync outputDir);;
     let domainsPath := path.join inputDir "domains.txt" in
     let outputPath := path.join outputDir "domain.json" in
     console_log ("Domains path: " +:+ domainsPath);;
     console_log ("Output path: " +:+ outputPath);;
     domainsPresent ← fs.existsSync domainsPath;
     if negb domainsPresent then
       console_log ("Domains file not found: " +:+ domainsPath)
     else
       domainsContent ← fs.readFileSync domainsPath;
       let domains := inputDomains domainsContent in
       if decide (length domains = 0) then
         console_log "No domains found in the input file"
       else
         let uniqueDomains := Js.uniq domains in
         console_log ("Found " +:+ pretty (length uniqueDomains)
                      +:+ " unique domains in input file");;
         validResults ← baseline outputPath;
         checked ← lift (Js.map Js.entry_domain validResults);
         console_log "The domains that have already been checked are known";;
         let domainsToCheck := domainsToCheck uniqueDomains checked in
         console_log (pretty (length domainsToCheck) +:+ " domains need to be checked");;
         if decide (length domainsToCheck = 0) then
           console_log "All domains have already been checked. Nothing to do."
         else
           let numberOfSessions := Partition.numberOfSessions domainsToCheck in
           console_log ("Using " +:+ pretty numberOfSessions +:+ " parallel sessions");;
           let domainBatches := Partition.domainBatches domainsToCheck in
           forOf (imap pair domainBatches)
             (λ '(index, batch),
                console_log ("Session " +:+ pretty (index + 1) +:+ " will check "
                             +:+ pretty (length batch) +:+ " domains"));;
           promise_all
             (imap (λ index batch, processDomainBatch batch (index + 1) outputPath)
                   domainBatches)
             noLocals;;
           console_log "All domains have been checked")
    (λ _error, console_error "Error in main function:").

(** The last statement of the program,
    [run().catch(error => { console.error(...); process.exit(1); })]:
    the status the process leaves with, 0 when nothing calls
    [process.exit]. *)
Definition main (projectRoot : string) : Prog unit Z :=
  try_catch
    (run projectRoot;; ret 0%Z)
    (λ _error,
       console_error "Unhandled error in main function:";;
       ret 1%Z).

(** The exit status of the process and the world it leaves. *)
Definition exitStatus (projectRoot : string) (w : World) : Outcome Z * World :=
  let '(o, _, w') := finish (main projectRoot tt w) in (o, w').

End Orchestrator.

(** ** The sequential program of [src/scrape/scraper.ts]

    The last program of the file checks the domains one after another in
    one session.  Its checker is the one above except for the test of the
    alternative approach, where one of the two phrases is enough; it keeps
    the records in the array [domainData], which [run] creates and every
    call of [checkDomainAvailability] extends and writes out. *)

Module Sequential.

(** [self.indexOf(x)], counting from [i]: [-1] when [x] is not there. *)
Fixpoint indexOfFrom (x : string) (self : list string) (i : Z) : Z :=
  match self with
  | [] => (-1)%Z
  | y :: self' => if decide (y = x) then i else indexOfFrom x self' (i + 1)%Z
  end.

Definition indexOf (x : string) (self : list string) : Z := indexOfFrom x self 0%Z.

(** [.filter((domain, index, self) => self.indexOf(domain) === index)]. *)
Definition dedupe (self : list string) : list string :=
  omap (λ '(index, domain),
          if decide (indexOf domain self = Z.of_nat index) then Some domain else None)
       (imap pair self).

(** [.split('\n').map(line => line.trim()).filter(line => line.length > 0)]
    followed by the filter above. *)
Definition inputDomains (domainsText : string) : list string :=
  dedupe (List.filter (λ line, (0 <? String.length line)%nat)
            (JsString.trim <$> JsString.split "010" domainsText)).

Section Checker.
Context {L : Type}.

Definition searchBox (domain : string) : Prog L Status :=
  '(_, pageContent) ← remoteCall (SearchBox domain);
  let lowerPageContent := JsString.toLowerCase pageContent in
  if JsString.includes "is a great choice" lowerPageContent
     || JsString.includes "add to cart" lowerPageContent
  then ret available
  else if JsString.includes "is taken" lowerPageContent
          || JsString.includes "make offer" lowerPageContent
  then ret unavailable
  else ret unknown.

Fixpoint checkDomainAvailabilityName (domain : string) (left : nat) : Prog L Status :=
  let retryCount := 2 - left in
  try_catch
    (console_log ("Checking domain on Name.com: " +:+ domain
                  +:+ " (attempt " +:+ pretty (retryCount + 1) +:+ ")");;
     when (0 <? retryCount)%nat
       (let delayMs := 5000 * retryCount in
        console_log ("Waiting for " +:+ pretty delayMs +:+ "ms before retry...");;
        sleep delayMs);;
     try_catch
       ('(isAvailable, _) ← remoteCall (SearchPage (searchUrl domain));
        if (isAvailable : bool)
        then console_log ("Domain " +:+ domain +:+ " is AVAILABLE based on extract result");;
             ret available
        else console_log ("Domain " +:+ domain +:+ " is UNAVAILABLE based on extract result");;
             ret unavailable)
       (λ navigationError,
          console_error ("Navigation error for " +:+ domain +:+ ":");;
          match left with
          | O =>
              console_log ("Multiple navigation errors, trying alternative approach for "
                           +:+ domain +:+ "...");;
              try_catch (searchBox domain)
                (λ altError,
                   console_error ("Alternative approach failed for " +:+ domain +:+ ":");;
                   throw altError)
          | S left' =>
              console_log ("Retrying with delay for " +:+ domain +:+ "...");;
              checkDomainAvailabilityName domain left'
          end))
    (λ _error,
       console_error ("Error checking domain " +:+ domain +:+ ":");;
       ret error).

End Checker.

Section Recorder.
Context `{JsonCodec}.

(** [domainData.push(domainEntry)]: the local variable is the array
    that [run] shares with every call. *)
Definition pushData (domainEntry : json) : Prog json unit :=
  domainData ← getLocals;
  pushed ← lift (Js.push domainEntry domainData);
  setLocals pushed.

(** [fs.writeFileSync(outputFilePath, JSON.stringify(domainData, null, 4))]. *)
Definition saveData (outputFilePath : string) : Prog json unit :=
  domainData ← getLocals;
  fs.writeFileSync outputFilePath (JSON_stringify domainData).

(** [checkDomainAvailability(domain, stagehand, domainData, outputFilePath)]. *)
Definition checkDomainAvailability (domain outputFilePath : string) : Prog json json :=
  console_log ("Checking domain: " +:+ domain);;
  try_catch
    (status ← await (checkDomainAvailabilityName domain 2);
     let domainEntry := DomainEntry domain status in
     pushData domainEntry;;
     console_log ("Domain " +:+ domain +:+ " final status: " +:+ status_string status);;
     saveData outputFilePath;;
     ret domainEntry)
    (λ _error,
       console_error ("Error checking domain " +:+ domain +:+ ":");;
       let domainEntry := DomainEntry domain error in
       pushData domainEntry;;
       saveData outputFilePath;;
       ret domainEntry).

(** [for (const domain of domains) { await checkDomainAvailability(...) }]. *)
Definition checkAll (domains : list string) (outputFilePath : string) : Prog json unit :=
  forOf domains (λ domain, _ ← await (checkDomainAvailability domain outputFilePath); ret tt).

End Recorder.

End Sequential.

(** ** A reader and a writer of JSON

    An instance of [JsonCodec] to run the program on: the documents of
    JSON whose numbers are integers and whose [\u] escapes stay below 128,
    written the way [JSON.stringify(_, null, 4)] writes them. *)

Module MiniJson.

Definition is_ws (a : ascii) : bool :=
  match a with
  | " " | "009" | "010" | "013" => true
  | _ => false
  end%char.

Fixpoint skip_ws (s : string) : string :=
  match s with
  | String a s' => if is_ws a then skip_ws s' else s
  | EmptyString => EmptyString
  end.

(** *** Writing *)

Definition hex_digit (n : nat) : ascii :=
  match n with
  | 0 => "0" | 1 => "1" | 2 => "2" | 3 => "3" | 4 => "4" | 5 => "5" | 6 => "6" | 7 => "7"
  | 8 => "8" | 9 => "9" | 10 => "a" | 11 => "b" | 12 => "c" | 13 => "d" | 14 => "e"
  | _ => "f"
  end%char.

Definition escape_char (a : ascii) : string :=
  match a with
  | "034" => String "092" (String "034" EmptyString)
  | "092" => String "092" (String "092" EmptyString)
  | "008" => String "092" "b"
  | "009" => String "092" "t"
  | "010" => String "092" "n"
  | "012" => String "092" "f"
  | "013" => String "092" "r"
  | _ =>
      let n := nat_of_ascii a in
      if (n <? 32)%nat
      then String "092" "u00"
           +:+ String (hex_digit (n / 16)) (String (hex_digit (n mod 16)) EmptyString)
      else String a EmptyString
  end%char.

Fixpoint escape (s : string) : string :=
  match s with
  | EmptyString => EmptyString
  | String a s' => escape_char a +:+ escape s'
  end.

Definition quote (s : string) : string :=
  String "034" (escape s +:+ String "034" EmptyString).

Definition write_int (z : Z) : string := NilZero.string_of_int (Z.to_int z).

Fixpoint spaces (n : nat) : string :=
  match n with
  | O => EmptyString
  | S n' => String " " (spaces n')
  end.

Definition newline (indent : nat) : string := String "010" (spaces indent).

Fixpoint write (indent : nat) (v : json) : string :=
  match v with
  | JNull => "null"
  | JBool true => "true"
  | JBool false => "false"
  | JNum z => write_int z
  | JStr s => quote s
  | JArr [] => "[]"
  | JArr (x :: xs) =>
      "[" +:+ newline (indent + 4) +:+ write (indent + 4) x
      +:+ (fix items (l : list json) : string :=
             match l with
             | [] => EmptyString
             | y :: l' => "," +:+ newline (indent + 4) +:+ write (indent + 4) y +:+ items l'
             end) xs
      +:+ newline indent +:+ "]"
  | JObj [] => "{}"
  | JObj ((k, x) :: kxs) =>
      "{" +:+ newline (indent + 4) +:+ quote k +:+ ": " +:+ write (indent + 4) x
      +:+ (fix members (l : list (string * json)) : string :=
             match l with
             | [] => EmptyString
             | (k', y) :: l' =>
                 "," +:+ newline (indent + 4) +:+ quote k' +:+ ": "
                 +:+ write (indent + 4) y +:+ members l'
             end) kxs
      +:+ newline indent +:+ "}"
  end.

Definition stringify (v : json) : string := write 0 v.

(** *** Reading *)

(** The value of a hexadecimal digit, of either case. *)
Definition hex_value (a : ascii) : option nat :=
  let n := nat_of_ascii a in
  if (48 <=? n)%nat && (n <=? 57)%nat then Some (n - 48)
  else if (97 <=? n)%nat && (n <=? 102)%nat then Some (n - 87)
  else if (65 <=? n)%nat && (n <=? 70)%nat then Some (n - 55)
  else None.

(** The characters of a string literal, after its opening quote. *)
Fixpoint read_chars (s : string) : option (string * string) :=
  match s with
  | EmptyString => None
  | String "034" rest => Some (EmptyString, rest)
  | String "092" (String "u" (String "0" (String "0" (String h (String l rest))))) =>
      match hex_value h, hex_value l, read_chars rest with
      | Some x, Some y, Some (t, rest') =>
          if (x <? 8)%nat then Some (String (ascii_of_nat (16 * x + y)) t, rest') else None
      | _, _, _ => None
      end
  | String "092" (String c rest) =>
      let plain (a : ascii) :=
        match read_chars rest with
        | Some (t, rest') => Some (String a t, rest')
        | None => None
        end in
      match c with
      | "034" => plain "034"
      | "092" => plain "092"
      | "/" => plain "/"
      | "b" => plain "008"
      | "f" => plain "012"
      | "n" => plain "010"
      | "r" => plain "013"
      | "t" => plain "009"
      | _ => None
      end%char
  | String "092" EmptyString => None
  | String a rest =>
      if (nat_of_ascii a <? 32)%nat then None
      else match read_chars rest with
           | Some (t, rest') => Some (String a t, rest')
           | None => None
           end
  end%char.

Definition is_num_char (a : ascii) : bool :=
  match a with
  | "-" | "0" | "1" | "2" | "3" | "4" | "5" | "6" | "7" | "8" | "9" => true
  | _ => false
  end%char.

(** The longest prefix of sign and digit characters, and what follows. *)
Fixpoint span_num (s : string) : string * string :=
  match s with
  | String a s' =>
      if is_num_char a then let '(n, rest) := span_num s' in (String a n, rest)
      else (EmptyString, s)
  | EmptyString => (EmptyString, EmptyString)
  end.

Definition read_int (s : string) : option (json * string) :=
  let '(lexeme, rest) := span_num s in
  match NilZero.int_of_string lexeme with
  | Some d =>
      let z := Z.of_int d in
      if decide (write_int z = lexeme) then Some (JNum z, rest) else None
  | None => None
  end.

Definition read_word (word : string) (v : json) (s : string) : option (json * string) :=
  if JsString.startsWith word s then Some (v, JsString.drop (String.length word) s) else None.

(** [read_value fuel s] reads one value at the head of [s];
    [read_items] and [read_members] read what follows the opening bracket
    of a non-empty array or object. *)
Fixpoint read_value (fuel : nat) (s : string) : option (json * string) :=
  match fuel with
  | O => None
  | S fuel' =>
      match skip_ws s with
      | String "n" _ => read_word "null" JNull (skip_ws s)
      | String "t" _ => read_word "true" (JBool true) (skip_ws s)
      | String "f" _ => read_word "false" (JBool false) (skip_ws s)
      | String "034" rest =>
          match read_chars rest with
          | Some (t, rest') => Some (JStr t, rest')
          | None => None
          end
      | String "[" rest =>
          match skip_ws rest with
          | String "]" rest' => Some (JArr [], rest')
          | _ =>
              match read_items fuel' rest with
              | Some (l, rest') => Some (JArr l, rest')
              | None => None
              end
          end
      | String "{" rest =>
          match skip_ws rest with
          | String "}" rest' => Some (JObj [], rest')
          | _ =>
              match read_members fuel' rest with
              | Some (l, rest') => Some (JObj l, rest')
              | None => None
              end
          end
      | _ => read_int (skip_ws s)
      end%char
  end
with read_items (fuel : nat) (s : string) : option (list json * string) :=
  match fuel with
  | O => None
  | S fuel' =>
      match read_value fuel' s with
      | Some (v, rest) =>
          match skip_ws rest with
          | String "," rest' =>
              match read_items fuel' rest' with
              | Some (l, rest'') => Some (v :: l, rest'')
              | None => None
              end
          | String "]" rest' => Some ([v], rest')
          | _ => None
          end%char
      | None => None
      end
  end
with read_members (fuel : nat) (s : string) : option (list (string * json) * string) :=
  match fuel with
  | O => None
  | S fuel' =>
      match skip_ws s with
      | String "034" rest =>
          match read_chars rest with
          | Some (k, rest1) =>
              match skip_ws rest1 with
              | String ":" rest2 =>
                  match read_value fuel' rest2 with
                  | Some (v, rest3) =>
                      match skip_ws rest3 with
                      | String "," rest4 =>
                          match read_members fuel' rest4 with
                          | Some (l, rest5) => Some ((k, v) :: l, rest5)
                          | None => None
                          end
                      | String "}" rest4 => Some ([(k, v)], rest4)
                      | _ => None
                      end
                  | None => None
                  end
              | _ => None
              end
          | None => None
          end
      | _ => None
      end%char
  end.

Definition parse (s : string) : option json :=
  match read_value (S (String.length s)) s with
  | Some (v, rest) =>
      match skip_ws rest with
      | EmptyString => Some v
      | _ => None
      end
  | None => None
  end.

Definition codec : JsonCodec := {| JSON_parse := parse; JSON_stringify := stringify |}.

End MiniJson.

Example MiniJson_write_store :
  let q := String "034" EmptyString in
  let nl := String "010" EmptyString in
  MiniJson.stringify (JArr [DomainEntry "a.com" available])
  = "[" +:+ nl +:+ "    {" +:+ nl
    +:+ "        " +:+ q +:+ "domain" +:+ q +:+ ": " +:+ q +:+ "a.com" +:+ q +:+ "," +:+ nl
    +:+ "        " +:+ q +:+ "status" +:+ q +:+ ": " +:+ q +:+ "available" +:+ q +:+ nl
    +:+ "    }" +:+ nl +:+ "]".
Proof. reflexivity. Qed.

Example MiniJson_write_empty : MiniJson.stringify (JArr []) = "[]".
Proof. reflexivity. Qed.

Example MiniJson_read_store :
  MiniJson.parse (MiniJson.stringify (JArr [DomainEntry "a.com" available; JNum (-12); JNull]))
  = Some (JArr [DomainEntry "a.com" available; JNum (-12); JNull]).
Proof. vm_compute. reflexivity. Qed.

Example MiniJson_read_null : MiniJson.parse "null" = Some JNull.
Proof. vm_compute. reflexivity. Qed.

Example MiniJson_read_garbage : MiniJson.parse "not json" = None.
Proof. vm_compute. reflexivity. Qed.

(** ** Executions and what holds of all of them *)

(** What may have changed when a computation is resumed: other workers and
    other programs write files, make directories and let time pass; the
    decisions of the environment still to come and the record of what this
    computation did are its own. *)
Definition interference (w w' : World) : Prop :=
  faults w' = faults w ∧ remote w' = remote w ∧ schedule w' = schedule w
  ∧ trace w' = trace w.

(** [safe G R Q r]: however [r] is resumed, every world it waits in
    satisfies [G] as long as it is resumed in worlds related by [R], and
    when it finishes [Q] holds.  Every execution finishes: [Res] is
    well-founded. *)
Fixpoint safe {L A} (G : World → Prop) (R : World → World → Prop)
    (Q : Outcome A → L → World → Prop) (r : Res L A) : Prop :=
  match r with
  | Fin o l w => Q o l w
  | Paused w k => G w ∧ ∀ w', R w w' → safe G R Q (k w')
  end.

(** Resuming a computation after the environment did [envs], one
    intervention for every time the computation waits. *)
Fixpoint exec {L A} (envs : list (World → World)) (r : Res L A) : Outcome A * L * World :=
  match r with
  | Fin o l w => (o, l, w)
  | Paused w k =>
      match envs with
      | [] => exec [] (k w)
      | env :: envs' => exec envs' (k (env w))
      end
  end.

(** The environment writing a file. *)
Definition putFile (p content : string) (w : World) : World :=
  set_files (<[p:=content]> (files w)) w.

(** The delays of an execution, in order. *)
Definition sleeps (evs : list Event) : list nat :=
  omap (λ e, match e with Sleep ms => Some ms | _ => None end) evs.

(** The events that change what the file at [p] holds. *)
Definition mutates (p : string) (e : Event) : Prop :=
  match e with
  | WriteFile q _ => q = p
  | CopyFile _ dst => dst = p
  | Rename src dst => src = p ∨ dst = p
  | _ => False
  end.

(** No event of [evs] changes the file at [p]. *)
Definition untouched (p : string) (evs : list Event) : Prop :=
  Forall (λ e, ¬ mutates p e) evs.

(** [evs] ends with the temporary file written and renamed onto [p], and
    nothing before that changes the file at [p]. *)
Definition installs `{JsonCodec} (p : string) (data : json) (evs : list Event) : Prop :=
  ∃ pre m1 m2,
    evs = pre ++ [WriteFile (p +:+ ".tmp") (JSON_stringify data); ConsoleLog m1;
                  Rename (p +:+ ".tmp") p; ConsoleLog m2]
    ∧ untouched p pre.

(** What a load of the store at [p] may do: read, make the directory,
    create or reset the store to the empty document, keep a copy of a
    corrupt store, log and wait. *)
Definition loadEvent `{JsonCodec} (p : string) (e : Event) : Prop :=
  match e with
  | ConsoleLog _ | ConsoleError _ | ReadFile _ _ | Mkdir _ | Sleep _ => True
  | WriteFile q c => q = p ∧ c = JSON_stringify (JArr [])
  | CopyFile src dst => src = p ∧ ∃ now : N, dst = p +:+ ".backup." +:+ pretty now
  | _ => False
  end.

(** ** What the worker may do *)

(** The document [c] is an array to which the record of [domain] with
    [status] was added, none of whose entries had that domain. *)
Definition appends `{JsonCodec} (domain : string) (status : Status) (c : string) : Prop :=
  ∃ items keys,
    Js.mapM Js.entry_domain items = Normal keys ∧ Js.has keys domain = false
    ∧ c = JSON_stringify (JArr (items ++ [DomainEntry domain status])).

(** The events of recording [status] for [domain] in the store at [out]:
    the files written are the store, created or reset to the empty
    document, and its temporary sibling, holding the store read plus the
    record; the store is copied aside and the temporary sibling is renamed
    onto the store. *)
Definition entryEvent `{JsonCodec} (out domain : string) (status : Status) (e : Event) : Prop :=
  match e with
  | WriteFile q c =>
      (q = out ∧ c = JSON_stringify (JArr []))
      ∨ (q = out +:+ ".tmp" ∧ appends domain status c)
  | CopyFile src dst =>
      src = out ∧ (dst = out +:+ ".backup" ∨ ∃ now : N, dst = out +:+ ".backup." +:+ pretty now)
  | Rename src dst => src = out +:+ ".tmp" ∧ dst = out
  | _ => True
  end.

(** The events of a worker in charge of [domains]: the records it adds are
    records of these domains. *)
Definition workerEvent `{JsonCodec} (out : string) (domains : list string) (e : Event) : Prop :=
  match e with
  | WriteFile q c =>
      (q = out ∧ c = JSON_stringify (JArr []))
      ∨ (q = out +:+ ".tmp" ∧ ∃ d status, d ∈ domains ∧ appends d status c)
  | CopyFile src dst =>
      src = out ∧ (dst = out +:+ ".backup" ∨ ∃ now : N, dst = out +:+ ".backup." +:+ pretty now)
  | Rename src dst => src = out +:+ ".tmp" ∧ dst = out
  | _ => True
  end.

(** The worker came to [domain]: it skipped it or it probed it. *)
Definition attended (sessionNumber : nat) (domain : string) (evs : list Event) : Prop :=
  ConsoleLog ("Session " +:+ pretty sessionNumber +:+ ": Domain " +:+ domain
              +:+ " already checked, skipping...") ∈ evs
  ∨ Remote (SearchPage (searchUrl domain)) ∈ evs.

(** [runs m l S]: in every world and whatever happens while it waits, [m]
    started on the local variables [l] finishes, and its outcome, the local
    variables it leaves and the events it added to the trace satisfy [S]. *)
Definition runs {L A} (m : Prog L A) (l : L)
    (S : Outcome A → L → list Event → Prop) : Prop :=
  ∀ w, safe (λ _, True) interference
         (λ o l' w', ∃ evs, trace w' = trace w ++ evs ∧ S o l' evs) (m l w).

(** What a save of [data] to the store at [p] may do. *)
Definition saveEvent `{JsonCodec} (p : string) (data : json) (e : Event) : Prop :=
  match e with
  | WriteFile q c => q = p +:+ ".tmp" ∧ c = JSON_stringify data
  | CopyFile src dst => src = p ∧ dst = p +:+ ".backup"
  | Rename src dst => src = p +:+ ".tmp" ∧ dst = p
  | ReadFile _ _ | Remote _ => False
  | _ => True
  end.

(** The events that leave the file system alone. *)
Definition quiet (e : Event) : Prop :=
  match e with
  | ConsoleLog _ | ConsoleError _ | Sleep _ | Remote _ => True
  | _ => False
  end.

(** A record whose [status] is the string ["error"]. *)
Definition isErrorRecord (entry : json) : bool :=
  match Js.get "status" entry with
  | Normal (Some (JStr s)) => String.eqb s "error"
  | _ => false
  end.

(** ** More vocabulary *)

(** Creating and closing a session. *)
Definition sessionEvent (e : Event) : Prop :=
  match e with
  | Remote (InitSession _) | Remote CloseSession => True
  | _ => False
  end.

(** The pages of search results asked for, in order. *)
Definition probes (evs : list Event) : list string :=
  omap (λ e, match e with Remote (SearchPage url) => Some url | _ => None end) evs.

(** The domains typed into the search box of the home page, in order. *)
Definition fallbacks (evs : list Event) : list string :=
  omap (λ e, match e with Remote (SearchBox domain) => Some domain | _ => None end) evs.

(** The files that belong to the store at [out]: the store, its temporary
    sibling and the copies kept of it. *)
Definition storeFile (out q : string) : Prop :=
  q = out ∨ q = out +:+ ".tmp" ∨ q = out +:+ ".backup"
  ∨ ∃ now : N, q = out +:+ ".backup." +:+ pretty now.

(** The file at [q] holds [c], or does not exist when [c] is [None]. *)
Definition fileIs (q : string) (c : option string) (w : World) : Prop :=
  files w !! q = c.

(** What the alternative approach answers for the page it finds. *)
Definition pageStatus (pageContent : string) : Status :=
  let lowerPageContent := JsString.toLowerCase pageContent in
  if JsString.includes "is a great choice" lowerPageContent
     && JsString.includes "add to cart" lowerPageContent
  then available
  else if JsString.includes "is taken" lowerPageContent
          || JsString.includes "make offer" lowerPageContent
  then unavailable
  else unknown.

(** ** Uniqueness of the domains of the store *)

(** The domain of a record, when it has one. *)
Definition domainOf (entry : json) : option json :=
  match Js.entry_domain entry with
  | Normal (Some d) => Some d
  | _ => None
  end.

(** No two records of the document [v] have the same domain. *)
Definition uniqueDomains (v : json) : Prop :=
  match v with
  | JArr items => NoDup (omap domainOf items)
  | _ => True
  end.

(** No two records of the store at [p] have the same domain, for whatever
    the file parses to. *)
Definition storeUnique `{JsonCodec} (p : string) (w : World) : Prop :=
  ∀ data v, files w !! p = Some data → JSON_parse data = Some v → uniqueDomains v.

(** [keeps I m l S]: started in a world where [I] holds and resumed in
    worlds where [I] holds, [m] waits and finishes only in worlds where [I]
    holds, and its outcome and local variables satisfy [S]. *)
Definition keeps {L A} (I : World → Prop) (m : Prog L A) (l : L)
    (S : Outcome A → L → Prop) : Prop :=
  ∀ w, I w → safe I (λ _ w', I w') (λ o l' w', I w' ∧ S o l') (m l w).

(** The local variables of a worker hold a document with unique domains and
    the set of its domains. *)
Definition fresh (l : Locals) : Prop :=
  ∃ items, currentResults l = JArr items ∧ uniqueDomains (JArr items)
           ∧ Js.mapM Js.entry_domain items = Normal (checkedDomainsSet l).

(** A worker that waits goes on keeping [I] when it is resumed. *)
Definition taskKeeps {L} (I : World → Prop) (t : Task L) : Prop :=
  match t with
  | Waiting k => ∀ w, I w → safe I (λ _ w', I w') (λ _ _ w', I w') (k w)
  | Settled _ => True
  end.

(** ** The reader reads back what the writer wrote *)

(** The first character of what follows a number is not part of a number. *)
Definition ends_number (rest : string) : Prop :=
  match rest with
  | String a _ => MiniJson.is_num_char a = false
  | EmptyString => True
  end.

(** A string of sign and digit characters. *)
Fixpoint num_string (s : string) : bool :=
  match s with
  | EmptyString => true
  | String a s' => MiniJson.is_num_char a && num_string s'
  end.

(** What the writer puts after the first item of an array, and after the
    first member of an object. *)
Fixpoint write_items (indent : nat) (l : list json) : string :=
  match l with
  | [] => EmptyString
  | y :: l' => "," +:+ MiniJson.newline indent +:+ MiniJson.write indent y +:+ write_items indent l'
  end.

Fixpoint write_members (indent : nat) (l : list (string * json)) : string :=
  match l with
  | [] => EmptyString
  | (k, y) :: l' =>
      "," +:+ MiniJson.newline indent +:+ MiniJson.quote k +:+ ": "
      +:+ MiniJson.write indent y +:+ write_members indent l'
  end.

(** The first character of a written value: it starts a value. *)
Definition starts_value (s : string) : Prop :=
  match s with
  | String a _ =>
      MiniJson.is_ws a = false ∧ a ≠ "]"%char ∧ a ≠ "}"%char
  | EmptyString => False
  end.

(** ** Runs of the program on the reader and writer of JSON *)

Module Demo.

Definition store : string := "/app/output/domain.json".

(** A world with the given files, the directories of the project, no
    fault and the given replies of the remote site. *)
Definition world (fs : list (string * string)) (replies : list Reply) : World :=
  mkWorld (list_to_map fs) {[ "/app/input"; "/app/output" ]} 1700000000000 [] replies [] [].

(** The same world in which the next [n] file system calls fail. *)
Definition failing (n : nat) (w : World) : World := set_faults (replicate n true) w.

Definition document (v : json) : string := MiniJson.stringify v.

Definition twoRecords : list json :=
  [DomainEntry "a.com" available; DomainEntry "b.com" error].

Definition oddRecords : json :=
  JArr [JObj [("domain", JStr "a.com"); ("status", JStr "parked")]; JNum 7].

Definition mixedCaseInput : string :=
  " Example.COM " +:+ String "010" "example.com" +:+ String "010" "https://www.example.com".

End Demo.

(** ** Vocabulary of the further properties *)

Local Open Scope nat_scope.

(** The events of reading: nothing is written, copied, renamed or created. *)
Definition readsOnly (e : Event) : Prop :=
  match e with
  | ReadFile _ _ | ConsoleError _ | Sleep _ => True
  | _ => False
  end.

(** The files read in an execution, with what was read, in order. *)
Definition reads (evs : list Event) : list (string * string) :=
  omap (λ e, match e with ReadFile p content => Some (p, content) | _ => None end) evs.

(** The delays before the attempts [r], [r + 1], ..., [r + k - 1] of the
    checker: there is none before attempt 0. *)
Fixpoint retryDelays (r k : nat) : list nat :=
  match k with
  | O => []
  | S k' => (if (0 <? r)%nat then [5000 * r] else []) ++ retryDelays (S r) k'
  end.

(** What the executions of the checker with [left] retries to go look
    like: it answers a status, touches no file, probes the results page
    [n + 1] times with [n <= left], waits before each attempt but
    attempt 0, and turns to the search box only after the last probe. *)
Definition attempts {L} (domain : string) (left : nat) (l : L)
    (o : Outcome Status) (l' : L) (evs : list Event) : Prop :=
  l' = l ∧ (∃ s, o = Normal s) ∧ Forall quiet evs
  ∧ ∃ n, n ≤ left
         ∧ probes evs = replicate (S n) (searchUrl domain)
         ∧ sleeps evs = retryDelays (2 - left) (S n)
         ∧ (fallbacks evs = [] ∨ (n = left ∧ fallbacks evs = [domain])).

(** [solo m l w Q]: started in the world [w] and resumed, every time it
    waits, in the world it waits in (nothing else happens meanwhile), [m]
    finishes and [Q] holds of its outcome, local variables and world. *)
Definition solo {L A} (m : Prog L A) (l : L) (w : World)
    (Q : Outcome A → L → World → Prop) : Prop :=
  safe (λ _, True) (λ w1 w2, w2 = w1) Q (m l w).

(** An event that neither creates nor closes a session. *)
Definition calm (e : Event) : Prop := ¬ sessionEvent e.

(** The events [rest] end with the session being closed and one more event,
    and no other of them creates or closes a session. *)
Definition closesSession (rest : list Event) : Prop :=
  ∃ between last,
    rest = between ++ [Remote CloseSession; last] ∧ Forall calm between ∧ calm last.

(** * Proofs *)

Set Warnings "-clear-no-such-hyp".

Lemma length_append (s t : string) : String.length (s +:+ t) = String.length s + String.length t.
Proof. induction s; simpl; auto. Qed.

Lemma append_ne (s t : string) : t ≠ EmptyString → s +:+ t ≠ s.
Proof.
  intros Ht Heq. apply (f_equal String.length) in Heq. rewrite length_append in Heq.
  destruct t; [done|]. simpl in Heq. lia.
Qed.

Ltac prog_unfold :=
  unfold mbind, prog_bind, bind, try_catch, try_finally, await, call, lift, ret, throw,
    when, mret, prog_ret, console_log, console_error, Date_now, getLocals, setLocals,
    fs.existsSync, fs.mkdirSync, fs.writeFileSync, fs.readFileSync, fs.copyFileSync,
    fs.renameSync, fs.fallible, fs.take_fault in *.

Ltac prog_case :=
  match goal with
  | |- context [match faults ?w with _ => _ end] =>
      let bs := fresh "bs" in let Hf := fresh "Hfaults" in
      destruct (faults w) as [|[] bs] eqn:Hf
  | |- context [match ?bs with [] => _ | _ :: _ => _ end] =>
      is_var bs; destruct bs as [|[] ?]
  | |- context [if ?b then _ else _] =>
      let Hb := fresh "Hb" in destruct b eqn:Hb
  | |- context [match <[?k:=?v]> _ !! ?k with _ => _ end] => rewrite lookup_insert_eq
  | |- context [match files ?w !! ?p with _ => _ end] =>
      let Hl := fresh "Hlook" in destruct (files w !! p) eqn:Hl
  | |- context [match @lookup string string (gmap string string) _ ?p ?m with _ => _ end] =>
      let Hl := fresh "Hlook" in destruct (m !! p) eqn:Hl
  | |- context [match Js.length ?d with _ => _ end] =>
      let Hl := fresh "Hlen" in destruct (Js.length d) eqn:Hl
  | |- context [match JSON_parse ?d with _ => _ end] =>
      let Hl := fresh "Hparse" in destruct (JSON_parse d) eqn:Hl
  end.

Ltac prog_run := prog_unfold; repeat (cbn; try prog_case).

Section Rules.
Context {L : Type}.
Implicit Types (G : World → Prop) (R : World → World → Prop).

Lemma safe_mono {A} G R (Q Q' : Outcome A → L → World → Prop) (r : Res L A) :
  (∀ o l w, Q o l w → Q' o l w) → safe G R Q r → safe G R Q' r.
Proof.
  intros HQ. induction r as [o l w|w k IH]; simpl; [auto|].
  intros [HG Hk]. split; [done|]. intros w' HR. apply IH, Hk, HR.
Qed.

Lemma safe_bind {A B} G R (Q : Outcome B → L → World → Prop)
    (r : Res L A) (f : A → Prog L B) :
  safe G R (λ o l w, match o with
                     | Normal a => safe G R Q (f a l w)
                     | Thrown e => Q (Thrown e) l w
                     end) r →
  safe G R Q (bindR r f).
Proof.
  induction r as [[a|e] l w|w k IH]; simpl; [auto..|].
  intros [HG Hk]. split; [done|]. intros w' HR. apply IH, Hk, HR.
Qed.

Lemma safe_catch {A} G R (Q : Outcome A → L → World → Prop)
    (r : Res L A) (h : Exn → Prog L A) :
  safe G R (λ o l w, match o with
                     | Normal a => Q (Normal a) l w
                     | Thrown e => safe G R Q (h e l w)
                     end) r →
  safe G R Q (catchR r h).
Proof.
  induction r as [[a|e] l w|w k IH]; simpl; [auto..|].
  intros [HG Hk]. split; [done|]. intros w' HR. apply IH, Hk, HR.
Qed.

Lemma safe_await {A} G R (Q : Outcome A → L → World → Prop) (r : Res L A) :
  safe G R (λ o l w, G w ∧ ∀ w', R w w' → Q o l w') r →
  safe G R Q (awaitR r).
Proof.
  induction r as [o l w|w k IH]; simpl; [auto|].
  intros [HG Hk]. split; [done|]. intros w' HR. apply IH, Hk, HR.
Qed.

Lemma safe_finally {A} G R (Q : Outcome A → L → World → Prop)
    (r : Res L A) (f : Prog L unit) :
  safe G R (λ o l w, safe G R (λ o' l' w', match o' with
                                            | Normal _ => Q o l' w'
                                            | Thrown e => Q (Thrown e) l' w'
                                            end) (f l w)) r →
  safe G R Q (finallyR r f).
Proof.
  induction r as [o l w|w k IH]; simpl.
  - intros Hf. apply safe_bind. revert Hf. apply safe_mono. by intros [[]|].
  - intros [HG Hk]. split; [done|]. intros w' HR. apply IH, Hk, HR.
Qed.

Lemma safe_exec {A} G R (Q : Outcome A → L → World → Prop) envs (r : Res L A) :
  Forall (λ env, ∀ w, R w (env w)) envs → (∀ w, R w w) →
  safe G R Q r →
  let '(o, l, w) := exec envs r in Q o l w.
Proof.
  intros Henvs Hrefl. revert envs Henvs.
  induction r as [o l w|w k IH]; simpl; [auto|].
  intros envs Henvs [_ Hk]. destruct Henvs as [|env envs Henv Henvs].
  - apply IH; [constructor|]. apply Hk, Hrefl.
  - apply IH; [done|]. apply Hk, Henv.
Qed.
End Rules.



Lemma cons_app_eq {A} (x : A) xs pre t : xs = pre ++ t → x :: xs = (x :: pre) ++ t.
Proof. by intros ->. Qed.

Ltac solve_suffix :=
  first [ exact eq_refl | refine (eq_refl : _ = [] ++ _) | apply cons_app_eq; solve_suffix ].


Lemma tmp_ne p : p +:+ ".tmp" ≠ p.
Proof. by apply append_ne. Qed.
Lemma backup_ne p : p +:+ ".backup" ≠ p.
Proof. by apply append_ne. Qed.

Ltac solve_untouched :=
  unfold untouched; repeat constructor; cbn; try tauto;
  let Hm := fresh "Hm" in
  intros Hm; first [ by apply tmp_ne in Hm | by apply backup_ne in Hm ].



(** ** Rules for [runs] *)

Section RunsRules.
Context {L : Type}.
Implicit Types (l : L).

Lemma interference_trace w w' : interference w w' → trace w' = trace w.
Proof. by intros (_ & _ & _ & ?). Qed.

Lemma runs_mono {A} (m : Prog L A) l (S S' : Outcome A → L → list Event → Prop) :
  runs m l S → (∀ o l' evs, S o l' evs → S' o l' evs) → runs m l S'.
Proof.
  intros Hm HS w. eapply safe_mono; [|apply Hm].
  intros o l' w' (evs & Ht & HSo). eauto.
Qed.

Lemma runs_fin {A} (m : Prog L A) l (S : Outcome A → L → list Event → Prop) :
  (∀ w, ∃ o l' evs, m l w = Fin o l' (mkWorld (files w) (dirs w) (clock w) (faults w)
                                        (remote w) (schedule w) (trace w ++ evs))
                    ∧ S o l' evs) →
  runs m l S.
Proof. intros Hm w. destruct (Hm w) as (o & l' & evs & -> & HS). cbn. eauto. Qed.

Lemma runs_ret {A} (a : A) l (S : Outcome A → L → list Event → Prop) :
  S (Normal a) l [] → runs (mret a) l S.
Proof. intros HS w. cbn. exists []. by rewrite app_nil_r. Qed.

Lemma runs_lift {A} (o : Outcome A) l (S : Outcome A → L → list Event → Prop) :
  S o l [] → runs (lift o) l S.
Proof. intros HS w. cbn. exists []. by rewrite app_nil_r. Qed.

Lemma runs_throw {A} e l (S : Outcome A → L → list Event → Prop) :
  S (Thrown e) l [] → runs (throw e) l S.
Proof. intros HS w. cbn. exists []. by rewrite app_nil_r. Qed.

Lemma runs_getLocals l (S : Outcome L → L → list Event → Prop) :
  S (Normal l) l [] → runs getLocals l S.
Proof. intros HS w. cbn. exists []. by rewrite app_nil_r. Qed.

Lemma runs_setLocals l l' (S : Outcome unit → L → list Event → Prop) :
  S (Normal tt) l' [] → runs (setLocals l') l S.
Proof. intros HS w. cbn. exists []. by rewrite app_nil_r. Qed.

Lemma runs_log msg l (S : Outcome unit → L → list Event → Prop) :
  S (Normal tt) l [ConsoleLog msg] → runs (console_log msg) l S.
Proof. intros HS w. cbn. eauto. Qed.

Lemma runs_error msg l (S : Outcome unit → L → list Event → Prop) :
  S (Normal tt) l [ConsoleError msg] → runs (console_error msg) l S.
Proof. intros HS w. cbn. eauto. Qed.

Lemma runs_sleep ms l (S : Outcome unit → L → list Event → Prop) :
  S (Normal tt) l [Sleep ms] → runs (sleep ms) l S.
Proof.
  intros HS w. cbn. split; [done|]. intros w' Hi.
  exists [Sleep ms]. by rewrite (interference_trace _ _ Hi).
Qed.

Lemma runs_remote op l (S : Outcome (bool * string) → L → list Event → Prop) :
  (∀ r, S (Normal r) l [Remote op]) → S (Thrown RemoteError) l [Remote op] →
  runs (remoteCall op) l S.
Proof.
  intros HN HT w. cbn. split; [done|]. intros w' Hi.
  destruct (remote w') as [|[|b c] rs]; cbn; exists [Remote op];
    by rewrite (interference_trace _ _ Hi).
Qed.

Lemma runs_bind {A B} (m : Prog L A) (f : A → Prog L B) l
    (S : Outcome B → L → list Event → Prop) :
  runs m l (λ o l1 evs1,
              match o with
              | Normal a => runs (f a) l1 (λ o2 l2 evs2, S o2 l2 (evs1 ++ evs2))
              | Thrown e => S (Thrown e) l1 evs1
              end) →
  runs (m ≫= f) l S.
Proof.
  intros Hm w. unfold mbind, prog_bind, bind. apply safe_bind.
  eapply safe_mono; [|apply Hm].
  intros [a|e] l1 w1 (evs1 & Ht1 & HS1); [|by eauto].
  eapply safe_mono; [|apply HS1].
  intros o2 l2 w2 (evs2 & Ht2 & HS2). exists (evs1 ++ evs2).
  by rewrite Ht2, Ht1, <- app_assoc.
Qed.

Lemma runs_catch {A} (m : Prog L A) (h : Exn → Prog L A) l
    (S : Outcome A → L → list Event → Prop) :
  runs m l (λ o l1 evs1,
              match o with
              | Normal a => S (Normal a) l1 evs1
              | Thrown e => runs (h e) l1 (λ o2 l2 evs2, S o2 l2 (evs1 ++ evs2))
              end) →
  runs (try_catch m h) l S.
Proof.
  intros Hm w. unfold try_catch. apply safe_catch.
  eapply safe_mono; [|apply Hm].
  intros [a|e] l1 w1 (evs1 & Ht1 & HS1); [by eauto|].
  eapply safe_mono; [|apply HS1].
  intros o2 l2 w2 (evs2 & Ht2 & HS2). exists (evs1 ++ evs2).
  by rewrite Ht2, Ht1, <- app_assoc.
Qed.

Lemma runs_finally {A} (m : Prog L A) (f : Prog L unit) l
    (S : Outcome A → L → list Event → Prop) :
  runs m l (λ o l1 evs1,
              runs f l1 (λ o2 l2 evs2,
                           match o2 with
                           | Normal _ => S o l2 (evs1 ++ evs2)
                           | Thrown e => S (Thrown e) l2 (evs1 ++ evs2)
                           end)) →
  runs (try_finally m f) l S.
Proof.
  intros Hm w. unfold try_finally. apply safe_finally.
  eapply safe_mono; [|apply Hm].
  intros o l1 w1 (evs1 & Ht1 & HS1).
  eapply safe_mono; [|apply HS1].
  intros [[]|e] l2 w2 (evs2 & Ht2 & HS2); exists (evs1 ++ evs2);
    by rewrite Ht2, Ht1, <- app_assoc.
Qed.

Lemma runs_await {A} (m : Prog L A) l (S : Outcome A → L → list Event → Prop) :
  runs m l S → runs (await m) l S.
Proof.
  intros Hm w. unfold await. apply safe_await.
  eapply safe_mono; [|apply Hm].
  intros o l1 w1 (evs1 & Ht1 & HS1). split; [done|].
  intros w' Hi. exists evs1. by rewrite (interference_trace _ _ Hi).
Qed.

Lemma runs_when (b : bool) (m : Prog L unit) l (S : Outcome unit → L → list Event → Prop) :
  (b = true → runs m l S) → (b = false → S (Normal tt) l []) → runs (when b m) l S.
Proof. destruct b; intros Ht Hf; [by apply Ht|by apply runs_ret, Hf]. Qed.
End RunsRules.

Section W.
Context `{JsonCodec} {L : Type}.

Lemma writeAttempt_spec p data (l : L) w :
  ∃ o w' evs, writeAttempt p data l w = Fin o l w' ∧ trace w' = trace w ++ evs
    ∧ sleeps evs = [] ∧ Forall (saveEvent p data) evs
    ∧ ((o = Normal true ∧ installs p data evs
        ∧ files w' !! p = Some (JSON_stringify data))
       ∨ (∃ e, o = Thrown e ∧ untouched p evs ∧ files w' !! p = files w !! p)).
Proof.
  unfold writeAttempt. prog_run.
  all: do 3 eexists; split; [reflexivity|]; cbn; rewrite <- ?app_assoc; cbn.
  all: split; [try reflexivity; try (symmetry; apply app_nil_r)|].
  all: split; [reflexivity|].
  all: split; [by repeat constructor|].
  all: first [ right; eexists; split; [reflexivity|]; split; [solve_untouched|];
               rewrite ?lookup_insert_ne by (first [apply tmp_ne|apply backup_ne]); done
             | left; split; [reflexivity|]; split;
               [do 3 eexists; split; [solve_suffix|solve_untouched]
               | by rewrite lookup_insert_eq] ].
Qed.

Lemma sleeps_app evs1 evs2 : sleeps (evs1 ++ evs2) = sleeps evs1 ++ sleeps evs2.
Proof. unfold sleeps. apply omap_app. Qed.

Lemma untouched_app p evs1 evs2 : untouched p evs1 → untouched p evs2 → untouched p (evs1 ++ evs2).
Proof. unfold untouched. intros. by apply Forall_app. Qed.

Lemma installs_app p data evs1 evs2 :
  untouched p evs1 → installs p data evs2 → installs p data (evs1 ++ evs2).
Proof.
  intros Hun (pre & m1 & m2 & -> & Hpre). exists (evs1 ++ pre), m1, m2.
  split; [by rewrite <- app_assoc|]. by apply untouched_app.
Qed.

Lemma writeLoop_spec p data maxRetries left (l : L) w :
  left ≤ maxRetries →
  safe (λ _, True) interference
    (λ o l' w', l' = l ∧ ∃ evs failed,
       trace w' = trace w ++ evs ∧ Forall (saveEvent p data) evs
       ∧ sleeps evs = (λ k, 1000 * k) <$> seq (maxRetries - left + 1) failed
       ∧ ((o = Normal true ∧ failed < left ∧ installs p data evs
           ∧ files w' !! p = Some (JSON_stringify data))
          ∨ (o = Normal false ∧ failed = left ∧ untouched p evs)))
    (writeLoop p data maxRetries left l w).
Proof.
  revert w. induction left as [|left IH]; intros w Hle.
  - cbn. split; [done|]. eexists _, 0. split; [reflexivity|].
    split; [by repeat constructor|]. split; [done|].
    right. split; [done|]. split; [done|]. solve_untouched.
  - cbn [writeLoop]. unfold try_catch.
    destruct (writeAttempt_spec p data l w)
      as (o & w1 & evs1 & -> & Ht1 & Hs1 & Hev1 & Hcase).
    destruct Hcase as [(-> & Hinst & Hfile)|(e & -> & Hun & _)].
    + cbn. split; [done|]. exists evs1, 0. split; [done|]. split; [done|].
      split; [by rewrite Hs1|].
      left. split; [done|]. split; [lia|]. by split.
    + cbn. split; [done|]. intros w2 (_ & _ & _ & Ht2).
      eapply safe_mono; [|apply IH; lia].
      intros o l' w' (-> & evs2 & failed & Ht' & Hev2 & Hsl & Hcase).
      split; [done|]. cbn in Ht2.
      eexists (evs1 ++ [ConsoleError _; Sleep (1000 * (maxRetries - left))] ++ evs2),
              (S failed).
      split; [rewrite Ht', Ht2, Ht1; by rewrite <- !app_assoc|].
      split; [apply Forall_app; split; [done|]; apply Forall_app; split;
              [by repeat constructor|done]|].
      split.
      { rewrite !sleeps_app, Hs1, Hsl. cbn.
        replace (maxRetries - S left + 1) with (maxRetries - left) by lia.
        replace (S (maxRetries - left)) with (maxRetries - left + 1) by lia. done. }
      destruct Hcase as [(-> & Hlt & Hinst & Hfile)|(-> & -> & Hun2)].
      * left. split; [done|]. split; [lia|]. split; [|done].
        apply installs_app; [done|]. apply installs_app; [solve_untouched|done].
      * right. split; [done|]. split; [done|].
        apply untouched_app; [done|]. apply untouched_app; [solve_untouched|done].
Qed.
End W.


Section R.
Context `{JsonCodec} {L : Type}.

Lemma quarantine_ne p (now : N) : p +:+ ".backup." +:+ pretty now ≠ p.
Proof.
  intros Heq. apply (f_equal String.length) in Heq.
  rewrite !length_append in Heq. simpl in Heq. lia.
Qed.

Lemma length_not_null v : v ≠ JNull → ∃ n, Js.length v = Normal n.
Proof. destruct v; try done; eauto. Qed.

Lemma readAttempt_spec p (l : L) w :
  ∃ o w' evs, readAttempt p l w = Fin o l w' ∧ trace w' = trace w ++ evs
    ∧ sleeps evs = [] ∧ Forall (loadEvent p) evs ∧ clock w' = clock w
    ∧ ((∃ e, o = Thrown e ∧ files w' !! p = files w !! p)
       ∨ (o = Normal (JArr [])
          ∧ (files w' !! p = files w !! p ∨ files w' !! p = Some (JSON_stringify (JArr []))))
       ∨ (∃ data v, o = Normal v ∧ files w !! p = Some data ∧ JSON_parse data = Some v
            ∧ v ≠ JNull ∧ files w' = files w)).
Proof.
  unfold readAttempt, parse. prog_run.
  all: do 3 eexists; split; [reflexivity|]; cbn; rewrite <- ?app_assoc; cbn.
  all: split; [try reflexivity; try (symmetry; apply app_nil_r)|].
  all: split; [reflexivity|].
  all: split; [repeat constructor; cbn; eauto|].
  all: split; [reflexivity|].
  all: try (left; eexists; split; [reflexivity|];
            rewrite ?lookup_insert_ne by (apply quarantine_ne); congruence).
  all: try (right; left; split; [reflexivity|];
            first [ left; rewrite ?lookup_insert_ne by (apply quarantine_ne); congruence
                  | right; by rewrite lookup_insert_eq ]).
  all: right; right; do 2 eexists; split; [reflexivity|]; split; [reflexivity|];
       split; [eassumption|]; split; [|done]; intros ->; done.
Qed.

Lemma readLoop_spec p maxRetries left (l : L) w :
  safe (λ _, True) interference
    (λ o l' w', l' = l ∧ ∃ v evs, o = Normal v ∧ trace w' = trace w ++ evs
       ∧ Forall (loadEvent p) evs
       ∧ ∃ failed, failed ≤ left ∧ sleeps evs = replicate failed 1000
                   ∧ (failed = left → v = JArr []))
    (readLoop p maxRetries left l w).
Proof.
  revert w. induction left as [|left IH]; intros w.
  - cbn. split; [done|]. do 2 eexists. split; [done|]. split; [reflexivity|].
    split; [by repeat constructor|]. by exists 0.
  - cbn [readLoop]. unfold try_catch.
    destruct (readAttempt_spec p l w) as (o & w1 & evs1 & -> & Ht1 & Hs1 & Hev1 & _ & Hcase).
    destruct Hcase as [(e & -> & _)|[(-> & _)|(data & v & -> & _)]].
    + cbn. split; [done|]. intros w2 (_ & _ & _ & Ht2).
      eapply safe_mono; [|apply IH].
      intros o l' w' (-> & v & evs2 & -> & Ht' & Hev2 & failed & Hle & Hsl & Hex).
      split; [done|]. cbn in Ht2.
      exists v. eexists (evs1 ++ [ConsoleError _; Sleep 1000] ++ evs2).
      split; [done|]. split; [rewrite Ht', Ht2, Ht1; by rewrite <- !app_assoc|].
      split; [apply Forall_app; split; [done|]; apply Forall_app; split;
              [by repeat constructor|done]|].
      exists (S failed). split; [lia|]. split.
      * by rewrite !sleeps_app, Hs1, Hsl.
      * intros [= ->]. auto.
    + cbn. split; [done|]. do 2 eexists. split; [done|]. split; [done|].
      split; [done|]. exists 0. split; [lia|]. by split.
    + cbn. split; [done|]. do 2 eexists. split; [done|]. split; [done|].
      split; [done|]. exists 0. split; [lia|]. by split.
Qed.

(** The runs of [safelyReadResultsFile] in which no file system call fails. *)
Lemma read_absent p n (l : L) w :
  faults w = [] → files w !! p = None → p ∉ dirs w →
  ∃ w', safelyReadResultsFile p (S n) l w = Fin (Normal (JArr [])) l w'
        ∧ files w' = <[p:=JSON_stringify (JArr [])]> (files w).
Proof.
  intros Hf Hp Hd. unfold safelyReadResultsFile. cbn [readLoop].
  unfold readAttempt. prog_unfold.
  repeat first [rewrite Hp | rewrite Hf | rewrite (bool_decide_eq_false_2 _ Hd) | progress cbn].
  destruct (bool_decide _ || bool_decide _);
    repeat first [rewrite Hf | progress cbn]; eauto.
Qed.

Lemma read_blank p n data (l : L) w :
  faults w = [] → files w !! p = Some data → JsString.trim data = EmptyString →
  ∃ msg, safelyReadResultsFile p (S n) l w
         = Fin (Normal (JArr [])) l (emit (ConsoleLog msg) (emit (ReadFile p data) w)).
Proof.
  intros Hf Hp Hd. unfold safelyReadResultsFile. cbn [readLoop].
  unfold readAttempt. prog_unfold.
  repeat first [rewrite Hp | rewrite Hf | rewrite Hd | progress cbn]. eauto.
Qed.

Lemma read_valid p n data v (l : L) w :
  faults w = [] → files w !! p = Some data → JsString.trim data ≠ EmptyString →
  JSON_parse data = Some v → v ≠ JNull →
  ∃ msg, safelyReadResultsFile p (S n) l w
         = Fin (Normal v) l (emit (ConsoleLog msg) (emit (ReadFile p data) w)).
Proof.
  intros Hf Hp Hd Hv Hnull. unfold safelyReadResultsFile. cbn [readLoop].
  unfold readAttempt, parse. prog_unfold.
  destruct (length_not_null v Hnull) as [k Hk].
  destruct (JsString.trim data) eqn:Ht; [done|].
  repeat first [rewrite Hp | rewrite Hf | rewrite Ht | rewrite Hv | rewrite Hk | progress cbn].
  eauto.
Qed.

Lemma read_corrupt p n data (l : L) w :
  faults w = [] → files w !! p = Some data → JsString.trim data ≠ EmptyString →
  JSON_parse data = None ∨ JSON_parse data = Some JNull →
  ∃ w', safelyReadResultsFile p (S n) l w = Fin (Normal (JArr [])) l w'
        ∧ files w' = <[p:=JSON_stringify (JArr [])]>
                       (<[p +:+ ".backup." +:+ pretty (clock w):=data]> (files w)).
Proof.
  intros Hf Hp Hd Hv. unfold safelyReadResultsFile. cbn [readLoop].
  unfold readAttempt, parse. prog_unfold.
  destruct (JsString.trim data) eqn:Ht; [done|].
  destruct Hv as [Hv|Hv];
    repeat first [rewrite Hp | rewrite Hf | rewrite Ht | rewrite Hv | progress cbn]; eauto.
Qed.
End R.

(** *** The same for the copy in [src/scrape/scraper.ts] *)

Section ScraperStore.
Context `{JsonCodec} {L : Type}.

Lemma scraper_writeAttempt_spec p data (l : L) w :
  ∃ o w' evs, Scraper.writeAttempt p data l w = Fin o l w' ∧ trace w' = trace w ++ evs
    ∧ sleeps evs = []
    ∧ ((o = Normal true
        ∧ (∃ pre, evs = pre ++ [WriteFile (p +:+ ".tmp") (JSON_stringify data);
                                Rename (p +:+ ".tmp") p] ∧ untouched p pre)
        ∧ files w' !! p = Some (JSON_stringify data))
       ∨ (∃ e, o = Thrown e ∧ untouched p evs ∧ files w' !! p = files w !! p)).
Proof.
  unfold Scraper.writeAttempt. prog_run.
  all: do 3 eexists; split; [reflexivity|]; cbn; rewrite <- ?app_assoc; cbn.
  all: split; [try reflexivity; try (symmetry; apply app_nil_r)|].
  all: split; [reflexivity|].
  all: first [ right; eexists; split; [reflexivity|]; split; [solve_untouched|];
               rewrite ?lookup_insert_ne by (apply tmp_ne); done
             | left; split; [reflexivity|]; split;
               [eexists; split; [solve_suffix|solve_untouched]
               | by rewrite lookup_insert_eq] ].
Qed.

Lemma scraper_writeLoop_spec p data maxRetries left (l : L) w :
  safe (λ _, True) interference
    (λ o l' w', l' = l ∧ ∃ evs failed,
       trace w' = trace w ++ evs
       ∧ sleeps evs = replicate failed 1000
       ∧ ((o = Normal true ∧ failed < left
           ∧ (∃ pre, evs = pre ++ [WriteFile (p +:+ ".tmp") (JSON_stringify data);
                                   Rename (p +:+ ".tmp") p] ∧ untouched p pre)
           ∧ files w' !! p = Some (JSON_stringify data))
          ∨ (o = Normal false ∧ failed = left ∧ untouched p evs)))
    (Scraper.writeLoop p data maxRetries left l w).
Proof.
  revert w. induction left as [|left IH]; intros w.
  - cbn. split; [done|]. eexists _, 0. split; [reflexivity|]. split; [done|].
    right. split; [done|]. split; [done|]. solve_untouched.
  - cbn [Scraper.writeLoop]. unfold try_catch.
    destruct (scraper_writeAttempt_spec p data l w)
      as (o & w1 & evs1 & -> & Ht1 & Hs1 & Hcase).
    destruct Hcase as [(-> & Hinst & Hfile)|(e & -> & Hun & _)].
    + cbn. split; [done|]. exists evs1, 0. split; [done|]. split; [by rewrite Hs1|].
      left. split; [done|]. split; [lia|]. by split.
    + cbn. split; [done|]. intros w2 (_ & _ & _ & Ht2).
      eapply safe_mono; [|apply IH].
      intros o l' w' (-> & evs2 & failed & Ht' & Hsl & Hcase).
      split; [done|]. cbn in Ht2.
      eexists (evs1 ++ [ConsoleError _; Sleep 1000] ++ evs2), (S failed).
      split; [rewrite Ht', Ht2, Ht1; by rewrite <- !app_assoc|].
      split; [by rewrite !sleeps_app, Hs1, Hsl|].
      destruct Hcase as [(-> & Hlt & (pre & -> & Hpre) & Hfile)|(-> & -> & Hun2)].
      * left. split; [done|]. split; [lia|]. split; [|done].
        eexists (evs1 ++ [ConsoleError _; Sleep 1000] ++ pre).
        split; [by rewrite <- !app_assoc|].
        apply untouched_app; [done|]. apply untouched_app; [solve_untouched|done].
      * right. split; [done|]. split; [done|].
        apply untouched_app; [done|]. apply untouched_app; [solve_untouched|done].
Qed.

Lemma scraper_read_valid p n data v (l : L) w :
  faults w = [] → files w !! p = Some data → JsString.trim data ≠ EmptyString →
  JSON_parse data = Some v →
  Scraper.safelyReadResultsFile p (S n) l w = Fin (Normal v) l (emit (ReadFile p data) w).
Proof.
  intros Hf Hp Hd Hv. unfold Scraper.safelyReadResultsFile. cbn [Scraper.readLoop].
  unfold Scraper.readAttempt, parse. prog_unfold.
  destruct (JsString.trim data) eqn:Ht; [done|].
  by repeat first [rewrite Hp | rewrite Hf | rewrite Ht | rewrite Hv | progress cbn].
Qed.
End ScraperStore.

Lemma installs_only_renames `{JsonCodec} p data evs :
  installs p data evs →
  Forall (λ e, mutates p e → e = Rename (p +:+ ".tmp") p) evs.
Proof.
  intros (pre & m1 & m2 & -> & Hpre). apply Forall_app. split.
  - eapply Forall_impl; [exact Hpre|]. by intros e Hn Hm.
  - repeat constructor; cbn; try done. intros Hm. by apply tmp_ne in Hm.
Qed.

Lemma untouched_only_renames p evs :
  untouched p evs → Forall (λ e, mutates p e → e = Rename (p +:+ ".tmp") p) evs.
Proof. intros Hun. eapply Forall_impl; [exact Hun|]. by intros e Hn Hm. Qed.

Section StoreTheorems.
Context `{JsonCodec} {L : Type}.



(** C10 (as amended).  When the file holds a document that parses to a
    value other than [null], [safelyReadResultsFile] answers that value
    as it is, whatever its shape, and leaves the file alone; when it
    parses to [null], reading [results.length] throws inside the [try]
    block and the file is treated as corrupt: it is copied aside, reset
    to the empty document and the answer is empty.  The copy in
    [src/scrape/scraper.ts] answers every parsed value as it is. *)
Theorem load_passes_parsed_value_through
    (filePath data : string) (v : json) (l : L) (w : World) :
  faults w = [] → files w !! filePath = Some data →
  JsString.trim data ≠ EmptyString → JSON_parse data = Some v →
  (v ≠ JNull →
   ∃ w', safelyReadResultsFile filePath 3 l w = Fin (Normal v) l w'
         ∧ files w' = files w)
  ∧ (v = JNull →
     ∃ w', safelyReadResultsFile filePath 3 l w = Fin (Normal (JArr [])) l w'
           ∧ files w' !! (filePath +:+ ".backup." +:+ pretty (clock w)) = Some data
           ∧ files w' !! filePath = Some (JSON_stringify (JArr [])))
  ∧ ∃ w', Scraper.safelyReadResultsFile filePath 3 l w = Fin (Normal v) l w'
          ∧ files w' = files w.
Proof.
  intros Hf Hp Hd Hv. split; [|split].
  - intros Hnull. destruct (read_valid filePath 2 data v l w Hf Hp Hd Hv Hnull) as (msg & ->).
    by eexists.
  - intros ->.
    destruct (read_corrupt filePath 2 data l w Hf Hp Hd (or_intror Hv)) as (w' & -> & Hw').
    exists w'. split; [done|]. rewrite Hw'. split.
    + rewrite lookup_insert_ne by (intros Heq; symmetry in Heq; by apply quarantine_ne in Heq).
      by rewrite lookup_insert_eq.
    + by rewrite lookup_insert_eq.
  - rewrite (scraper_read_valid filePath 2 data v l w Hf Hp Hd Hv). by eexists.
Qed.
End StoreTheorems.

Section StoreRuns.
Context `{JsonCodec} {L : Type}.

Lemma safelyRead_runs p (l : L) :
  runs (safelyReadResultsFile p 3) l
    (λ o l' evs, l' = l ∧ (∃ v, o = Normal v) ∧ Forall (loadEvent p) evs).
Proof.
  intros w. eapply safe_mono; [|apply (readLoop_spec p 3 3 l w)].
  intros o l' w' (-> & v & evs & -> & Ht & Hev & _). exists evs. eauto.
Qed.

Lemma safelyWrite_runs p data (l : L) :
  runs (safelyWriteResultsFile p data 3) l
    (λ o l' evs, l' = l ∧ (∃ b, o = Normal b) ∧ Forall (saveEvent p data) evs).
Proof.
  intros w. eapply safe_mono; [|apply (writeLoop_spec p data 3 3 l w); lia].
  intros o l' w' (-> & evs & failed & Ht & Hev & _ & Hcase). exists evs.
  split; [done|]. split; [done|]. split; [|done].
  destruct Hcase as [(-> & _)|(-> & _)]; by eexists.
Qed.
End StoreRuns.

Module PartitionFacts.
Import Partition.

Lemma distribute_length K i ds bs : length (distribute K i ds bs) = length bs.
Proof.
  revert i bs. induction ds as [|d ds IH]; intros i bs; simpl; [done|].
  by rewrite IH, length_alter.
Qed.

Lemma distribute_app K i ds1 ds2 bs :
  distribute K i (ds1 ++ ds2) bs = distribute K (i + length ds1) ds2 (distribute K i ds1 bs).
Proof.
  revert i bs. induction ds1 as [|d ds1 IH]; intros i bs; simpl.
  - by rewrite Nat.add_0_r.
  - rewrite IH. f_equal. lia.
Qed.

Lemma distribute_snoc K ds d bs :
  distribute K 0 (ds ++ [d]) bs
  = alter (λ b, b ++ [d]) (length ds mod K) (distribute K 0 ds bs).
Proof. by rewrite distribute_app. Qed.

(** Batch [j] holds the domains at the indices [j], [j + K], [j + 2K], ... *)
Lemma distribute_lookup K ds j b :
  0 < K → j < K →
  distribute K 0 ds (replicate K []) !! j = Some b →
  ∀ r, b !! r = ds !! (r * K + j).
Proof.
  intros HK Hj. revert b. induction ds as [|d ds IH] using rev_ind; intros b Hb r.
  - simpl in Hb. apply lookup_replicate in Hb as [-> _]. by rewrite !lookup_nil.
  - rewrite distribute_snoc in Hb.
    destruct (decide (length ds mod K = j)) as [Hmod|Hmod].
    + subst j. rewrite list_lookup_alter_eq in Hb.
      destruct (distribute K 0 ds (replicate K []) !! (length ds mod K)) as [b0|] eqn:Hb0;
        [|done].
      simpl in Hb. injection Hb as <-.
      specialize (IH b0 eq_refl).
      assert (Hlen : length b0 = length ds / K).
      { pose proof (Nat.div_mod_eq (length ds) K) as Hdm.
        apply Nat.le_antisymm.
        - destruct (decide (length b0 ≤ length ds / K)) as [|Hn]; [done|].
          assert (is_Some (b0 !! (length ds / K))) as [x Hx] by (apply lookup_lt_is_Some; lia).
          rewrite IH in Hx. apply lookup_lt_Some in Hx. lia.
        - destruct (decide (length ds / K ≤ length b0)) as [|Hn]; [done|].
          assert (b0 !! length b0 = None) as Hx by (apply lookup_ge_None; lia).
          rewrite IH in Hx. apply lookup_ge_None in Hx.
          assert (length b0 + 1 ≤ length ds / K) as Hle by lia.
          assert ((length b0 + 1) * K ≤ length ds / K * K) by (apply Nat.mul_le_mono_r; lia).
          pose proof (Nat.mod_upper_bound (length ds) K). nia. }
      pose proof (Nat.div_mod_eq (length ds) K) as Hdm.
      pose proof (Nat.mod_upper_bound (length ds) K) as Hub.
      destruct (lt_eq_lt_dec r (length ds / K)) as [[Hlt|Heq]|Hgt].
      * rewrite lookup_app_l by lia. rewrite IH.
        assert (r * K + length ds mod K < length ds) by nia.
        by rewrite lookup_app_l by done.
      * subst r. rewrite lookup_app_r by lia. rewrite Hlen, Nat.sub_diag. simpl.
        replace (length ds / K * K + length ds mod K) with (length ds) by lia.
        by rewrite lookup_app_r, Nat.sub_diag by lia.
      * rewrite lookup_ge_None_2 by (rewrite length_app; simpl; lia).
        symmetry. apply lookup_ge_None_2. rewrite length_app. simpl. nia.
    + rewrite list_lookup_alter_ne in Hb by done.
      rewrite (IH b Hb).
      assert (r * K + j ≠ length ds).
      { intros Heq. apply Hmod. rewrite <- Heq.
        rewrite Nat.add_comm, Nat.Div0.mod_add. by apply Nat.mod_small. }
      destruct (decide (r * K + j < length ds)).
      * by rewrite lookup_app_l.
      * rewrite !lookup_ge_None_2; [done|rewrite length_app; simpl; lia|lia].
Qed.

Lemma round_lookup (r : nat) (f : nat → option string) bs off :
  (∀ j b, bs !! j = Some b → b !! r = f (off + j)) →
  round bs r = omap f (seq off (length bs)).
Proof.
  unfold round. revert off. induction bs as [|b bs IH]; intros off Hf; [done|].
  change (omap (λ b0 : list string, b0 !! r) (b :: bs))
    with (match b !! r with
          | Some y => y :: omap (λ b0 : list string, b0 !! r) bs
          | None => omap (λ b0 : list string, b0 !! r) bs
          end).
  change (omap f (seq off (length (b :: bs))))
    with (match f off with
          | Some y => y :: omap f (seq (S off) (length bs))
          | None => omap f (seq (S off) (length bs))
          end).
  rewrite (Hf 0 b eq_refl), Nat.add_0_r.
  rewrite (IH (S off)); [done|].
  intros j b' Hb'. rewrite (Hf (S j) b' Hb'). f_equal. lia.
Qed.

Lemma take_S_lookup {A} (l : list A) n :
  take (S n) l = take n l ++ option_list (l !! n).
Proof.
  revert n. induction l as [|x l IH]; intros [|n]; simpl; try done.
  by rewrite IH.
Qed.

Lemma omap_lookup_seq {A} (l : list A) a K :
  omap (λ j, l !! (a + j)) (seq 0 K) = take K (drop a l).
Proof.
  induction K as [|K IH]; [done|].
  rewrite seq_S, omap_app, IH, take_S_lookup, lookup_drop. simpl.
  by destruct (l !! (a + K)).
Qed.

Lemma take_add {A} (l : list A) a b : take (a + b) l = take a l ++ take b (drop a l).
Proof.
  revert l. induction a as [|a IH]; intros [|x l]; simpl; try done.
  - by rewrite take_nil.
  - by rewrite IH.
Qed.

Lemma concat_chunks {A} (l : list A) K M :
  concat ((λ r, take K (drop (r * K) l)) <$> seq 0 M) = take (M * K) l.
Proof.
  induction M as [|M IH]; [done|].
  rewrite seq_S, fmap_app, concat_app, IH. simpl. rewrite app_nil_r.
  replace (K + M * K) with (M * K + K) by lia. by rewrite take_add.
Qed.

Lemma max_list_lookup (ns : list nat) i n : ns !! i = Some n → n ≤ max_list ns.
Proof.
  revert i. induction ns as [|m ns IH]; intros [|i] Hi; simplify_eq/=; [lia|].
  specialize (IH _ Hi). lia.
Qed.

Section Batches.
Variable ds : list string.
Hypothesis nonempty : ds ≠ [].

Let K := numberOfSessions ds.
Let bs := domainBatches ds.

Lemma sessions_pos : 0 < K.
Proof. subst K. unfold numberOfSessions. destruct ds; [done|simpl; lia]. Qed.

Lemma batches_length : length bs = K.
Proof. subst bs. unfold domainBatches. by rewrite distribute_length, length_replicate. Qed.

Lemma batches_lookup j b r : bs !! j = Some b → b !! r = ds !! (r * K + j).
Proof.
  intros Hb. pose proof (lookup_lt_Some _ _ _ Hb) as Hj. rewrite batches_length in Hj.
  by apply (distribute_lookup K ds j b sessions_pos Hj).
Qed.

Lemma batches_index i d :
  ds !! i = Some d → ∃ b, bs !! (i mod K) = Some b ∧ b !! (i / K) = Some d.
Proof.
  intros Hd. pose proof sessions_pos as HK.
  destruct (lookup_lt_is_Some_2 bs (i mod K)) as [b Hb].
  { rewrite batches_length. by apply Nat.mod_upper_bound, Nat.neq_0_lt_0. }
  exists b. split; [done|]. rewrite (batches_lookup _ _ _ Hb).
  rewrite <- Hd. f_equal. pose proof (Nat.div_mod_eq i K). lia.
Qed.

Lemma batches_balanced j j' b b' :
  bs !! j = Some b → bs !! j' = Some b' → length b ≤ length b' + 1.
Proof.
  intros Hb Hb'.
  pose proof (lookup_lt_Some _ _ _ Hb) as Hj. rewrite batches_length in Hj.
  pose proof (lookup_lt_Some _ _ _ Hb') as Hj'. rewrite batches_length in Hj'.
  destruct (decide (length b ≤ length b' + 1)) as [|Hn]; [done|exfalso].
  assert (is_Some (b !! (length b' + 1))) as [x Hx] by (apply lookup_lt_is_Some; lia).
  rewrite (batches_lookup _ _ _ Hb) in Hx. apply lookup_lt_Some in Hx.
  assert (b' !! length b' = None) as Hy by (by apply lookup_ge_None).
  rewrite (batches_lookup _ _ _ Hb') in Hy. apply lookup_ge_None in Hy. nia.
Qed.

Lemma batches_disjoint j j' b b' d :
  NoDup ds → bs !! j = Some b → bs !! j' = Some b' → j ≠ j' → d ∈ b → d ∉ b'.
Proof.
  intros Hnd Hb Hb' Hne [r Hr]%list_elem_of_lookup [r' Hr']%list_elem_of_lookup.
  pose proof (lookup_lt_Some _ _ _ Hb) as Hj. rewrite batches_length in Hj.
  pose proof (lookup_lt_Some _ _ _ Hb') as Hj'. rewrite batches_length in Hj'.
  rewrite (batches_lookup _ _ _ Hb) in Hr. rewrite (batches_lookup _ _ _ Hb') in Hr'.
  pose proof (NoDup_lookup _ _ _ _ Hnd Hr Hr') as Heq.
  apply Hne.
  assert ((r * K + j) mod K = (r' * K + j') mod K) as Hm by (by rewrite Heq).
  rewrite !(Nat.add_comm (_ * K)), !Nat.Div0.mod_add in Hm.
  by rewrite !Nat.mod_small in Hm.
Qed.

Lemma batches_roundRobin : roundRobin bs = ds.
Proof.
  pose proof sessions_pos as HK. unfold roundRobin.
  rewrite (list_fmap_ext (round bs) (λ r, take K (drop (r * K) ds))).
  2:{ intros i r _. rewrite (round_lookup r (λ j, ds !! (r * K + j)) bs 0).
      - by rewrite batches_length, omap_lookup_seq.
      - intros j b Hb. by apply batches_lookup. }
  rewrite concat_chunks. apply take_ge.
  destruct (lookup_lt_is_Some_2 bs 0) as [b0 Hb0]; [by rewrite batches_length|].
  assert (length b0 ≤ max_list (length <$> bs)) as Hmax.
  { apply (max_list_lookup _ 0). by rewrite list_lookup_fmap, Hb0. }
  assert (b0 !! length b0 = None) as Hy by (by apply lookup_ge_None).
  rewrite (batches_lookup _ _ _ Hb0) in Hy. apply lookup_ge_None in Hy. nia.
Qed.
End Batches.
End PartitionFacts.

(** C6.  For a sequence of domains that is not empty, the batches are
    [K = min 3 (length ds)] lists; the domain at index [i] of the input is
    in batch [i mod K], at the place [i / K], and the batches hold nothing
    else; the lengths of two batches differ by at most one; when the input
    has no duplicate no domain is in two batches; and taking the batches in
    round-robin order gives the input back. *)
Theorem partition_round_robin (ds : list string) :
  ds ≠ [] →
  let K := Nat.min 3 (length ds) in
  let bs := Partition.domainBatches ds in
  length bs = K
  ∧ (∀ i d, ds !! i = Some d → ∃ b, bs !! (i mod K) = Some b ∧ b !! (i / K) = Some d)
  ∧ (∀ j b r, bs !! j = Some b → b !! r = ds !! (r * K + j))
  ∧ (∀ j j' b b', bs !! j = Some b → bs !! j' = Some b' → length b ≤ length b' + 1)
  ∧ (NoDup ds → ∀ j j' b b' d,
       bs !! j = Some b → bs !! j' = Some b' → j ≠ j' → d ∈ b → d ∉ b')
  ∧ Partition.roundRobin bs = ds.
Proof.
  intros Hne K bs. repeat split.
  - by apply PartitionFacts.batches_length.
  - by apply PartitionFacts.batches_index.
  - intros j b r. by apply PartitionFacts.batches_lookup.
  - by apply PartitionFacts.batches_balanced.
  - intros Hnd j j' b b' d. by apply PartitionFacts.batches_disjoint.
  - by apply PartitionFacts.batches_roundRobin.
Qed.

Lemma partition_round_robin_witness :
  let ds := ["a.com"; "b.com"; "c.com"; "d.com"; "e.com"; "f.com"; "g.com"]%string in
  ds ≠ [] ∧ Partition.domainBatches ds
            = [["a.com"; "d.com"; "g.com"]; ["b.com"; "e.com"]; ["c.com"; "f.com"]]%string
  ∧ Partition.roundRobin (Partition.domainBatches ds) = ds.
Proof.
  split; [done|]. split; [reflexivity|].
  apply (partition_round_robin ["a.com"; "b.com"; "c.com"; "d.com"; "e.com"; "f.com"; "g.com"]%string).
  done.
Defined.


(** ** The domain input *)

Module InputFacts.

Lemma uniq_add_nil x : Js.uniq_add [] x = [x].
Proof. unfold Js.uniq_add. by rewrite decide_False by (by intros ?%elem_of_nil). Qed.

Lemma uniq_add_acc acc xs :
  foldl Js.uniq_add acc xs = acc ++ foldl Js.uniq_add [] (filter (λ y, y ∉ acc) xs).
Proof.
  remember (length xs) as n eqn:Hn. revert acc xs Hn.
  induction n as [n IH] using lt_wf_ind. intros acc [|x xs] Hn; [by rewrite app_nil_r|].
  cbn [foldl]. destruct (decide (x ∈ acc)) as [Hin|Hin].
  - rewrite filter_cons_False by (intros Hn'; by apply Hn').
    unfold Js.uniq_add at 2. rewrite decide_True by done.
    apply (IH (length xs)); [subst n; cbn; lia|done].
  - rewrite filter_cons_True by done. cbn [foldl]. rewrite uniq_add_nil.
    unfold Js.uniq_add at 2. rewrite decide_False by done.
    pose proof (length_filter (λ y, y ∉ acc) xs) as Hlen.
    rewrite (IH (length xs) ltac:(subst n; cbn; lia) (acc ++ [x]) xs eq_refl).
    rewrite (IH (length (filter (λ y, y ∉ acc) xs)) ltac:(subst n; cbn; lia) [x] _ eq_refl).
    rewrite <- app_assoc. do 2 f_equal. cbn [app]. do 2 f_equal.
    rewrite list_filter_filter. apply list_filter_iff.
    intros y. rewrite elem_of_app, list_elem_of_singleton. tauto.
Qed.

(** The first occurrence stays where it is and the later ones go. *)
Lemma uniq_cons x xs : Js.uniq (x :: xs) = x :: Js.uniq (filter (λ y, y ≠ x) xs).
Proof.
  unfold Js.uniq. cbn [foldl]. rewrite uniq_add_nil.
  rewrite uniq_add_acc. cbn [app]. do 2 f_equal. apply list_filter_iff.
  intros y. by rewrite list_elem_of_singleton.
Qed.

Lemma uniq_elem_of xs x : x ∈ Js.uniq xs ↔ x ∈ xs.
Proof.
  remember (length xs) as n eqn:Hn. revert xs Hn.
  induction n as [n IH] using lt_wf_ind. intros [|y xs] Hn; [done|].
  rewrite uniq_cons, !elem_of_cons.
  rewrite (IH (length (filter (λ z, z ≠ y) xs))); [| |done].
  - rewrite list_elem_of_filter. destruct (decide (x = y)); naive_solver.
  - subst n. cbn. pose proof (length_filter (λ z, z ≠ y) xs). lia.
Qed.

Lemma uniq_NoDup xs : NoDup (Js.uniq xs).
Proof.
  remember (length xs) as n eqn:Hn. revert xs Hn.
  induction n as [n IH] using lt_wf_ind. intros [|y xs] Hn; [constructor|].
  rewrite uniq_cons. constructor.
  - rewrite uniq_elem_of, list_elem_of_filter. naive_solver.
  - apply (IH (length (filter (λ z, z ≠ y) xs))); [|done].
    subst n. cbn. pose proof (length_filter (λ z, z ≠ y) xs). lia.
Qed.

Lemma truthy_nonempty s : JsString.truthy s = true ↔ s ≠ EmptyString.
Proof. by destruct s. Qed.

Lemma inputDomains_elem_of `{JsonCodec} content d :
  d ∈ inputDomains content
  ↔ d ≠ EmptyString ∧ ∃ line, line ∈ JsString.split "010" content ∧ d = JsString.trim line.
Proof.
  unfold inputDomains. rewrite list_elem_of_In, filter_In, <- list_elem_of_In.
  rewrite list_elem_of_fmap, truthy_nonempty. naive_solver.
Qed.
End InputFacts.

(** ** The availability checker and the worker, event by event *)

Ltac runs_step :=
  lazymatch goal with
  | |- runs (_ ≫= _) _ _ => apply runs_bind
  | |- runs (try_catch _ _) _ _ => apply runs_catch
  | |- runs (try_finally _ _) _ _ => apply runs_finally
  | |- runs (await _) _ _ => apply runs_await
  | |- runs (console_log _) _ _ => apply runs_log
  | |- runs (console_error _) _ _ => apply runs_error
  | |- runs (sleep _) _ _ => apply runs_sleep
  | |- runs (remoteCall _) _ _ => apply runs_remote; [intros [? ?]|]
  | |- runs (mret _) _ _ => apply runs_ret
  | |- runs (ret _) _ _ => apply runs_ret
  | |- runs (lift _) _ _ => apply runs_lift
  | |- runs (throw _) _ _ => apply runs_throw
  | |- runs getLocals _ _ => apply runs_getLocals
  | |- runs (setLocals _) _ _ => apply runs_setLocals
  | |- runs (when _ _) _ _ => apply runs_when; [intros ?|intros ?]
  | |- runs (if ?b then _ else _) _ _ => destruct b eqn:?
  | |- runs (assignStagehand _) _ _ => unfold assignStagehand
  | |- runs (assignCurrentResults _) _ _ => unfold assignCurrentResults
  | |- runs (assignCheckedDomainsSet _) _ _ => unfold assignCheckedDomainsSet
  | |- runs (addChecked _) _ _ => unfold addChecked
  end.

Ltac runs_go := repeat (runs_step; cbv beta iota).

Ltac runs_call lem :=
  eapply runs_mono; [apply lem|]; cbv beta.

Ltac solve_Forall :=
  repeat first [ apply Forall_nil_2 | apply Forall_cons; split; [cbn; try done|]
               | apply Forall_app; split | assumption ].

Section CheckerFacts.
Context {L : Type}.

Lemma searchBox_runs domain (l : L) :
  runs (searchBox domain) l
    (λ o l' evs, l' = l ∧ evs = [Remote (SearchBox domain)]).
Proof. unfold searchBox. runs_go; done. Qed.

Lemma checkName_runs domain left (l : L) :
  runs (checkDomainAvailabilityName domain left) l
    (λ o l' evs, l' = l ∧ (∃ s, o = Normal s) ∧ Forall quiet evs).
Proof.
  induction left as [|left IH]; cbn [checkDomainAvailabilityName]; runs_go.
  all: try (split; [done|]; split; [by eexists|]; solve_Forall).
  - eapply runs_mono; [apply searchBox_runs|]. cbv beta.
    intros [s|e] l' evs [-> ->]; runs_go.
    all: split; [done|]; split; [by eexists|]; solve_Forall.
  - eapply runs_mono; [apply searchBox_runs|]. cbv beta.
    intros [s|e] l' evs [-> ->]; runs_go.
    all: split; [done|]; split; [by eexists|]; solve_Forall.
  - eapply runs_mono; [apply IH|]. cbv beta.
    intros o l' evs (-> & [s ->] & Hq). split; [done|]. split; [by eexists|]. solve_Forall.
  - eapply runs_mono; [apply IH|]. cbv beta.
    intros o l' evs (-> & [s ->] & Hq). split; [done|]. split; [by eexists|]. solve_Forall.
Qed.
End CheckerFacts.

Section CheckerHead.
Context {L : Type}.

Lemma checkName_head domain left (l : L) :
  2 ≤ S left →
  runs (checkDomainAvailabilityName domain (S left)) l
    (λ o l' evs, l' = l ∧ (∃ s, o = Normal s)
       ∧ ∃ m rest, evs = ConsoleLog m :: Remote (SearchPage (searchUrl domain)) :: rest
                   ∧ Forall quiet rest).
Proof.
  intros Hleft. cbn [checkDomainAvailabilityName].
  replace (2 - S left) with 0 by lia. runs_go.
  all: try discriminate.
  all: try (split; [done|]; split; [by eexists|]; cbn;
            do 2 eexists; split; [reflexivity|]; solve_Forall).
  all: runs_call (checkName_runs (L:=L) domain left); intros o l' evs (-> & [s ->] & Hq);
       split; [done|]; split; [by eexists|]; cbn;
       do 2 eexists; split; [reflexivity|]; solve_Forall.
Qed.

(** The checker never raises, touches no file, and begins by probing the
    search page of the domain. *)
Lemma checkDomainAvailability_runs domain (l : L) :
  runs (checkDomainAvailability domain) l
    (λ o l' evs, l' = l ∧ (∃ s, o = Normal s)
       ∧ ∃ m rest, evs = ConsoleLog m :: Remote (SearchPage (searchUrl domain)) :: rest
                   ∧ Forall quiet rest).
Proof.
  unfold checkDomainAvailability. runs_step. runs_step.
  runs_call (checkName_head domain 1 l ltac:(lia)).
  intros o l' evs (-> & [s ->] & m & rest & -> & Hq). cbv beta iota.
  split; [done|]. split; [by eexists|]. by exists m, rest.
Qed.
End CheckerHead.



Section WorkerFacts.
Context `{JsonCodec}.

Lemma loadEvent_entry out d st e : loadEvent out e → entryEvent out d st e.
Proof. destruct e; cbn; try done; [by left|]. intros [-> Hd]. by split; [|right]. Qed.

Lemma quiet_entry out d st e : quiet e → entryEvent out d st e.
Proof. by destruct e. Qed.

Lemma saveEvent_entry out d items keys st e :
  Js.mapM Js.entry_domain items = Normal keys → Js.has keys d = false →
  saveEvent out (JArr (items ++ [DomainEntry d st])) e → entryEvent out d st e.
Proof.
  intros Hk Hh. destruct e; cbn; try done.
  - intros [-> ->]. right. split; [done|]. by exists items, keys.
  - intros [-> ->]. split; [done|]. by left.
Qed.

Lemma entryEvent_worker out ds d st e :
  d ∈ ds → entryEvent out d st e → workerEvent out ds e.
Proof.
  intros Hd. destruct e; cbn; try done.
  intros [?|(-> & Ha)]; [by left|]. right. split; [done|]. by exists d, st.
Qed.

Lemma quiet_worker out ds e : quiet e → workerEvent out ds e.
Proof. by destruct e. Qed.

Lemma loadEvent_worker out ds e : loadEvent out e → workerEvent out ds e.
Proof. destruct e; cbn; try done; [by left|]. intros [-> Hd]. by split; [|right]. Qed.

Lemma workerEvent_mono out ds ds' e :
  ds ⊆ ds' → workerEvent out ds e → workerEvent out ds' e.
Proof.
  intros Hsub. destruct e; cbn; try done.
  intros [?|(-> & d & st & Hd & Ha)]; [by left|]. right. split; [done|].
  exists d, st. split; [|done]. by apply Hsub.
Qed.

Lemma map_Normal {B} (f : json → Outcome B) v ys :
  Js.map f v = Normal ys → ∃ items, v = JArr items ∧ Js.mapM f items = Normal ys.
Proof. destruct v; cbn; try done. eauto. Qed.

Lemma reloadResults_runs out l :
  runs (reloadResults out) l
    (λ o l' evs, Forall (loadEvent out) evs ∧ stagehand l' = stagehand l
       ∧ match o with
         | Normal _ =>
             ∃ items, currentResults l' = JArr items
                      ∧ Js.mapM Js.entry_domain items = Normal (checkedDomainsSet l')
         | Thrown _ => checkedDomainsSet l' = checkedDomainsSet l
         end).
Proof.
  unfold reloadResults. runs_step. runs_step. runs_call (safelyRead_runs (L:=Locals)).
  intros o l' evs (-> & [v ->] & Hev). runs_go.
  destruct (Js.map Js.entry_domain v) as [keys|e] eqn:Hmap; runs_go.
  - split; [solve_Forall|]. split; [done|]. cbn.
    apply map_Normal in Hmap as (items & -> & Hm). eauto.
  - split; [solve_Forall|]. by split.
Qed.

Lemma pushAndSave_runs out entry items l :
  currentResults l = JArr items →
  runs (pushAndSave out entry) l
    (λ o l' evs, o = Normal tt ∧ Forall (saveEvent out (JArr (items ++ [entry]))) evs
       ∧ stagehand l' = stagehand l ∧ checkedDomainsSet l' = checkedDomainsSet l).
Proof.
  intros Hcur. unfold pushAndSave. runs_go. rewrite Hcur. cbn [Js.push]. runs_go.
  runs_go. runs_call (safelyWrite_runs (L:=Locals)).
  intros o l' evs (-> & [b ->] & Hev). runs_go.
  split; [done|]. split; [solve_Forall|]. by split.
Qed.

Lemma recordResult_runs n out d s l :
  runs (recordResult n out d s) l
    (λ o l' evs, Forall (entryEvent out d s) evs ∧ stagehand l' = stagehand l).
Proof.
  unfold recordResult. runs_step. runs_call reloadResults_runs.
  intros [[]|e] l1 evs1 (Hev1 & Hst1 & Hl1); cbv beta iota.
  2:{ split; [|done]. eapply Forall_impl; [exact Hev1|]. apply loadEvent_entry. }
  destruct Hl1 as (items & Hcur & Hkeys).
  assert (Forall (entryEvent out d s) evs1) as Hw1.
  { eapply Forall_impl; [exact Hev1|]. apply loadEvent_entry. }
  runs_go.
  - runs_call (pushAndSave_runs out (DomainEntry d s) items l1 Hcur).
    intros o l2 evs2 (-> & Hev2 & Hst2 & Hch2). runs_go.
    split; [|cbn; congruence]. solve_Forall.
    eapply Forall_impl; [exact Hev2|]. intros e.
    apply (saveEvent_entry out d items (checkedDomainsSet l1) s e);
      [done|by apply negb_true_iff].
  - split; [|done]. solve_Forall.
Qed.

Lemma recordError_runs n out d l :
  runs (recordError n out d) l
    (λ o l' evs, o = Normal tt ∧ Forall (entryEvent out d error) evs
       ∧ stagehand l' = stagehand l).
Proof.
  unfold recordError. runs_step. runs_step. runs_call reloadResults_runs.
  intros [[]|e] l1 evs1 (Hev1 & Hst1 & Hl1); cbv beta iota.
  2:{ runs_go. split; [done|]. split; [|done]. solve_Forall.
      eapply Forall_impl; [exact Hev1|]. apply loadEvent_entry. }
  destruct Hl1 as (items & Hcur & Hkeys).
  assert (Forall (entryEvent out d error) evs1) as Hw1.
  { eapply Forall_impl; [exact Hev1|]. apply loadEvent_entry. }
  runs_go.
  - runs_call (pushAndSave_runs out (DomainEntry d error) items l1 Hcur).
    intros o l2 evs2 (-> & Hev2 & Hst2 & Hch2). runs_go.
    split; [done|]. split; [|cbn; congruence]. solve_Forall.
    eapply Forall_impl; [exact Hev2|]. intros e.
    apply (saveEvent_entry out d items (checkedDomainsSet l1) error e);
      [done|by apply negb_true_iff].
  - split; [done|]. split; [|done]. solve_Forall.
Qed.

Lemma entry_worker_Forall out d st evs :
  Forall (entryEvent out d st) evs → Forall (workerEvent out [d]) evs.
Proof.
  intros Hev. eapply Forall_impl; [exact Hev|]. intros e.
  apply entryEvent_worker. by apply list_elem_of_singleton.
Qed.

Lemma quiet_worker_Forall out ds evs : Forall quiet evs → Forall (workerEvent out ds) evs.
Proof. intros Hev. eapply Forall_impl; [exact Hev|]. apply quiet_worker. Qed.

(** One domain of the partition. *)
Lemma processDomain_runs n out d l :
  runs (processDomain n out d) l
    (λ o l' evs, o = Normal tt ∧ Forall (workerEvent out [d]) evs
       ∧ stagehand l' = stagehand l
       ∧ (if Js.has (checkedDomainsSet l) d
          then l' = l
               ∧ evs = [ConsoleLog ("Session " +:+ pretty n +:+ ": Domain " +:+ d
                                    +:+ " already checked, skipping...")]
          else ∃ m1 m2 rest,
                 evs = ConsoleLog m1 :: ConsoleLog m2
                         :: Remote (SearchPage (searchUrl d)) :: rest)
       ∧ ((∃ s, Forall (entryEvent out d s) evs)
          ∨ (∃ pre post,
               evs = pre ++ ConsoleError ("Session " +:+ pretty n
                                          +:+ ": Error processing domain " +:+ d +:+ ":")
                            :: post
               ∧ Forall (entryEvent out d error) post))).
Proof.
  unfold processDomain. runs_go.
  - split; [done|]. split; [solve_Forall|]. split; [done|]. split; [done|].
    left. exists error. solve_Forall.
  - runs_call (checkDomainAvailability_runs (L:=Locals) d).
    intros o l1 evs1 (-> & [s ->] & m & rest & -> & Hq).
    runs_call recordResult_runs.
    intros [[]|e] l2 evs2 (Hev2 & Hst2).
    + split; [done|]. split; [|split; [done|split; [cbn; by eauto|]]].
      * solve_Forall; [by apply quiet_worker_Forall|by eapply entry_worker_Forall].
      * left. exists s. solve_Forall.
        eapply Forall_impl; [exact Hq|]. apply quiet_entry.
    + runs_go. runs_call recordError_runs.
      intros o l3 evs3 (-> & Hev3 & Hst3).
      split; [done|]. split; [|split; [congruence|split; [cbn; by eauto|]]].
      * solve_Forall; [by apply quiet_worker_Forall|by eapply entry_worker_Forall
                      |by eapply entry_worker_Forall].
      * right. eexists _, evs3. split; [|done].
        reflexivity.
Qed.

Lemma processDomain_attended n out d l :
  runs (processDomain n out d) l
    (λ o l' evs, o = Normal tt ∧ Forall (workerEvent out [d]) evs
       ∧ stagehand l' = stagehand l ∧ attended n d evs).
Proof.
  runs_call processDomain_runs. intros o l' evs (-> & Hev & Hst & Hhead & _).
  split; [done|]. split; [done|]. split; [done|].
  destruct (Js.has (checkedDomainsSet l) d).
  - destruct Hhead as [_ ->]. left. apply list_elem_of_singleton. done.
  - destruct Hhead as (m1 & m2 & rest & ->). right. set_solver.
Qed.

Lemma attended_app_l n d evs1 evs2 : attended n d evs1 → attended n d (evs1 ++ evs2).
Proof. intros [?|?]; [left|right]; apply elem_of_app; by left. Qed.

Lemma attended_app_r n d evs1 evs2 : attended n d evs2 → attended n d (evs1 ++ evs2).
Proof. intros [?|?]; [left|right]; apply elem_of_app; by right. Qed.

(** The loop over the partition. *)
Lemma forOf_runs n out ds l :
  runs (forOf ds (processDomain n out)) l
    (λ o l' evs, o = Normal tt ∧ Forall (workerEvent out ds) evs
       ∧ stagehand l' = stagehand l ∧ Forall (λ d, attended n d evs) ds).
Proof.
  revert l. induction ds as [|d ds IH]; intros l; cbn [forOf].
  - runs_go. by repeat split.
  - runs_step. runs_call processDomain_attended.
    intros o l1 evs1 (-> & Hev1 & Hst1 & Hat1). runs_call IH.
    intros o l2 evs2 (-> & Hev2 & Hst2 & Hat2).
    split; [done|]. split; [|split; [congruence|]].
    + apply Forall_app. split.
      * eapply Forall_impl; [exact Hev1|]. intros e. apply workerEvent_mono. set_solver.
      * eapply Forall_impl; [exact Hev2|]. intros e. apply workerEvent_mono. set_solver.
    + constructor; [by apply attended_app_l|].
      eapply Forall_impl; [exact Hat2|]. intros d'. apply attended_app_r.
Qed.

Lemma initializeBrowserbaseSession_runs n (l : Locals) :
  runs (initializeBrowserbaseSession n) l (λ o l' evs, l' = l ∧ Forall quiet evs).
Proof. unfold initializeBrowserbaseSession. runs_go; (split; [done|solve_Forall]). Qed.

(** A whole worker. *)
Lemma processDomainBatch_runs ds n out l :
  runs (processDomainBatch ds n out) l
    (λ o l' evs, o = Normal tt ∧ Forall (workerEvent out ds) evs).
Proof.
  unfold processDomainBatch. runs_step. runs_step. runs_step. runs_step.
  runs_call initializeBrowserbaseSession_runs.
  intros [[]|e] l1 evs1 (-> & Hq1); cbv beta iota.
  2:{ runs_go; (split; [done|]; solve_Forall; by apply quiet_worker_Forall). }
  runs_go. runs_call reloadResults_runs.
  intros [[]|e] l2 evs2 (Hev2 & Hst2 & Hl2); cbv beta iota.
  2:{ runs_go; (split; [done|]; solve_Forall;
                [by apply quiet_worker_Forall
                |eapply Forall_impl; [exact Hev2|]; apply loadEvent_worker]). }
  runs_go. runs_call forOf_runs.
  intros o l3 evs3 (-> & Hev3 & Hst3 & Hat3).
  runs_go; (split; [done|]; solve_Forall;
            [by apply quiet_worker_Forall
            |eapply Forall_impl; [exact Hev2|]; apply loadEvent_worker]).
Qed.
End WorkerFacts.

(** ** Runs without file system failures *)

Section FaultFree.
Context `{JsonCodec} {L : Type}.

Lemma write_ok p items (l : L) w :
  faults w = [] → p ∉ dirs w → path.dirname p ≠ p →
  ∃ w', safelyWriteResultsFile p (JArr items) 3 l w = Fin (Normal true) l w'
        ∧ files w' !! p = Some (JSON_stringify (JArr items))
        ∧ faults w' = [] ∧ installs p (JArr items) (drop (length (trace w)) (trace w')).
Proof.
  intros Hf Hd Hdir. destruct w as [fs ds ck fl rm sc tr]. cbn in Hf, Hd. subst fl.
  unfold safelyWriteResultsFile. cbn [writeLoop]. unfold writeAttempt.
  prog_run.
  all: try (exfalso; apply bool_decide_eq_true in Hb0; set_solver).
  all: eexists; split; [reflexivity|]; cbn; split; [by rewrite lookup_insert_eq|];
       split; [done|]; rewrite <- ?app_assoc, drop_app_length;
       do 3 eexists; split; [solve_suffix|solve_untouched].
Qed.
End FaultFree.

Section Snapshot.
Context `{JsonCodec}.

(** A load takes the store as it is on disk at that moment; what happens
    before the worker resumes does not change what it loaded. *)
Lemma reload_snapshot out l w data items keys :
  faults w = [] → files w !! out = Some data → JsString.trim data ≠ EmptyString →
  JSON_parse data = Some (JArr items) → Js.mapM Js.entry_domain items = Normal keys →
  ∃ m, reloadResults out l w
       = Paused (emit (ConsoleLog m) (emit (ReadFile out data) w))
                (λ w2, Fin (Normal tt) (mkLocals (stagehand l) (JArr items) keys) w2).
Proof.
  intros Hf Hp Hd Hv Hk.
  destruct (read_valid out 2 data (JArr items) l w Hf Hp Hd Hv ltac:(done)) as (m & Heq).
  exists m. unfold reloadResults, mbind, prog_bind, bind, await. rewrite Heq.
  cbn. rewrite Hk. reflexivity.
Qed.

Lemma recordResult_snapshot n out d s l w data items keys :
  faults w = [] → files w !! out = Some data → JsString.trim data ≠ EmptyString →
  JSON_parse data = Some (JArr items) → Js.mapM Js.entry_domain items = Normal keys →
  ∃ w1 k, recordResult n out d s l w = Paused w1 k ∧ files w1 = files w
    ∧ ∀ w2, interference w1 w2 →
        (Js.has keys d = true →
         ∃ m, k w2 = Fin (Normal tt) (mkLocals (stagehand l) (JArr items) keys)
                         (emit (ConsoleLog m) w2))
        ∧ (Js.has keys d = false → out ∉ dirs w2 → path.dirname out ≠ out →
           ∃ w3 k', k w2 = Paused w3 k'
             ∧ files w3 !! out = Some (JSON_stringify (JArr (items ++ [DomainEntry d s])))
             ∧ ∀ w4, interference w3 w4 →
                 ∃ m, k' w4 = Fin (Normal tt)
                                  (mkLocals (stagehand l) (JArr (items ++ [DomainEntry d s]))
                                            (Js.add d keys))
                                  (emit (ConsoleLog m) w4)).
Proof.
  intros Hf Hp Hd Hv Hk.
  destruct (reload_snapshot out l w data items keys Hf Hp Hd Hv Hk) as (m & Heq).
  unfold recordResult, mbind, prog_bind, bind. rewrite Heq. cbn -[Js.has Js.add].
  do 2 eexists. split; [reflexivity|]. split; [done|].
  intros w2 (Hf2 & _ & _ & _). cbn in Hf2. rewrite Hf in Hf2. split.
  - intros ->. cbn -[Js.has Js.add]. eauto.
  - intros -> Hd2 Hdir. cbn -[Js.has Js.add].
    destruct (write_ok out (items ++ [DomainEntry d s])
                (mkLocals (stagehand l) (JArr (items ++ [DomainEntry d s])) keys)
                w2 Hf2 Hd2 Hdir) as (w3 & Heq3 & Hfile3 & _).
    unfold pushAndSave, assignCurrentResults, mbind, prog_bind, bind, await.
    cbn -[Js.has Js.add safelyWriteResultsFile]. rewrite Heq3. cbn -[Js.has Js.add]. do 2 eexists. split; [reflexivity|]. split; [done|].
    intros w4 _. eauto.
Qed.

Lemma recordError_snapshot n out d l w data items keys :
  faults w = [] → files w !! out = Some data → JsString.trim data ≠ EmptyString →
  JSON_parse data = Some (JArr items) → Js.mapM Js.entry_domain items = Normal keys →
  ∃ w1 k, recordError n out d l w = Paused w1 k ∧ files w1 = files w
    ∧ ∀ w2, interference w1 w2 →
        (Js.has keys d = true →
         k w2 = Fin (Normal tt) (mkLocals (stagehand l) (JArr items) keys) w2)
        ∧ (Js.has keys d = false → out ∉ dirs w2 → path.dirname out ≠ out →
           ∃ w3 k', k w2 = Paused w3 k'
             ∧ files w3 !! out
               = Some (JSON_stringify (JArr (items ++ [DomainEntry d error])))
             ∧ ∀ w4, interference w3 w4 →
                 k' w4 = Fin (Normal tt)
                             (mkLocals (stagehand l)
                                       (JArr (items ++ [DomainEntry d error]))
                                       (Js.add d keys))
                             w4).
Proof.
  intros Hf Hp Hd Hv Hk.
  destruct (reload_snapshot out l w data items keys Hf Hp Hd Hv Hk) as (m & Heq).
  unfold recordError, try_catch, mbind, prog_bind, bind. rewrite Heq. cbn -[Js.has Js.add].
  do 2 eexists. split; [reflexivity|]. split; [done|].
  intros w2 (Hf2 & _ & _ & _). cbn in Hf2. rewrite Hf in Hf2. split.
  - intros ->. cbn -[Js.has Js.add]. eauto.
  - intros -> Hd2 Hdir. cbn -[Js.has Js.add].
    destruct (write_ok out (items ++ [DomainEntry d error])
                (mkLocals (stagehand l) (JArr (items ++ [DomainEntry d error])) keys)
                w2 Hf2 Hd2 Hdir) as (w3 & Heq3 & Hfile3 & _).
    unfold pushAndSave, assignCurrentResults, mbind, prog_bind, bind, await.
    cbn -[Js.has Js.add safelyWriteResultsFile]. rewrite Heq3. cbn -[Js.has Js.add]. do 2 eexists. split; [reflexivity|]. split; [done|].
    intros w4 _. eauto.
Qed.
End Snapshot.

Lemma batches_elem_of (ds : list string) b d :
  b ∈ Partition.domainBatches ds → d ∈ b → d ∈ ds.
Proof.
  intros [j Hb]%list_elem_of_lookup [r Hr]%list_elem_of_lookup.
  destruct ds as [|d0 ds]; [by cbn in Hb|].
  rewrite (PartitionFacts.batches_lookup (d0 :: ds) ltac:(done) j b r Hb) in Hr.
  by eapply list_elem_of_lookup_2.
Qed.

Section WorkerTheorems.
Context `{JsonCodec}.



End WorkerTheorems.

(** ** The orchestrator *)

Section BaselineFacts.
Context `{JsonCodec}.

Lemma filterM_status items valid :
  Js.filterM Js.status_not_error items = Normal valid →
  valid = List.filter (λ entry, negb (isErrorRecord entry)) items.
Proof.
  revert valid. induction items as [|it items IH]; intros valid; cbn; [by intros [= <-]|].
  destruct (Js.status_not_error it) as [b|] eqn:Hit; [|done].
  destruct (Js.filterM Js.status_not_error items) as [valid'|]; [|done].
  intros [= <-]. rewrite (IH valid' eq_refl).
  assert (b = negb (isErrorRecord it)) as ->; [|done].
  unfold Js.status_not_error, isErrorRecord in *.
  destruct (Js.get "status" it) as [[[]|]|]; by simplify_eq.
Qed.

Lemma mapM_elem_of {A B} (f : A → Outcome B) l ys y :
  Js.mapM f l = Normal ys → y ∈ ys → ∃ x, x ∈ l ∧ f x = Normal y.
Proof.
  revert ys. induction l as [|x l IH]; intros ys; cbn.
  - intros [= <-] Hy. by apply elem_of_nil in Hy.
  - destruct (f x) as [y'|] eqn:Hx; [|done].
    destruct (Js.mapM f l) as [ys'|]; [|done].
    intros [= <-] [->|Hy]%elem_of_cons.
    + exists x. split; [by left|done].
    + destruct (IH ys' eq_refl Hy) as (x' & Hx' & Hf). exists x'. split; [by right|done].
Qed.

Lemma has_elem_of keys d : Js.has keys d = true ↔ Some (JStr d) ∈ keys.
Proof.
  unfold Js.has. rewrite existsb_exists. split.
  - intros ([[| | |s| |]|] & Hin & Heq); try done.
    apply String.eqb_eq in Heq as ->. by apply list_elem_of_In.
  - intros Hin. exists (Some (JStr d)). split; [by apply list_elem_of_In|].
    apply String.eqb_refl.
Qed.

(** A domain of the input all of whose records have the status [error]
    is among the domains to check. *)
Lemma error_records_unresolved uniqueDomains items valid keys d :
  Js.filterM Js.status_not_error items = Normal valid →
  Js.mapM Js.entry_domain valid = Normal keys →
  d ∈ uniqueDomains →
  (∀ entry, entry ∈ items → Js.entry_domain entry = Normal (Some (JStr d)) →
            isErrorRecord entry = true) →
  d ∈ domainsToCheck uniqueDomains keys.
Proof.
  intros Hvalid Hkeys Hd Herr. unfold domainsToCheck.
  apply list_elem_of_In, filter_In. split; [by apply list_elem_of_In|].
  apply negb_true_iff, not_true_iff_false. rewrite has_elem_of. intros Hin.
  destruct (mapM_elem_of _ _ _ _ Hkeys Hin) as (entry & Hentry & Hdom).
  rewrite (filterM_status _ _ Hvalid) in Hentry.
  apply list_elem_of_In, filter_In in Hentry as [Hentry Hkeep].
  rewrite (Herr entry) in Hkeep; [done|by apply list_elem_of_In|done].
Qed.

Lemma baseline_snapshot out w data items valid :
  faults w = [] → files w !! out = Some data → JsString.trim data ≠ EmptyString →
  JSON_parse data = Some (JArr items) →
  Js.filterM Js.status_not_error items = Normal valid →
  ∃ w1 k, baseline out tt w = Paused w1 k ∧ files w1 = files w
    ∧ ∀ w2, interference w1 w2 →
        (length valid < length items →
         out ∉ dirs w2 → path.dirname out ≠ out →
         ∃ w3 k', k w2 = Paused w3 k'
           ∧ files w3 !! out = Some (JSON_stringify (JArr valid))
           ∧ ∀ w4, interference w3 w4 →
               ∃ m, k' w4 = Fin (Normal (JArr valid)) tt (emit (ConsoleLog m) w4))
        ∧ (length valid = length items →
           ∃ m, k w2 = Fin (Normal (JArr valid)) tt (emit (ConsoleLog m) w2)).
Proof.
  intros Hf Hp Hd Hv Hvalid.
  destruct (read_valid out 2 data (JArr items) tt w Hf Hp Hd Hv ltac:(done)) as (m & Heq).
  unfold baseline, mbind, prog_bind, bind, await. rewrite Heq.
  cbn -[safelyWriteResultsFile Nat.ltb]. rewrite Hvalid.
  cbn -[safelyWriteResultsFile Nat.ltb].
  do 2 eexists. split; [reflexivity|]. split; [done|].
  intros w2 (Hf2 & _ & _ & _). cbn in Hf2. rewrite Hf in Hf2. split.
  - intros Hlt Hd2 Hdir. apply Nat.ltb_lt in Hlt. rewrite Hlt.
    cbn -[safelyWriteResultsFile Nat.ltb].
    match goal with
    | |- context [safelyWriteResultsFile out (JArr valid) 3 () ?w'] =>
        destruct (write_ok out valid tt w' Hf2 Hd2 Hdir) as (w3 & Heq3 & Hfile3 & _)
    end.
    rewrite Heq3. cbn. do 2 eexists. split; [reflexivity|]. split; [done|].
    intros w4 _. eauto.
  - intros Hlen. rewrite Hlen, Nat.ltb_irrefl. cbn. eauto.
Qed.
End BaselineFacts.

Section OrchestratorTheorems.
Context `{JsonCodec}.


Lemma safe_trivial {L A} G (R : World → World → Prop) (r : Res L A) :
  (∀ w, G w) → safe G R (λ _ _ _, True) r.
Proof. intros HG. induction r as [|w k IH]; cbn; [done|]. split; [done|]. auto. Qed.

Lemma safe_finish {L A} G R (Q : Outcome A → L → World → Prop) (r : Res L A) :
  (∀ w, R w w) → safe G R Q r → let '(o, l, w) := finish r in Q o l w.
Proof.
  intros HR. induction r as [o l w|w k IH]; cbn; [done|].
  intros [_ Hk]. apply IH, Hk, HR.
Qed.

Lemma run_never_throws root w :
  safe (λ _, True) (λ _ _, True) (λ o _ _, o = Normal tt) (run root tt w).
Proof.
  unfold run, try_catch. apply safe_catch.
  eapply safe_mono; [|by apply safe_trivial].
  intros [[]|e] l w' _; [done|]. by cbn.
Qed.

Lemma main_exits_zero root w :
  safe (λ _, True) (λ _ _, True) (λ o _ _, o = Normal 0%Z) (main root tt w).
Proof.
  unfold main, try_catch, mbind, prog_bind, bind. apply safe_catch, safe_bind.
  eapply safe_mono; [|apply run_never_throws]. by intros o l w' ->.
Qed.

Lemma join_ne_dir a b : path.join a b ≠ a.
Proof. unfold path.join. by apply append_ne. Qed.

Lemma append_assoc_str (a b c : string) : (a +:+ b) +:+ c = a +:+ (b +:+ c).
Proof.
  induction a as [|x a IH]; [done|].
  change (String x ((a +:+ b) +:+ c) = String x (a +:+ (b +:+ c))). by rewrite IH.
Qed.

Lemma domainsPath_ne_outputDir root :
  path.join (path.join root "input") "domains.txt" ≠ path.join root "output".
Proof.
  unfold path.join. rewrite append_assoc_str. intros Heq.
  by apply String.app_inj in Heq.
Qed.

Lemma app_after {A} (tr a b x : list A) : a = tr ++ x → a ++ b = tr ++ (x ++ b).
Proof. intros ->. by rewrite app_assoc. Qed.

Lemma snoc_after {A} (tr a x : list A) d : a = tr ++ x → a ++ [d] = tr ++ x ++ [d].
Proof. apply app_after. Qed.

Lemma missing_input root w :
  let domainsPath := path.join (path.join root "input") "domains.txt" in
  faults w = [] → files w !! domainsPath = None → domainsPath ∉ dirs w →
  ∃ w' evs,
    exitStatus root w = (Normal 0%Z, w')
    ∧ trace w' = trace w ++ evs ++ [ConsoleLog ("Domains file not found: " +:+ domainsPath)]
    ∧ files w' = files w ∧ remote w' = remote w.
Proof.
  intros domainsPath Hf Hp Hd.
  pose proof (join_ne_dir (path.join root "input") "domains.txt") as Hne1.
  pose proof (domainsPath_ne_outputDir root) as Hne2.
  fold domainsPath in Hne1, Hne2.
  destruct w as [fs ds ck fl rm sc tr]. cbn in Hf, Hp, Hd. subst fl.
  unfold exitStatus, main, run. fold domainsPath. prog_unfold.
  cbn -[path.join domainsPath].
  destruct (bool_decide _ || bool_decide _); cbn -[path.join domainsPath];
    (destruct (bool_decide _ || bool_decide _); cbn -[path.join domainsPath]).
  all: rewrite Hp; rewrite !bool_decide_eq_false_2 by (first [set_solver | by intros [? ?]]).
  all: change (negb (false || false)) with true; cbv iota;
       cbn -[path.join domainsPath baseline promise_all forOf Js.map inputDomains].
  all: do 2 eexists; split; [reflexivity|]; cbn -[path.join domainsPath];
       split; [|done].
  all: apply snoc_after; repeat first [reflexivity | apply app_after].
Qed.

(** C8 (as amended).  Whatever happens, the promise of [run] is
    fulfilled, so the handler that calls [process.exit(1)] is never
    reached and the process leaves with status 0: also when domains ended
    with the status [error], when the session of a worker cannot be
    created, and when the input file is missing, which is logged before
    [run] returns without any remote interaction. *)
Theorem process_exits_with_status_zero (projectRoot : string) (w : World) :
  safe (λ _, True) (λ _ _, True) (λ o _ _, o = Normal 0%Z) (main projectRoot tt w)
  ∧ fst (exitStatus projectRoot w) = Normal 0%Z
  ∧ (let domainsPath := path.join (path.join projectRoot "input") "domains.txt" in
     faults w = [] → files w !! domainsPath = None → domainsPath ∉ dirs w →
     ∃ w' evs,
       exitStatus projectRoot w = (Normal 0%Z, w')
       ∧ trace w' = trace w ++ evs
                    ++ [ConsoleLog ("Domains file not found: " +:+ domainsPath)]
       ∧ files w' = files w ∧ remote w' = remote w).
Proof.
  split; [apply main_exits_zero|]. split; [|apply missing_input].
  unfold exitStatus.
  pose proof (safe_finish _ _ _ _ (λ _, I) (main_exits_zero projectRoot w)) as Hfin.
  by destruct (finish (main projectRoot tt w)) as [[o l] w'].
Qed.
End OrchestratorTheorems.

(** ** The domains of the store stay unique *)

Section KeepsRules.
Context {L : Type} (I : World → Prop).
Hypothesis I_files : ∀ w w', files w' = files w → I w → I w'.
Implicit Types (l : L).

Lemma keeps_mono {A} (m : Prog L A) l (S S' : Outcome A → L → Prop) :
  keeps I m l S → (∀ o l', S o l' → S' o l') → keeps I m l S'.
Proof.
  intros Hm HS w Hw. eapply safe_mono; [|by apply Hm]. intros o l' w' [? ?]. auto.
Qed.

Lemma keeps_fin {A} (m : Prog L A) l (S : Outcome A → L → Prop) :
  (∀ w, ∃ o l' w', m l w = Fin o l' w' ∧ files w' = files w ∧ S o l') →
  keeps I m l S.
Proof.
  intros Hm w Hw. destruct (Hm w) as (o & l' & w' & -> & Hf & HS). cbn. eauto.
Qed.

Lemma keeps_ret {A} (a : A) l (S : Outcome A → L → Prop) :
  S (Normal a) l → keeps I (mret a) l S.
Proof. intros HS. apply keeps_fin. intros w. by exists (Normal a), l, w. Qed.

Lemma keeps_lift {A} (o : Outcome A) l (S : Outcome A → L → Prop) :
  S o l → keeps I (lift o) l S.
Proof. intros HS. apply keeps_fin. intros w. by exists o, l, w. Qed.

Lemma keeps_throw {A} e l (S : Outcome A → L → Prop) :
  S (Thrown e) l → keeps I (throw e) l S.
Proof. intros HS. apply keeps_fin. intros w. by exists (Thrown e), l, w. Qed.

Lemma keeps_getLocals l (S : Outcome L → L → Prop) :
  S (Normal l) l → keeps I getLocals l S.
Proof. intros HS. apply keeps_fin. intros w. by exists (Normal l), l, w. Qed.

Lemma keeps_setLocals l l' (S : Outcome unit → L → Prop) :
  S (Normal tt) l' → keeps I (setLocals l') l S.
Proof. intros HS. apply keeps_fin. intros w. by exists (Normal tt), l', w. Qed.

Lemma keeps_log msg l (S : Outcome unit → L → Prop) :
  S (Normal tt) l → keeps I (console_log msg) l S.
Proof. intros HS. apply keeps_fin. intros w. by eexists _, _, _. Qed.

Lemma keeps_error msg l (S : Outcome unit → L → Prop) :
  S (Normal tt) l → keeps I (console_error msg) l S.
Proof. intros HS. apply keeps_fin. intros w. by eexists _, _, _. Qed.

Lemma keeps_existsSync p l (S : Outcome bool → L → Prop) :
  (∀ b, S (Normal b) l) → keeps I (fs.existsSync p) l S.
Proof. intros HS. apply keeps_fin. intros w. by eexists _, _, _. Qed.

Lemma keeps_mkdirSync d l (S : Outcome unit → L → Prop) :
  S (Normal tt) l → S (Thrown IOError) l → keeps I (fs.mkdirSync d) l S.
Proof.
  intros HN HT. apply keeps_fin. intros w.
  unfold fs.mkdirSync, fs.fallible, fs.take_fault.
  destruct (faults w) as [|[] bs]; cbn; eexists _, _, _; (split; [reflexivity|split; [reflexivity|auto]]).
Qed.

Lemma keeps_readFileSync p l (S : Outcome string → L → Prop) :
  (∀ content, S (Normal content) l) → S (Thrown IOError) l →
  keeps I (fs.readFileSync p) l S.
Proof.
  intros HN HT. apply keeps_fin. intros w.
  unfold fs.readFileSync, fs.fallible, fs.take_fault.
  destruct (faults w) as [|[] bs]; cbn;
    [|eexists _, _, _; (split; [reflexivity|split; [reflexivity|auto]])|].
  all: destruct (files w !! p); cbn; eexists _, _, _; (split; [reflexivity|split; [reflexivity|auto]]).
Qed.

Lemma keeps_sleep ms l (S : Outcome unit → L → Prop) :
  S (Normal tt) l → keeps I (sleep ms) l S.
Proof.
  intros HS w Hw. cbn. split; [by apply (I_files w)|]. by intros w' Hw'.
Qed.

Lemma keeps_remote op l (S : Outcome (bool * string) → L → Prop) :
  (∀ r, S (Normal r) l) → S (Thrown RemoteError) l → keeps I (remoteCall op) l S.
Proof.
  intros HN HT w Hw. cbn. split; [by apply (I_files w)|]. intros w' Hw'.
  destruct (remote w') as [|[|b c] rs]; cbn; (split; [by apply (I_files w')|done]).
Qed.

Lemma keeps_bind {A B} (m : Prog L A) (f : A → Prog L B) l (S : Outcome B → L → Prop) :
  keeps I m l (λ o l1, match o with
                       | Normal a => keeps I (f a) l1 S
                       | Thrown e => S (Thrown e) l1
                       end) →
  keeps I (m ≫= f) l S.
Proof.
  intros Hm w Hw. unfold mbind, prog_bind, bind. apply safe_bind.
  eapply safe_mono; [|by apply Hm].
  intros [a|e] l1 w1 [Hw1 HS1]; [by apply HS1|done].
Qed.

Lemma keeps_catch {A} (m : Prog L A) (h : Exn → Prog L A) l (S : Outcome A → L → Prop) :
  keeps I m l (λ o l1, match o with
                       | Normal a => S (Normal a) l1
                       | Thrown e => keeps I (h e) l1 S
                       end) →
  keeps I (try_catch m h) l S.
Proof.
  intros Hm w Hw. unfold try_catch. apply safe_catch.
  eapply safe_mono; [|by apply Hm].
  intros [a|e] l1 w1 [Hw1 HS1]; [done|by apply HS1].
Qed.

Lemma keeps_finally {A} (m : Prog L A) (f : Prog L unit) l (S : Outcome A → L → Prop) :
  keeps I m l (λ o l1,
                 keeps I f l1 (λ o2 l2, match o2 with
                                        | Normal _ => S o l2
                                        | Thrown e => S (Thrown e) l2
                                        end)) →
  keeps I (try_finally m f) l S.
Proof.
  intros Hm w Hw. unfold try_finally. apply safe_finally.
  eapply safe_mono; [|by apply Hm].
  intros o l1 w1 [Hw1 HS1]. eapply safe_mono; [|by apply HS1].
  by intros [[]|e] l2 w2 [Hw2 HS2].
Qed.

Lemma keeps_await {A} (m : Prog L A) l (S : Outcome A → L → Prop) :
  keeps I m l S → keeps I (await m) l S.
Proof.
  intros Hm w Hw. unfold await. apply safe_await.
  eapply safe_mono; [|by apply Hm].
  intros o l1 w1 [Hw1 HS1]. split; [done|]. by intros w' Hw'.
Qed.

Lemma keeps_when (b : bool) (m : Prog L unit) l (S : Outcome unit → L → Prop) :
  (b = true → keeps I m l S) → (b = false → S (Normal tt) l) → keeps I (when b m) l S.
Proof. destruct b; intros Ht Hf; [by apply Ht|by apply keeps_ret, Hf]. Qed.

Lemma keeps_forOf {X} (xs : list X) (body : X → Prog L unit) l (P : L → Prop) :
  P l →
  (∀ x l1, x ∈ xs → P l1 →
     keeps I (body x) l1 (λ o l2, o = Normal tt ∧ P l2)) →
  keeps I (forOf xs body) l (λ o l', o = Normal tt ∧ P l').
Proof.
  revert l. induction xs as [|x xs IH]; intros l Hl Hbody; cbn [forOf].
  - by apply keeps_ret.
  - apply keeps_bind. eapply keeps_mono; [apply Hbody; [set_solver|done]|].
    intros o l1 [-> Hl1]. apply IH; [done|].
    intros y l2 Hy. apply Hbody. set_solver.
Qed.

(** A computation resumed at once every time it waits. *)
Lemma keeps_finish {A} (Q : Outcome A → L → World → Prop) (r : Res L A) :
  safe I (λ _ w', I w') Q r → let '(o, l, w) := finish r in Q o l w.
Proof.
  induction r as [o l w|w k IH]; cbn; [done|].
  intros [Hw Hk]. by apply IH, Hk.
Qed.
End KeepsRules.

Ltac keeps_step :=
  lazymatch goal with
  | |- keeps _ (_ ≫= _) _ _ => apply keeps_bind
  | |- keeps _ (try_catch _ _) _ _ => apply keeps_catch
  | |- keeps _ (try_finally _ _) _ _ => apply keeps_finally
  | |- keeps _ (await _) _ _ => apply keeps_await
  | |- keeps _ (console_log _) _ _ => apply keeps_log; [assumption|]
  | |- keeps _ (console_error _) _ _ => apply keeps_error; [assumption|]
  | |- keeps _ (sleep _) _ _ => apply keeps_sleep; [assumption|]
  | |- keeps _ (remoteCall _) _ _ => apply keeps_remote; [assumption|intros [? ?]|]
  | |- keeps _ (fs.existsSync _) _ _ => apply keeps_existsSync; [assumption|intros ?]
  | |- keeps _ (fs.mkdirSync _) _ _ => apply keeps_mkdirSync; [assumption| |]
  | |- keeps _ (fs.readFileSync _) _ _ => apply keeps_readFileSync; [assumption|intros ?|]
  | |- keeps _ (mret _) _ _ => apply keeps_ret; [assumption|]
  | |- keeps _ (ret _) _ _ => apply keeps_ret; [assumption|]
  | |- keeps _ (lift _) _ _ => apply keeps_lift; [assumption|]
  | |- keeps _ (throw _) _ _ => apply keeps_throw; [assumption|]
  | |- keeps _ getLocals _ _ => apply keeps_getLocals; [assumption|]
  | |- keeps _ (setLocals _) _ _ => apply keeps_setLocals; [assumption|]
  | |- keeps _ (when _ _) _ _ => apply keeps_when; [assumption|intros ?|intros ?]
  | |- keeps _ (if ?b then _ else _) _ _ => destruct b eqn:?
  | |- keeps _ (assignStagehand _) _ _ => unfold assignStagehand
  | |- keeps _ (assignCurrentResults _) _ _ => unfold assignCurrentResults
  | |- keeps _ (assignCheckedDomainsSet _) _ _ => unfold assignCheckedDomainsSet
  | |- keeps _ (addChecked _) _ _ => unfold addChecked
  end.

Ltac keeps_go := repeat (keeps_step; cbv beta iota).

Ltac keeps_call lem :=
  eapply keeps_mono; [apply lem|]; cbv beta.

(** *** Documents with unique domains *)

Lemma domainOf_entry domain status : domainOf (DomainEntry domain status) = Some (JStr domain).
Proof. reflexivity. Qed.

Lemma mapM_domainOf items keys d :
  Js.mapM Js.entry_domain items = Normal keys →
  d ∈ omap domainOf items → Some d ∈ keys.
Proof.
  revert keys. induction items as [|x items IH]; intros keys Hm Hd.
  - by apply elem_of_nil in Hd.
  - cbn [Js.mapM] in Hm.
    change (omap domainOf (x :: items))
      with (match domainOf x with
            | Some y => y :: omap domainOf items
            | None => omap domainOf items
            end) in Hd.
    unfold domainOf at 1 in Hd.
    destruct (Js.entry_domain x) as [k|e]; [|done].
    destruct (Js.mapM Js.entry_domain items) as [ks|e]; [|done].
    injection Hm as <-. destruct k as [k|].
    + apply elem_of_cons in Hd as [->|Hd]; [left|right; by apply IH].
    + right. by apply IH.
Qed.

Lemma has_false_not_elem keys d : Js.has keys d = false → Some (JStr d) ∉ keys.
Proof.
  unfold Js.has. intros Hhas Hin.
  assert (existsb (λ v, match v with Some (JStr x) => String.eqb x d | _ => false end) keys
          = true) as Ht; [|congruence].
  apply existsb_exists. exists (Some (JStr d)). split; [by apply list_elem_of_In|].
  apply String.eqb_refl.
Qed.

Lemma uniqueDomains_push items keys domain status :
  Js.mapM Js.entry_domain items = Normal keys → Js.has keys domain = false →
  uniqueDomains (JArr items) → uniqueDomains (JArr (items ++ [DomainEntry domain status])).
Proof.
  intros Hkeys Hhas Hu. unfold uniqueDomains in *. rewrite omap_app.
  change (omap domainOf [DomainEntry domain status]) with [JStr domain]. apply NoDup_app. split; [done|]. split; [|apply NoDup_singleton].
  intros d Hd Hd'. apply list_elem_of_singleton in Hd' as ->.
  eapply has_false_not_elem; [exact Hhas|]. by eapply mapM_domainOf.
Qed.

Lemma uniqueDomains_filter (f : json → Outcome bool) items valid :
  Js.filterM f items = Normal valid →
  uniqueDomains (JArr items) → uniqueDomains (JArr valid).
Proof.
  unfold uniqueDomains. intros Hf Hu. apply (sublist_NoDup (omap domainOf valid) (omap domainOf items)); [done|].
  clear Hu. revert valid Hf.
  induction items as [|x items IH]; intros valid; cbn [Js.filterM].
  - by intros [= <-].
  - destruct (f x) as [b|e]; [|done].
    destruct (Js.filterM f items) as [ys|e]; [|done].
    intros [= <-]. specialize (IH _ eq_refl).
    change (omap domainOf (x :: items))
      with (match domainOf x with
            | Some y => y :: omap domainOf items
            | None => omap domainOf items
            end).
    destruct b; [|destruct (domainOf x); [by apply sublist_cons|done]].
    change (omap domainOf (x :: ys))
      with (match domainOf x with
            | Some y => y :: omap domainOf ys
            | None => omap domainOf ys
            end).
    destruct (domainOf x); [by apply sublist_skip|done].
Qed.

Section StoreKeeps.
Context `{JsonCodec}.
Hypothesis parse_stringify : ∀ v, JSON_parse (JSON_stringify v) = Some v.
Variable out : string.

Lemma storeUnique_files w w' : files w' = files w → storeUnique out w → storeUnique out w'.
Proof. unfold storeUnique. by intros ->. Qed.

Lemma storeUnique_same w w' :
  files w' !! out = files w !! out → storeUnique out w → storeUnique out w'.
Proof. unfold storeUnique. by intros ->. Qed.

Lemma storeUnique_written w data :
  uniqueDomains data → files w !! out = Some (JSON_stringify data) → storeUnique out w.
Proof.
  intros Hu Hf data' v. rewrite Hf. intros [= <-]. rewrite parse_stringify.
  by intros [= <-].
Qed.

Lemma writeLoop_keeps {L} data maxRetries left (l : L) :
  uniqueDomains data →
  keeps (storeUnique out) (writeLoop out data maxRetries left) l
    (λ o l', l' = l ∧ ∃ b, o = Normal b).
Proof.
  intros Hu. induction left as [|left IH]; intros w Hw.
  - cbn. split; [by eapply storeUnique_files|]. eauto.
  - cbn [writeLoop]. unfold try_catch.
    destruct (writeAttempt_spec out data l w)
      as (o & w1 & evs1 & -> & _ & _ & _ & Hcase).
    destruct Hcase as [(-> & _ & Hfile)|(e & -> & _ & Hfile)].
    + cbn. split; [by eapply storeUnique_written|]. eauto.
    + cbn. split; [by eapply storeUnique_same|]. intros w2 Hw2. by apply IH.
Qed.

Lemma readLoop_keeps {L} maxRetries left (l : L) :
  keeps (storeUnique out) (readLoop out maxRetries left) l
    (λ o l', l' = l ∧ ∃ v, o = Normal v ∧ uniqueDomains v).
Proof.
  induction left as [|left IH]; intros w Hw.
  - cbn. split; [by eapply storeUnique_files|]. split; [done|].
    exists (JArr []). split; [done|]. apply NoDup_nil_2.
  - cbn [readLoop]. unfold try_catch.
    destruct (readAttempt_spec out l w) as (o & w1 & evs1 & -> & _ & _ & _ & _ & Hcase).
    destruct Hcase as [(e & -> & Hfile)|[(-> & Hfile)|(data & v & -> & Hd & Hv & _ & Hfile)]].
    + cbn. split; [by eapply storeUnique_same|]. intros w2 Hw2. by apply IH.
    + cbn. split.
      * destruct Hfile as [Hfile|Hfile]; [by eapply storeUnique_same|].
        eapply storeUnique_written; [|done]. apply NoDup_nil_2.
      * split; [done|]. exists (JArr []). split; [done|]. apply NoDup_nil_2.
    + cbn. split; [by eapply storeUnique_files|]. split; [done|].
      exists v. split; [done|]. by eapply Hw.
Qed.
End StoreKeeps.

Section WorkerKeeps.
Context `{JsonCodec}.
Hypothesis parse_stringify : ∀ v, JSON_parse (JSON_stringify v) = Some v.
Variable out : string.
Lemma reloadResults_keeps l :
  keeps (storeUnique out) (reloadResults out) l (λ o l', o = Normal tt → fresh l').
Proof.
  pose proof (storeUnique_files out) as HI.
  unfold reloadResults. keeps_step. keeps_step.
  keeps_call (readLoop_keeps (L:=Locals) parse_stringify out 3 3 l).
  intros o l' (-> & v & -> & Hu). keeps_go.
  destruct (Js.map Js.entry_domain v) as [keys|e] eqn:Hmap; keeps_go; [|done].
  intros _. apply map_Normal in Hmap as (items & -> & Hm). by exists items.
Qed.

Lemma pushAndSave_keeps domain status l :
  fresh l → Js.has (checkedDomainsSet l) domain = false →
  keeps (storeUnique out) (pushAndSave out (DomainEntry domain status)) l (λ _ _, True).
Proof.
  pose proof (storeUnique_files out) as HI.
  intros (items & Hcur & Hu & Hkeys) Hhas. unfold pushAndSave. keeps_go.
  rewrite Hcur. cbn [Js.push]. keeps_go.
  keeps_call (writeLoop_keeps (L:=Locals) parse_stringify out
                (JArr (items ++ [DomainEntry domain status])) 3 3).
  - by eapply uniqueDomains_push.
  - intros o l' (-> & b & ->). by keeps_go.
Qed.

Lemma recordResult_keeps n domain status l :
  keeps (storeUnique out) (recordResult n out domain status) l (λ _ _, True).
Proof.
  pose proof (storeUnique_files out) as HI.
  unfold recordResult. keeps_step. keeps_call reloadResults_keeps.
  intros [[]|e] l1 Hfresh; [|done]. specialize (Hfresh eq_refl). keeps_go. 2: done.
  keeps_call (pushAndSave_keeps domain status l1 Hfresh).
  { by apply negb_true_iff. }
  intros [[]|e] l2 _; [|done]. by keeps_go.
Qed.

Lemma recordError_keeps n domain l :
  keeps (storeUnique out) (recordError n out domain) l (λ o _, o = Normal tt).
Proof.
  pose proof (storeUnique_files out) as HI.
  unfold recordError. keeps_step. keeps_step. keeps_call reloadResults_keeps.
  intros [[]|e] l1 Hfresh; [|by keeps_go]. specialize (Hfresh eq_refl). keeps_go. 2: done.
  keeps_call (pushAndSave_keeps domain error l1 Hfresh).
  { by apply negb_true_iff. }
  intros [[]|e] l2 _; by keeps_go.
Qed.

Lemma checkName_keeps domain left (l : Locals) :
  keeps (storeUnique out) (checkDomainAvailabilityName domain left) l (λ _ _, True).
Proof.
  pose proof (storeUnique_files out) as HI.
  induction left as [|left IH]; cbn [checkDomainAvailabilityName]; unfold searchBox;
    keeps_go; try done.
  all: eapply keeps_mono; [apply IH|]; by intros [?|?] ? _; keeps_go.
Qed.

Lemma checkDomainAvailability_keeps domain (l : Locals) :
  keeps (storeUnique out) (checkDomainAvailability domain) l (λ _ _, True).
Proof.
  pose proof (storeUnique_files out) as HI.
  unfold checkDomainAvailability. keeps_step. keeps_step.
  eapply keeps_mono; [apply checkName_keeps|]. intros [?|?] ? _; by keeps_go.
Qed.

Lemma processDomain_keeps n domain l :
  keeps (storeUnique out) (processDomain n out domain) l (λ o _, o = Normal tt).
Proof.
  pose proof (storeUnique_files out) as HI.
  unfold processDomain. keeps_step. keeps_step. keeps_step. cbv beta iota.
  destruct (Js.has (checkedDomainsSet l) domain); keeps_go; [done|].
  eapply keeps_mono; [apply checkDomainAvailability_keeps|].
  intros [status|e] l1 _.
  - eapply keeps_mono; [apply recordResult_keeps|].
    intros [[]|e] l2 _; [done|]. keeps_go. apply recordError_keeps.
  - keeps_go. apply recordError_keeps.
Qed.

Lemma processDomainBatch_keeps domains n l :
  keeps (storeUnique out) (processDomainBatch domains n out) l (λ o _, o = Normal tt).
Proof.
  pose proof (storeUnique_files out) as HI.
  unfold processDomainBatch, initializeBrowserbaseSession. keeps_go; try done.
  eapply keeps_mono; [apply reloadResults_keeps|].
  intros [[]|e] l1 _; keeps_go; try done.
  eapply keeps_mono.
  { apply (keeps_forOf (storeUnique out) HI domains (processDomain n out) _ (λ _, True)); [done|].
    intros d l2 _ _. eapply keeps_mono; [apply processDomain_keeps|]. by intros o l3 ->. }
  intros o l2 [-> _]. keeps_go; done.
Qed.
End WorkerKeeps.

(** *** [Promise.all] and the orchestrator *)

Section PromiseKeeps.
Context {L : Type} (I : World → Prop).
Hypothesis I_files : ∀ w w', files w' = files w → I w → I w'.

Lemma settle_keeps (r : Res L unit) :
  safe I (λ _ w', I w') (λ _ _ w', I w') r →
  I (settle r).2 ∧ taskKeeps I (settle r).1.
Proof. destruct r as [o l w|w k]; cbn; [done|]. by intros [? ?]. Qed.

Lemma startAll_keeps (ps : list (Prog L unit)) l0 w :
  Forall (λ p, keeps I p l0 (λ _ _, True)) ps → I w →
  I (startAll ps l0 w).2 ∧ Forall (taskKeeps I) (startAll ps l0 w).1.
Proof.
  intros Hps. revert w. induction Hps as [|p ps Hp Hps IH]; intros w Hw; cbn [startAll].
  - by split.
  - destruct (settle_keeps (p l0 w)) as [Hw1 Ht].
    { eapply safe_mono; [|by apply Hp]. by intros o l w' [? _]. }
    destruct (settle (p l0 w)) as [t w1]. cbn in Hw1, Ht.
    specialize (IH w1 Hw1). destruct (startAll ps l0 w1) as [ts w2]. cbn in *.
    destruct IH as [Hw2 Hts]. split; [done|]. by constructor.
Qed.

Lemma resume_keeps i (ts : list (Task L)) w :
  I w → Forall (taskKeeps I) ts →
  I (resume i ts w).2 ∧ Forall (taskKeeps I) (resume i ts w).1.
Proof.
  intros Hw Hts. unfold resume. destruct (ts !! i) as [[k|o]|] eqn:Hi; [|done..].
  pose proof (Forall_lookup_1 _ _ _ _ Hts Hi) as Hk. cbn in Hk.
  destruct (settle_keeps (k w)) as [Hw1 Ht]; [by apply Hk|].
  destruct (settle (k w)) as [t w1]. cbn in *. split; [done|].
  by apply Forall_insert.
Qed.

Lemma runSchedule_keeps sched (ts : list (Task L)) w :
  I w → Forall (taskKeeps I) ts →
  I (runSchedule sched ts w).2 ∧ Forall (taskKeeps I) (runSchedule sched ts w).1.
Proof.
  revert ts w. induction sched as [|i sched IH]; intros ts w Hw Hts; cbn [runSchedule].
  - by split.
  - destruct (resume_keeps i ts w Hw Hts) as [Hw1 Hts1].
    destruct (resume i ts w) as [ts1 w1]. by apply IH.
Qed.

Lemma drain_keeps (ts : list (Task L)) w :
  I w → Forall (taskKeeps I) ts → I (drain ts w).2.
Proof.
  intros Hw Hts. revert w Hw.
  induction Hts as [|t ts Ht Hts IH]; intros w Hw; cbn [drain]; [done|].
  destruct t as [k|o].
  - pose proof (keeps_finish I _ (k w) (Ht w Hw)) as Hfin.
    destruct (finish (k w)) as [[o l1] w1]. specialize (IH w1 Hfin).
    by destruct (drain ts w1) as [os w2].
  - specialize (IH w Hw). by destruct (drain ts w) as [os w2].
Qed.

Lemma keeps_promise_all {L'} (ps : list (Prog L unit)) l0 (l : L') :
  Forall (λ p, keeps I p l0 (λ _ _, True)) ps →
  keeps I (promise_all ps l0) l (λ _ l', l' = l).
Proof.
  intros Hps w Hw. unfold promise_all.
  destruct (startAll_keeps ps l0 w Hps Hw) as [Hw1 Hts].
  destruct (startAll ps l0 w) as [ts w1]. cbn in Hw1, Hts. cbn. split; [done|].
  intros w2 Hw2.
  destruct (runSchedule_keeps (schedule w2) ts (set_schedule [] w2)) as [Hw3 Hts3];
    [by apply (I_files w2)|done|].
  destruct (runSchedule (schedule w2) ts (set_schedule [] w2)) as [ts' w3]. cbn in Hw3, Hts3.
  pose proof (drain_keeps ts' w3 Hw3 Hts3) as Hw4.
  destruct (drain ts' w3) as [os w4]. by cbn.
Qed.
End PromiseKeeps.

Section OrchestratorKeeps.
Context `{JsonCodec}.
Hypothesis parse_stringify : ∀ v, JSON_parse (JSON_stringify v) = Some v.

Lemma filter_Normal f v valid :
  Js.filter f v = Normal valid →
  ∃ items ys, v = JArr items ∧ valid = JArr ys ∧ Js.filterM f items = Normal ys.
Proof.
  destruct v as [| | | |items|]; try done. cbn.
  destruct (Js.filterM f items) as [ys|e] eqn:Hf; [|done]. intros [= <-]. eauto.
Qed.

Lemma baseline_keeps out :
  keeps (storeUnique out) (baseline out) tt
    (λ o _, ∀ v, o = Normal v → uniqueDomains v).
Proof.
  pose proof (storeUnique_files out) as HI.
  unfold baseline. keeps_step. keeps_step.
  keeps_call (readLoop_keeps (L:=unit) parse_stringify out 3 3 tt).
  intros o l' (-> & v & -> & Hu). keeps_go.
  destruct (Js.length v) as [n|e]; keeps_go; [|done].
  destruct (Js.filter Js.status_not_error v) as [valid|e] eqn:Hfilter; keeps_go; [|done].
  apply filter_Normal in Hfilter as (items & ys & -> & -> & Hys).
  assert (uniqueDomains (JArr ys)) as Hvalid by by eapply uniqueDomains_filter.
  cbn [Js.length]. keeps_go.
  - keeps_call (writeLoop_keeps (L:=unit) parse_stringify out (JArr ys) 3 3); [done|].
    intros o l1 (-> & b & ->). keeps_go. by intros v [= <-].
  - by intros v [= <-].
Qed.

Lemma run_keeps root :
  keeps (storeUnique (path.join (path.join root "output") "domain.json")) (run root) tt
    (λ o _, o = Normal tt).
Proof.
  set (out := path.join (path.join root "output") "domain.json").
  pose proof (storeUnique_files out) as HI.
  unfold run. fold out. keeps_go; try done.
  all: keeps_call (baseline_keeps out).
  all: intros [validResults|e] [] _; keeps_go; try done.
  all: destruct (Js.map Js.entry_domain validResults) as [checked|e]; keeps_go; try done.
  all: eapply keeps_mono;
    [apply (keeps_forOf _ HI _ _ _ (λ _, True)); [done|];
     intros [index batch] l1 _ _; by keeps_go|].
  all: intros o l1 [-> _]; keeps_go.
  all: eapply keeps_mono;
    [apply (keeps_promise_all _ HI); apply Forall_forall; intros p Hp;
     apply elem_of_lookup_imap in Hp as (index & batch & -> & _);
     eapply keeps_mono; [by apply processDomainBatch_keeps|done]|].
  all: intros [[]|e] l2 ->; by keeps_go.
Qed.

Lemma main_keeps root :
  keeps (storeUnique (path.join (path.join root "output") "domain.json")) (main root) tt
    (λ o _, o = Normal 0%Z).
Proof.
  pose proof (storeUnique_files (path.join (path.join root "output") "domain.json")) as HI.
  unfold main. keeps_step. keeps_step. keeps_call run_keeps.
  intros o l ->. by keeps_go.
Qed.

End OrchestratorKeeps.

(** ** The reader reads back what the writer wrote *)

Module MiniJsonFacts.
Import MiniJson.

Lemma app_assoc_s (a b c : string) : (a +:+ b) +:+ c = a +:+ (b +:+ c).
Proof.
  induction a as [|x a IH]; [done|].
  change (String x ((a +:+ b) +:+ c) = String x (a +:+ (b +:+ c))). by rewrite IH.
Qed.

Lemma app_cons_s x (a b : string) : String x a +:+ b = String x (a +:+ b).
Proof. done. Qed.

Lemma app_nil_s (a : string) : EmptyString +:+ a = a.
Proof. done. Qed.

(** *** Strings *)

Lemma read_chars_escape_char a X t r :
  read_chars X = Some (t, r) →
  read_chars (escape_char a +:+ X) = Some (String a t, r).
Proof.
  intros HX.
  destruct a as [[] [] [] [] [] [] [] []].
  all: match goal with
       | |- context [escape_char ?a] =>
           let v := eval vm_compute in (escape_char a) in change (escape_char a) with v
       end.
  all: rewrite !app_cons_s, app_nil_s; cbn [read_chars]; rewrite ?HX; vm_compute;
       reflexivity.
Qed.

Lemma read_chars_escape s rest :
  read_chars (escape s +:+ String "034" rest) = Some (s, rest).
Proof.
  induction s as [|a s IH]; [done|].
  cbn [escape]. rewrite app_assoc_s. by apply read_chars_escape_char.
Qed.

Lemma read_chars_quote s rest :
  ∃ body, quote s +:+ rest = String "034" body ∧ read_chars body = Some (s, rest).
Proof.
  exists (escape s +:+ String "034" rest). split; [|apply read_chars_escape].
  unfold quote. by rewrite app_cons_s, app_assoc_s.
Qed.

(** *** Numbers *)

Lemma string_of_uint_num d : num_string (NilEmpty.string_of_uint d) = true.
Proof. induction d; cbn; auto. Qed.

Lemma write_int_num z : num_string (write_int z) = true ∧ write_int z ≠ EmptyString.
Proof.
  assert (∀ d, num_string (NilZero.string_of_uint d) = true
               ∧ NilZero.string_of_uint d ≠ EmptyString) as Hu.
  { intros d. split; [destruct d; try done; apply (string_of_uint_num (_ d))|].
    by destruct d. }
  unfold write_int. destruct z as [|p|p]; cbn [Z.to_int NilZero.string_of_int].
  - done.
  - apply Hu.
  - destruct (Hu (Pos.to_uint p)) as [Hn _]. split; [|done]. cbn. exact Hn.
Qed.

Lemma span_num_app lexeme rest :
  num_string lexeme = true → ends_number rest →
  span_num (lexeme +:+ rest) = (lexeme, rest).
Proof.
  intros Hn Hrest. induction lexeme as [|a lexeme IH].
  - rewrite app_nil_s. destruct rest as [|a rest]; [done|].
    cbn in Hrest. cbn [span_num]. by rewrite Hrest.
  - cbn in Hn. apply andb_true_iff in Hn as [Ha Hn].
    rewrite app_cons_s. cbn [span_num]. by rewrite Ha, IH.
Qed.

Lemma read_int_write z rest :
  ends_number rest → read_int (write_int z +:+ rest) = Some (JNum z, rest).
Proof.
  intros Hrest. destruct (write_int_num z) as [Hn _].
  unfold read_int. rewrite span_num_app by done.
  unfold write_int at 1. rewrite NilZero.isi.
  - rewrite DecimalZ.of_to. by rewrite decide_True.
  - destruct z; cbn; [done| |done]. intros [= Hp].
    by apply DecimalPos.Unsigned.to_uint_nonnil in Hp.
  - destruct z; cbn; [done|done|]. intros [= Hp].
    by apply DecimalPos.Unsigned.to_uint_nonnil in Hp.
Qed.

Lemma num_char_starts a :
  is_num_char a = true → is_ws a = false ∧ a ≠ "]"%char ∧ a ≠ "}"%char.
Proof.
  intros Ha. destruct a as [[] [] [] [] [] [] [] []]; vm_compute in Ha; try discriminate Ha.
  all: by repeat split.
Qed.

Lemma read_value_num fuel a s :
  is_num_char a = true → read_value (S fuel) (String a s) = read_int (String a s).
Proof.
  intros Ha. destruct a as [[] [] [] [] [] [] [] []]; vm_compute in Ha; try discriminate Ha.
  all: reflexivity.
Qed.

(** *** White space *)

Lemma skip_ws_spaces n s : skip_ws (spaces n +:+ s) = skip_ws s.
Proof. induction n as [|n IH]; [done|]. cbn [spaces]. by rewrite app_cons_s. Qed.

Lemma skip_ws_newline n s : skip_ws (newline n +:+ s) = skip_ws s.
Proof. unfold newline. rewrite app_cons_s. cbn [skip_ws is_ws]. apply skip_ws_spaces. Qed.

Lemma skip_ws_starts s : starts_value s → skip_ws s = s.
Proof. destruct s as [|a s]; [done|]. cbn. by intros [-> _]. Qed.

Lemma skip_ws_idem s : skip_ws (skip_ws s) = skip_ws s.
Proof.
  induction s as [|a s IH]; [done|]. cbn [skip_ws].
  destruct (is_ws a) eqn:Ha; [done|]. cbn [skip_ws]. by rewrite Ha.
Qed.

Lemma read_value_skip fuel s : read_value fuel s = read_value fuel (skip_ws s).
Proof. destruct fuel; [done|]. cbn [read_value]. by rewrite skip_ws_idem. Qed.

Lemma length_newline n : String.length (newline n) = S n.
Proof. unfold newline. cbn. f_equal. induction n; cbn; auto. Qed.

(** *** Arrays and objects *)

Lemma write_arr_cons i x xs :
  write i (JArr (x :: xs))
  = "[" +:+ newline (i + 4) +:+ write (i + 4) x +:+ write_items (i + 4) xs
    +:+ newline i +:+ "]".
Proof.
  cbn [write]. do 4 f_equal.
  induction xs as [|y ys IH]; [done|]. cbn [write_items]. by rewrite <- IH.
Qed.

Lemma write_obj_cons i k x kxs :
  write i (JObj ((k, x) :: kxs))
  = "{" +:+ newline (i + 4) +:+ quote k +:+ ": " +:+ write (i + 4) x
    +:+ write_members (i + 4) kxs +:+ newline i +:+ "}".
Proof.
  cbn [write]. do 6 f_equal.
  induction kxs as [|[k' y] ys IH]; [done|]. cbn [write_members]. by rewrite <- IH.
Qed.

Lemma write_starts i v rest : starts_value (write i v +:+ rest).
Proof.
  destruct v as [|[]|z|s|[|x xs]|[|[k x] kxs]]; try by (hnf; repeat split).
  destruct (write_int_num z) as [Hn Hne]. cbn [write].
    destruct (write_int z) as [|a s]; [done|]. cbn in Hn.
    apply andb_true_iff in Hn as [Ha _]. rewrite app_cons_s. by apply num_char_starts.
Qed.

Lemma length_write_pos i v : 0 < String.length (write i v).
Proof.
  pose proof (write_starts i v EmptyString) as Hs.
  destruct (write i v) as [|a s]; [done|]. cbn. lia.
Qed.

Lemma read_value_arr fuel body :
  starts_value (skip_ws body) →
  read_value (S fuel) (String "[" body)
  = match read_items fuel body with
    | Some (l, rest') => Some (JArr l, rest')
    | None => None
    end.
Proof.
  intros Hs. cbn [read_value skip_ws is_ws].
  destruct (skip_ws body) as [|a s]; [done|]. destruct Hs as (_ & Ha & _).
  destruct a as [[] [] [] [] [] [] [] []]; try reflexivity. done.
Qed.

Lemma read_value_obj fuel body :
  starts_value (skip_ws body) →
  read_value (S fuel) (String "{" body)
  = match read_members fuel body with
    | Some (l, rest') => Some (JObj l, rest')
    | None => None
    end.
Proof.
  intros Hs. cbn [read_value skip_ws is_ws].
  destruct (skip_ws body) as [|a s]; [done|]. destruct Hs as (_ & _ & Ha).
  destruct a as [[] [] [] [] [] [] [] []]; try reflexivity. done.
Qed.

Lemma quote_starts k rest : starts_value (quote k +:+ rest).
Proof. by (hnf; repeat split). Qed.

Lemma ends_number_items i xs j rest :
  ends_number (write_items i xs +:+ newline j +:+ rest).
Proof. by destruct xs. Qed.

Lemma ends_number_members i kxs j rest :
  ends_number (write_members i kxs +:+ newline j +:+ rest).
Proof. by destruct kxs as [|[k x] kxs]. Qed.

Lemma app_nil_r_s (a : string) : a +:+ EmptyString = a.
Proof. induction a as [|x a IH]; [done|]. rewrite app_cons_s. by rewrite IH. Qed.

Ltac lengths H :=
  rewrite ?length_append, ?length_newline in H; cbn [String.length] in H.

(** With fuel for the characters written, the reader reads a written
    value, the items of a written array and the members of a written
    object back, and stops where they end. *)
Lemma reads_back fuel :
  (∀ v i rest, String.length (write i v) ≤ fuel → ends_number rest →
     read_value fuel (write i v +:+ rest) = Some (v, rest))
  ∧ (∀ x xs i j rest,
       String.length (write i x +:+ write_items i xs) < fuel →
       read_items fuel (newline i +:+ write i x +:+ write_items i xs
                        +:+ newline j +:+ "]" +:+ rest)
       = Some (x :: xs, rest))
  ∧ (∀ k x kxs i j rest,
       String.length (quote k +:+ write i x +:+ write_members i kxs) < fuel →
       read_members fuel (newline i +:+ quote k +:+ ": " +:+ write i x
                          +:+ write_members i kxs +:+ newline j +:+ "}" +:+ rest)
       = Some ((k, x) :: kxs, rest)).
Proof.
  induction fuel as [|f (IHv & IHi & IHm)].
  { split; [|split; intros; lia].
    intros v i rest Hlen _. pose proof (length_write_pos i v). lia. }
  split; [|split].
  - intros v i rest Hlen Hrest.
    destruct v as [|[]|z|s|[|x xs]|[|[k x] kxs]]; try reflexivity.
    + destruct (write_int_num z) as [Hn Hne]. cbn [write].
      destruct (write_int z) as [|a t] eqn:Hz; [done|]. cbn in Hn.
      apply andb_true_iff in Hn as [Ha _].
      rewrite app_cons_s, (read_value_num _ _ _ Ha), <- app_cons_s, <- Hz.
      by apply read_int_write.
    + cbn [write]. destruct (read_chars_quote s rest) as (body & -> & Hb).
      cbn [read_value skip_ws is_ws]. by rewrite Hb.
    + rewrite write_arr_cons in *. rewrite !app_assoc_s, app_cons_s, app_nil_s.
      rewrite read_value_arr.
      2:{ rewrite skip_ws_newline, skip_ws_starts by apply write_starts.
          apply write_starts. }
      rewrite IHi; [done|]. lengths Hlen. rewrite length_append. lia.
    + rewrite write_obj_cons in *. rewrite !app_assoc_s, app_cons_s, app_nil_s.
      rewrite read_value_obj.
      2:{ rewrite skip_ws_newline, skip_ws_starts by apply quote_starts.
          apply quote_starts. }
      rewrite (IHm k x kxs (i + 4) i rest); [done|].
      lengths Hlen. rewrite !length_append. lia.
  - intros x xs i j rest Hlen. cbn [read_items].
    rewrite read_value_skip, skip_ws_newline, skip_ws_starts by apply write_starts.
    rewrite length_append in Hlen.
    rewrite IHv; [|lia|apply ends_number_items].
    destruct xs as [|y ys].
    + cbn [write_items]. rewrite app_nil_s, skip_ws_newline. reflexivity.
    + cbn [write_items] in *. rewrite !app_assoc_s, app_cons_s, app_nil_s.
      cbn [skip_ws is_ws]. rewrite IHi; [done|].
      lengths Hlen. rewrite length_append. lia.
  - intros k x kxs i j rest Hlen. cbn [read_members].
    rewrite skip_ws_newline, skip_ws_starts by apply quote_starts.
    destruct (read_chars_quote k (": " +:+ write i x +:+ write_members i kxs
                                  +:+ newline j +:+ "}" +:+ rest))
      as (body & -> & ->).
    rewrite (app_cons_s ":" " "). cbn [skip_ws is_ws].
    rewrite read_value_skip, (app_cons_s " " EmptyString), app_nil_s. cbn [skip_ws is_ws].
    rewrite skip_ws_starts by apply write_starts.
    rewrite !length_append in Hlen.
    rewrite IHv; [|lia|apply ends_number_members].
    destruct kxs as [|[k' y] ys].
    + cbn [write_members]. rewrite app_nil_s, skip_ws_newline. reflexivity.
    + cbn [write_members] in *. rewrite !app_assoc_s.
      rewrite (app_cons_s "," EmptyString), app_nil_s.
      cbn [skip_ws is_ws]. rewrite IHm; [done|].
      lengths Hlen. rewrite !length_append. lia.
Qed.

(** The reader reads back every document the writer writes. *)
Lemma parse_stringify (v : json) : parse (stringify v) = Some v.
Proof.
  unfold parse, stringify.
  destruct (reads_back (S (String.length (write 0 v)))) as [Hv _].
  specialize (Hv v 0 EmptyString). rewrite app_nil_r_s in Hv.
  rewrite Hv; [done|lia|done].
Qed.
End MiniJsonFacts.

(** ** Runs of the program on the reader and writer of JSON *)

Section Counterexamples.
Existing Instance MiniJson.codec.
Import Demo.



(** C8, as stated, fails: when the input file is missing the process
    leaves with status 0, as it does when no session can be created. *)
Lemma missing_input_exits_with_zero :
  (exitStatus "/app" (world [] [])).1 = Normal 0%Z
  ∧ (exitStatus "/app" (world [("/app/input/domains.txt", "a.com")] [])).1 = Normal 0%Z.
Proof. vm_compute. by split. Qed.


(** C10, as stated, fails: the document [null] is valid JSON, and the
    load answers the empty sequence, not [null], and resets the file. *)
Lemma load_of_null_is_not_passed_through :
  let w := world [(store, "null")] [] in
  let '(o, _, w') := exec [] (safelyReadResultsFile store 3 tt w) in
  JSON_parse "null" = Some JNull
  ∧ o = Normal (JArr [])
  ∧ files w' !! store = Some "[]".
Proof. vm_compute. by repeat split. Qed.
End Counterexamples.

Section Witnesses.
Existing Instance MiniJson.codec.
Import Demo.



Lemma load_passes_parsed_value_through_witness :
  let w := world [(store, document oddRecords)] [] in
  JSON_parse (document oddRecords) = Some oddRecords
  ∧ ∃ w', safelyReadResultsFile store 3 tt w = Fin (Normal oddRecords) tt w'
          ∧ files w' = files w.
Proof.
  intros w. split; [vm_compute; reflexivity|].
  destruct (load_passes_parsed_value_through store (document oddRecords) oddRecords tt w)
    as (Hpass & _); try (vm_compute; congruence).
  by apply Hpass.
Defined.
End Witnesses.

(** ** More about the result store *)

Section StoreMore.
Context `{JsonCodec} {L : Type}.

Lemma backup_ne_tmp p : p +:+ ".backup" ≠ p +:+ ".tmp".
Proof. intros Heq. by apply String.app_inj in Heq. Qed.

(** What a save finds and leaves, when no file system call fails. *)
Lemma write_files p items (l : L) w :
  faults w = [] → p ∉ dirs w → path.dirname p ≠ p →
  ∃ w', safelyWriteResultsFile p (JArr items) 3 l w = Fin (Normal true) l w'
        ∧ faults w' = [] ∧ clock w' = clock w
        ∧ files w' = <[p:=JSON_stringify (JArr items)]>
                       (match files w !! p with
                        | Some old => <[p +:+ ".backup":=old]> (delete (p +:+ ".tmp") (files w))
                        | None => delete (p +:+ ".tmp") (files w)
                        end).
Proof.
  intros Hf Hd Hdir. destruct w as [fs ds ck fl rm sc tr]. cbn in Hf, Hd. subst fl.
  unfold safelyWriteResultsFile. cbn [writeLoop]. unfold writeAttempt.
  prog_run.
  all: try (exfalso; apply bool_decide_eq_true in Hb0; set_solver).
  all: eexists; split; [reflexivity|]; cbn; split; [done|].
  all: split; [done|].
  all: rewrite ?Hlook; try (rewrite delete_insert_eq); try done.
  all: rewrite delete_insert_ne; [done|]; intros Heq; symmetry in Heq;
       by apply backup_ne_tmp in Heq.
Qed.

(** X1.  After a save that meets no fault, the store holds the new document,
    the temporary file is gone, [<path>.backup] holds the document the
    store held before (it is left alone when there was no store), and
    every other file is as it was. *)
Theorem save_keeps_the_previous_document
    (filePath : string) (items : list json) (l : L) (w : World) :
  faults w = [] → filePath ∉ dirs w → path.dirname filePath ≠ filePath →
  ∃ w', safelyWriteResultsFile filePath (JArr items) 3 l w = Fin (Normal true) l w'
        ∧ files w' !! filePath = Some (JSON_stringify (JArr items))
        ∧ files w' !! (filePath +:+ ".tmp") = None
        ∧ files w' !! (filePath +:+ ".backup")
          = match files w !! filePath with
            | Some old => Some old
            | None => files w !! (filePath +:+ ".backup")
            end
        ∧ ∀ q, ¬ storeFile filePath q → files w' !! q = files w !! q.
Proof.
  intros Hf Hd Hdir.
  destruct (write_files filePath items l w Hf Hd Hdir) as (w' & Hrun & _ & _ & Hfiles).
  exists w'. split; [done|]. rewrite Hfiles.
  assert (filePath +:+ ".tmp" ≠ filePath) as Htmp by apply tmp_ne.
  assert (filePath +:+ ".backup" ≠ filePath) as Hbak by apply backup_ne.
  pose proof (backup_ne_tmp filePath) as Hbt.
  split; [by rewrite lookup_insert_eq|].
  split.
  { rewrite lookup_insert_ne by done.
    destruct (files w !! filePath);
      [rewrite lookup_insert_ne by done|]; by rewrite lookup_delete_eq. }
  split.
  { rewrite lookup_insert_ne by done.
    destruct (files w !! filePath); [by rewrite lookup_insert_eq|].
    by rewrite lookup_delete_ne. }
  intros q Hq. unfold storeFile in Hq.
  rewrite lookup_insert_ne by (intros <-; apply Hq; by left).
  destruct (files w !! filePath).
  - rewrite lookup_insert_ne by (intros <-; apply Hq; right; right; by left).
    rewrite lookup_delete_ne by (intros <-; apply Hq; right; by left). done.
  - rewrite lookup_delete_ne by (intros <-; apply Hq; right; by left). done.
Qed.

(** X2.  A save followed by a load gives the records back, when no file
    system call fails and the reader reads back what the writer wrote
    for these records. *)
Theorem save_then_load_gives_the_records
    (filePath : string) (items : list json) (l : L) (w : World) :
  faults w = [] → filePath ∉ dirs w → path.dirname filePath ≠ filePath →
  JSON_parse (JSON_stringify (JArr items)) = Some (JArr items) →
  JsString.trim (JSON_stringify (JArr items)) ≠ EmptyString →
  ∃ w1 w2,
    safelyWriteResultsFile filePath (JArr items) 3 l w = Fin (Normal true) l w1
    ∧ safelyReadResultsFile filePath 3 l w1 = Fin (Normal (JArr items)) l w2
    ∧ files w2 = files w1.
Proof.
  intros Hf Hd Hdir Hparse Htrim.
  destruct (write_files filePath items l w Hf Hd Hdir) as (w1 & Hrun & Hf1 & _ & Hfiles).
  assert (files w1 !! filePath = Some (JSON_stringify (JArr items))) as Hp.
  { rewrite Hfiles. by rewrite lookup_insert_eq. }
  destruct (read_valid filePath 2 _ (JArr items) l w1 Hf1 Hp Htrim Hparse) as [msg Hread];
    [done|].
  exists w1. eexists. split; [done|]. split; [exact Hread|done].
Qed.

(** *** The load of [src/scrape/scraper.ts] *)

Lemma scraper_readAttempt_spec p (l : L) w :
  ∃ o w' evs, Scraper.readAttempt p l w = Fin o l w' ∧ trace w' = trace w ++ evs
    ∧ Forall readsOnly evs ∧ sleeps evs = [].
Proof.
  unfold Scraper.readAttempt, parse. prog_run.
  all: do 3 eexists; split; [reflexivity|]; cbn.
  all: split; [try reflexivity; try (symmetry; apply app_nil_r)|].
  all: split; [by repeat constructor|done].
Qed.

Lemma scraper_readLoop_spec p maxRetries left (l : L) w :
  safe (λ _, True) interference
    (λ o l' w', l' = l ∧ ∃ v evs failed,
       o = Normal v ∧ trace w' = trace w ++ evs ∧ Forall readsOnly evs
       ∧ failed ≤ left ∧ sleeps evs = replicate failed 1000
       ∧ (failed = left → v = JArr []))
    (Scraper.readLoop p maxRetries left l w).
Proof.
  revert w. induction left as [|left IH]; intros w.
  - cbn. split; [done|]. eexists _, _, 0. split; [done|]. split; [reflexivity|].
    split; [by repeat constructor|]. by repeat split.
  - cbn [Scraper.readLoop]. unfold try_catch.
    destruct (scraper_readAttempt_spec p l w) as (o & w1 & evs1 & -> & Ht1 & Hev1 & Hs1).
    destruct o as [v|e].
    + cbn. split; [done|]. exists v, evs1, 0. split; [done|]. split; [done|].
      split; [done|]. split; [lia|]. split; [done|]. lia.
    + cbn. split; [done|]. intros w2 (_ & _ & _ & Ht2).
      eapply safe_mono; [|apply IH].
      intros o l' w' (-> & v & evs2 & failed & -> & Ht' & Hev2 & Hle & Hsl & Hex).
      split; [done|]. cbn in Ht2.
      exists v. eexists (evs1 ++ [ConsoleError _; Sleep 1000] ++ evs2), (S failed).
      split; [done|]. split; [rewrite Ht', Ht2, Ht1; by rewrite <- !app_assoc|].
      split; [apply Forall_app; split; [done|]; apply Forall_app; split;
              [by repeat constructor|done]|].
      split; [lia|]. split; [by rewrite !sleeps_app, Hs1, Hsl|].
      intros [= ->]. auto.
Qed.

End StoreMore.

(** ** More about the availability checker *)

Section CheckerMore.
Context {L : Type}.

Lemma probes_app evs1 evs2 : probes (evs1 ++ evs2) = probes evs1 ++ probes evs2.
Proof. apply omap_app. Qed.

Lemma fallbacks_app evs1 evs2 : fallbacks (evs1 ++ evs2) = fallbacks evs1 ++ fallbacks evs2.
Proof. apply omap_app. Qed.

Ltac attempt_ends :=
  split; [done|]; split; [by eexists|]; split; [solve_Forall|];
  exists 0; split; [lia|]; cbn; split; [done|]; split; [done|]; auto.

Lemma attempts_last domain (l : L) :
  runs (checkDomainAvailabilityName domain 0) l (attempts domain 0 l).
Proof.
  cbn [checkDomainAvailabilityName]. unfold searchBox. runs_go.
  all: try discriminate.
  all: attempt_ends.
Qed.

Lemma attempts_retry domain left (l : L) :
  left < 2 →
  runs (checkDomainAvailabilityName domain left) l (attempts domain left l) →
  runs (checkDomainAvailabilityName domain (S left)) l (attempts domain (S left) l).
Proof.
  intros Hleft IH. cbn [checkDomainAvailabilityName].
  destruct left as [|[|left]]; [| |lia]; cbn [Nat.sub]; runs_go.
  all: try discriminate.
  all: try attempt_ends.
  all: runs_call IH; intros o l' evs (-> & [s ->] & Hq & n & Hn & Hp & Hs & Hfb);
       cbv beta iota; split; [done|]; split; [by eexists|]; split; [solve_Forall|];
       exists (S n); split; [lia|].
  all: rewrite !probes_app, !sleeps_app, !fallbacks_app, Hp, Hs.
  all: split; [reflexivity|]; split; [reflexivity|].
  all: destruct Hfb as [Hfb|[-> Hfb]]; rewrite Hfb; auto.
Qed.

(** X4.  The checker never raises and touches no file.  It probes the results
    page of the domain at most 3 times, waiting 5000 ms before the 2nd
    probe and 10000 ms before the 3rd, and turns to the search box of
    the home page at most once, after the 3rd probe. *)
Theorem checker_probes_three_times_with_growing_delays (domain : string) (l : L) :
  runs (checkDomainAvailabilityName domain 2) l
    (λ o l' evs,
       l' = l ∧ (∃ status, o = Normal status) ∧ Forall quiet evs
       ∧ ∃ retries, retries ≤ 2
           ∧ probes evs = replicate (S retries) (searchUrl domain)
           ∧ sleeps evs = (λ k, 5000 * k) <$> seq 1 retries
           ∧ (fallbacks evs = [] ∨ (retries = 2 ∧ fallbacks evs = [domain])))
  ∧ runs (checkDomainAvailability domain) l
      (λ o l' evs, l' = l ∧ (∃ status, o = Normal status) ∧ Forall quiet evs).
Proof.
  split.
  - eapply runs_mono.
    { apply attempts_retry; [lia|]. apply attempts_retry; [lia|]. apply attempts_last. }
    intros o l' evs (-> & Hs & Hq & n & Hn & Hp & Hsl & Hfb).
    split; [done|]. split; [done|]. split; [done|]. exists n.
    split; [done|]. split; [done|]. split; [|done].
    rewrite Hsl. by destruct n as [|[|[|n]]]; [| | |lia].
  - eapply runs_mono; [apply checkDomainAvailability_runs|].
    intros o l' evs (-> & Hs & m & rest & -> & Hq). split; [done|]. split; [done|].
    by repeat constructor.
Qed.

End CheckerMore.

(** ** Rules for [solo] *)

Section SoloRules.
Context {L : Type}.
Implicit Types (l : L) (w : World).

Lemma solo_exec {A} (m : Prog L A) l w (Q : Outcome A → L → World → Prop) :
  solo m l w Q → let '(o, l', w') := exec [] (m l w) in Q o l' w'.
Proof.
  intros Hm.
  apply (safe_exec (λ _, True) (λ w1 w2, w2 = w1) Q [] (m l w)); [constructor|done|exact Hm].
Qed.

Lemma solo_finish {A} (m : Prog L A) l w (Q : Outcome A → L → World → Prop) :
  solo m l w Q → let '(o, l', w') := finish (m l w) in Q o l' w'.
Proof.
  unfold solo. generalize (m l w). intros r.
  induction r as [o l' w'|w' k IH]; cbn; [done|]. intros [_ Hk]. by apply IH, Hk.
Qed.

Lemma solo_mono {A} (m : Prog L A) l w (Q Q' : Outcome A → L → World → Prop) :
  solo m l w Q → (∀ o l' w', Q o l' w' → Q' o l' w') → solo m l w Q'.
Proof. intros Hm HQ. eapply safe_mono; [exact HQ|exact Hm]. Qed.

(** A computation that does not wait. *)
Lemma solo_now {A} (m : Prog L A) l w (Q : Outcome A → L → World → Prop) :
  match m l w with
  | Fin o l' w' => Q o l' w'
  | Paused _ _ => False
  end →
  solo m l w Q.
Proof. unfold solo. by destruct (m l w). Qed.

Lemma solo_sleep ms l w (Q : Outcome unit → L → World → Prop) :
  Q (Normal tt) l (emit (Sleep ms) (set_clock (clock w + N.of_nat ms) w)) →
  solo (sleep ms) l w Q.
Proof. intros HQ. split; [done|]. by intros w' ->. Qed.

Lemma solo_remote op l w (Q : Outcome (bool * string) → L → World → Prop) :
  match remote w with
  | Succeeds b content :: rs =>
      Q (Normal (b, content)) l (set_remote rs (emit (Remote op) w))
  | Fails :: rs => Q (Thrown RemoteError) l (set_remote rs (emit (Remote op) w))
  | [] => Q (Thrown RemoteError) l (emit (Remote op) w)
  end →
  solo (remoteCall op) l w Q.
Proof.
  intros HQ. split; [done|]. intros w' ->. cbn.
  by destruct (remote w) as [|[|b c] rs].
Qed.

Lemma solo_bind {A B} (m : Prog L A) (f : A → Prog L B) l w
    (Q : Outcome B → L → World → Prop) :
  solo m l w (λ o l1 w1, match o with
                         | Normal a => solo (f a) l1 w1 Q
                         | Thrown e => Q (Thrown e) l1 w1
                         end) →
  solo (m ≫= f) l w Q.
Proof. intros Hm. unfold solo, mbind, prog_bind, bind. by apply safe_bind. Qed.

Lemma solo_catch {A} (m : Prog L A) (h : Exn → Prog L A) l w
    (Q : Outcome A → L → World → Prop) :
  solo m l w (λ o l1 w1, match o with
                         | Normal a => Q (Normal a) l1 w1
                         | Thrown e => solo (h e) l1 w1 Q
                         end) →
  solo (try_catch m h) l w Q.
Proof. intros Hm. unfold solo, try_catch. by apply safe_catch. Qed.

Lemma solo_finally {A} (m : Prog L A) (f : Prog L unit) l w
    (Q : Outcome A → L → World → Prop) :
  solo m l w (λ o l1 w1,
                solo f l1 w1 (λ o' l2 w2, match o' with
                                          | Normal _ => Q o l2 w2
                                          | Thrown e => Q (Thrown e) l2 w2
                                          end)) →
  solo (try_finally m f) l w Q.
Proof. intros Hm. unfold solo, try_finally. by apply safe_finally. Qed.

Lemma solo_await {A} (m : Prog L A) l w (Q : Outcome A → L → World → Prop) :
  solo m l w Q → solo (await m) l w Q.
Proof.
  intros Hm. unfold solo, await. apply safe_await.
  eapply safe_mono; [|exact Hm]. intros o l1 w1 HQ. split; [done|]. by intros w' ->.
Qed.

Lemma solo_ret {A} (a : A) l w (Q : Outcome A → L → World → Prop) :
  Q (Normal a) l w → solo (mret a) l w Q.
Proof. done. Qed.

Lemma solo_lift {A} (o : Outcome A) l w (Q : Outcome A → L → World → Prop) :
  Q o l w → solo (lift o) l w Q.
Proof. done. Qed.

Lemma solo_throw {A} e l w (Q : Outcome A → L → World → Prop) :
  Q (Thrown e) l w → solo (throw e) l w Q.
Proof. done. Qed.

Lemma solo_getLocals l w (Q : Outcome L → L → World → Prop) :
  Q (Normal l) l w → solo getLocals l w Q.
Proof. done. Qed.

Lemma solo_setLocals l l' w (Q : Outcome unit → L → World → Prop) :
  Q (Normal tt) l' w → solo (setLocals l') l w Q.
Proof. done. Qed.

Lemma solo_log msg l w (Q : Outcome unit → L → World → Prop) :
  Q (Normal tt) l (emit (ConsoleLog msg) w) → solo (console_log msg) l w Q.
Proof. done. Qed.

Lemma solo_error msg l w (Q : Outcome unit → L → World → Prop) :
  Q (Normal tt) l (emit (ConsoleError msg) w) → solo (console_error msg) l w Q.
Proof. done. Qed.

Lemma solo_existsSync p l w (Q : Outcome bool → L → World → Prop) :
  Q (Normal (bool_decide (is_Some (files w !! p)) || bool_decide (p ∈ dirs w))) l w →
  solo (fs.existsSync p) l w Q.
Proof. done. Qed.

(** A file system call in a world where no fault is to come. *)
Lemma solo_fallible {A} (op : World → Outcome A * World) l w
    (Q : Outcome A → L → World → Prop) :
  faults w = [] → Q (op w).1 l (op w).2 → solo (fs.fallible op) l w Q.
Proof.
  intros Hf HQ. unfold solo, fs.fallible, fs.take_fault. rewrite Hf.
  by destruct (op w).
Qed.
End SoloRules.

Ltac solo_world :=
  cbn [faults files dirs clock remote schedule trace emit set_files set_dirs set_clock
       set_faults set_remote set_schedule fst snd].

Ltac solo_step :=
  lazymatch goal with
  | |- solo (_ ≫= _) _ _ _ => apply solo_bind
  | |- solo (try_catch _ _) _ _ _ => apply solo_catch
  | |- solo (try_finally _ _) _ _ _ => apply solo_finally
  | |- solo (await _) _ _ _ => apply solo_await
  | |- solo (sleep _) _ _ _ => apply solo_sleep
  | |- solo (remoteCall _) _ _ _ => apply solo_remote; solo_world
  | |- solo (console_log _) _ _ _ => apply solo_log
  | |- solo (console_error _) _ _ _ => apply solo_error
  | |- solo (mret _) _ _ _ => apply solo_ret
  | |- solo (ret _) _ _ _ => apply solo_ret
  | |- solo (lift _) _ _ _ => apply solo_lift
  | |- solo (throw _) _ _ _ => apply solo_throw
  | |- solo getLocals _ _ _ => apply solo_getLocals
  | |- solo (setLocals _) _ _ _ => apply solo_setLocals
  | |- solo (fs.existsSync _) _ _ _ => apply solo_existsSync; solo_world
  | |- solo (fs.mkdirSync _) _ _ _ =>
      unfold fs.mkdirSync; apply solo_fallible; [solo_world; try done|solo_world]
  | |- solo (fs.writeFileSync _ _) _ _ _ =>
      unfold fs.writeFileSync; apply solo_fallible; [solo_world; try done|solo_world]
  | |- solo (fs.readFileSync _) _ _ _ =>
      unfold fs.readFileSync; apply solo_fallible; [solo_world; try done|solo_world]
  | |- solo (fs.copyFileSync _ _) _ _ _ =>
      unfold fs.copyFileSync; apply solo_fallible; [solo_world; try done|solo_world]
  | |- solo (fs.renameSync _ _) _ _ _ =>
      unfold fs.renameSync; apply solo_fallible; [solo_world; try done|solo_world]
  | |- solo (when ?b _) _ _ _ =>
      let b' := eval cbn in b in
      lazymatch b' with
      | true => change b with true
      | false => change b with false
      end; cbv beta iota delta [when]
  | |- solo (if ?b then _ else _) _ _ _ =>
      let b' := eval cbn in b in
      lazymatch b' with
      | true => change b with true
      | false => change b with false
      end; cbv beta iota
  end.

Ltac solo_go := repeat (solo_step; cbv beta iota).

Section CheckerDecides.
Context {L : Type}.

Lemma solo_result {A} (m : Prog L A) (l : L) w (a : A) rs :
  solo m l w (λ o l' w', o = Normal a ∧ l' = l ∧ remote w' = rs) →
  ∃ w', exec [] (m l w) = (Normal a, l, w') ∧ remote w' = rs.
Proof.
  intros Hm. apply solo_exec in Hm.
  destruct (exec [] (m l w)) as [[o l'] w']. destruct Hm as (-> & -> & Hr). eauto.
Qed.

(** X5.  The status follows the replies of the site.  The first probe that
    answers decides between [available] and [unavailable]; when three
    probes in a row fail, the page found through the search box decides,
    and the status is [error] when that fails too. *)
Theorem checker_status_follows_the_replies (domain : string) (l : L) (w : World) :
  (∀ n isAvailable content rs,
     n ≤ 2 → remote w = replicate n Fails ++ Succeeds isAvailable content :: rs →
     ∃ w', exec [] (checkDomainAvailabilityName domain 2 l w)
           = (Normal (if isAvailable then available else unavailable), l, w')
           ∧ remote w' = rs)
  ∧ (∀ isAvailable pageContent rs,
       remote w = [Fails; Fails; Fails; Succeeds isAvailable pageContent] ++ rs →
       ∃ w', exec [] (checkDomainAvailabilityName domain 2 l w)
             = (Normal (pageStatus pageContent), l, w')
             ∧ remote w' = rs)
  ∧ (∀ rs,
       remote w = [Fails; Fails; Fails; Fails] ++ rs →
       ∃ w', exec [] (checkDomainAvailabilityName domain 2 l w) = (Normal error, l, w')
             ∧ remote w' = rs)
  ∧ (∀ n,
       n ≤ 3 → remote w = replicate n Fails →
       ∃ w', exec [] (checkDomainAvailabilityName domain 2 l w) = (Normal error, l, w')
             ∧ remote w' = []).
Proof.
  destruct w as [fs ds ck fl rm sc tr]. cbn [remote]. split; [|split; [|split]].
  - intros n b c rs Hn ->. apply solo_result.
    destruct n as [|[|[|n]]]; [| | |lia]; destruct b;
      cbn [checkDomainAvailabilityName replicate app]; solo_go; by repeat split.
  - intros b c rs ->. apply solo_result.
    cbn [checkDomainAvailabilityName replicate app]. unfold searchBox, pageStatus.
    solo_go.
    destruct (_ && _); [solo_go; by repeat split|].
    destruct (_ || _); solo_go; by repeat split.
  - intros rs ->. apply solo_result.
    cbn [checkDomainAvailabilityName replicate app]. unfold searchBox.
    solo_go. by repeat split.
  - intros n Hn ->. apply solo_result.
    destruct n as [|[|[|[|n]]]]; [| | | |lia];
      cbn [checkDomainAvailabilityName replicate app]; unfold searchBox;
      solo_go; by repeat split.
Qed.
End CheckerDecides.

(** ** More about the pure parts: the URL cleaner, the batches, the two
    ways of dropping duplicate input lines *)

Section CleanDomain.

Lemma startsWith_split p s :
  JsString.startsWith p s = true → s = p +:+ JsString.drop (String.length p) s.
Proof.
  revert s. induction p as [|a p IH]; intros [|b s]; simpl; try done.
  destruct (decide (a = b)) as [->|]; [|done].
  intros Hs. change (String b p +:+ ?x) with (String b (p +:+ x)). f_equal. by apply IH.
Qed.

Lemma startsWith_app p s : JsString.startsWith p (p +:+ s) = true.
Proof.
  induction p as [|a p IH]; [done|].
  change (String a p +:+ s) with (String a (p +:+ s)). simpl. by rewrite decide_True.
Qed.

(** X6.  The regular expression [/^(https?:\/\/)?(www\.)?/] removes at most one
    scheme and then at most one [www.]: the argument is the scheme, the
    [www.] and the result in a row, a scheme is removed whenever the
    argument starts with one, a [www.] whenever what follows the scheme
    starts with one, and nothing else is touched. *)
Theorem cleanDomain_strips_one_scheme_then_one_www (domain : string) :
  ∃ scheme www,
    domain = scheme +:+ www +:+ cleanDomain domain
    ∧ scheme ∈ ["https://"; "http://"; ""]
    ∧ www ∈ ["www."; ""]
    ∧ (scheme = "" → JsString.startsWith "https://" domain = false
                     ∧ JsString.startsWith "http://" domain = false)
    ∧ (www = "" → JsString.startsWith "www." (JsString.drop (String.length scheme) domain)
                  = false).
Proof.
  unfold cleanDomain, JsString.stripPrefix.
  destruct (JsString.startsWith "https://" domain) eqn:E1;
    [exists "https://"
    |destruct (JsString.startsWith "http://" domain) eqn:E2; [exists "http://"|exists ""]].
  all: match goal with
       | |- context [if JsString.startsWith "www." ?s then _ else _] =>
           destruct (JsString.startsWith "www." s) eqn:E3; [exists "www."|exists ""]
       end.
  all: split; [|repeat split; try done; set_solver].
  all: try rewrite <- (startsWith_split "www." _ E3).
  all: change ("" +:+ ?x) with x.
  all: try done.
  all: by apply startsWith_split.
Qed.

(** The cleaner is not idempotent: a second scheme or [www.] survives. *)
Lemma cleanDomain_twice :
  cleanDomain "www.www.a.com" = "www.a.com" ∧ cleanDomain "www.a.com" = "a.com".
Proof. done. Qed.

End CleanDomain.

Section Batches.
Import Partition PartitionFacts.

Lemma sum_alter_snoc (d : string) i (bs : list (list string)) :
  i < length bs →
  sum_list (length <$> alter (λ b, b ++ [d]) i bs) = S (sum_list (length <$> bs)).
Proof.
  revert i. induction bs as [|b bs IH]; intros [|i] Hi; simpl in Hi; try lia.
  - cbn [alter list_alter fmap list_fmap sum_list sum_list_with]. rewrite length_app. simpl. lia.
  - cbn [alter list_alter fmap list_fmap sum_list sum_list_with].
    specialize (IH i ltac:(lia)). cbn [alter fmap] in IH. rewrite IH. lia.
Qed.

Lemma distribute_sum K i ds bs :
  0 < K → length bs = K →
  sum_list (length <$> distribute K i ds bs) = sum_list (length <$> bs) + length ds.
Proof.
  intros HK. revert i bs. induction ds as [|d ds IH]; intros i bs Hbs; cbn [distribute].
  { simpl. lia. }
  rewrite IH by (rewrite length_alter; exact Hbs).
  rewrite sum_alter_snoc; [simpl; lia|]. rewrite Hbs. apply Nat.mod_upper_bound. lia.
Qed.

Lemma batch_length K ds j b :
  0 < K → j < K →
  distribute K 0 ds (replicate K []) !! j = Some b →
  (∀ r, r < length b ↔ r * K + j < length ds).
Proof.
  intros HK Hj Hb r. pose proof (distribute_lookup K ds j b HK Hj Hb r) as Hr.
  split; intros Hlt.
  - apply lookup_lt_is_Some_2 in Hlt as [x Hx]. rewrite Hr in Hx.
    by apply lookup_lt_Some in Hx.
  - apply lookup_lt_is_Some_2 in Hlt as [x Hx]. rewrite <- Hr in Hx.
    by apply lookup_lt_Some in Hx.
Qed.

(** X7.  [run] deals every domain to exactly one batch, no batch stays empty
    (so no session is opened for nothing), there are at most three
    batches, and two batches differ by at most one domain. *)
Theorem batches_are_balanced (domainsToCheck : list string) :
  let batches := domainBatches domainsToCheck in
  length batches = Nat.min 3 (length domainsToCheck)
  ∧ sum_list (length <$> batches) = length domainsToCheck
  ∧ Forall (λ batch, batch ≠ []) batches
  ∧ (∀ i j batch batch', batches !! i = Some batch → batches !! j = Some batch' →
       length batch ≤ S (length batch')).
Proof.
  unfold domainBatches, numberOfSessions.
  remember (Nat.min 3 (length domainsToCheck)) as K eqn:HKdef.
  assert (K ≤ length domainsToCheck) as HKle by lia.
  destruct (decide (K = 0)) as [HK0|HK0].
  { assert (domainsToCheck = []) as -> by (destruct domainsToCheck; [done|simpl in *; lia]).
    subst K.
    simpl. repeat split; [by constructor|]. intros i j b b' Hb. by rewrite lookup_nil in Hb. }
  assert (0 < K) as HK by lia. cbn zeta.
  split; [by rewrite distribute_length, length_replicate|].
  clear HKdef. split.
  { rewrite distribute_sum by (by rewrite ?length_replicate).
    replace (sum_list (length <$> replicate K ([] : list string))) with 0; [done|].
    clear. induction K; simpl; [done|]. done. }
  split.
  - apply Forall_lookup. intros j b Hb.
    assert (j < K) as Hj.
    { apply lookup_lt_Some in Hb. by rewrite distribute_length, length_replicate in Hb. }
    pose proof (batch_length K domainsToCheck j b HK Hj Hb 0) as H0.
    destruct H0 as [_ H0]. destruct b; [|done]. simpl in H0. lia.
  - intros i j b b' Hb Hb'.
    assert (i < K) as Hi.
    { apply lookup_lt_Some in Hb. by rewrite distribute_length, length_replicate in Hb. }
    assert (j < K) as Hj.
    { apply lookup_lt_Some in Hb'. by rewrite distribute_length, length_replicate in Hb'. }
    pose proof (batch_length K domainsToCheck i b HK Hi Hb) as Hlb.
    pose proof (batch_length K domainsToCheck j b' HK Hj Hb') as Hlb'.
    destruct (decide (length b ≤ S (length b'))) as [|Hn]; [done|].
    assert (S (length b') < length b) as H1 by lia.
    apply Hlb in H1.
    assert (¬ length b' < length b') as H2 by lia.
    rewrite Hlb' in H2. nia.
Qed.

End Batches.

Section Dedupe.
Import Sequential InputFacts.

Lemma indexOfFrom_bounds x self i :
  x ∈ self → (i ≤ indexOfFrom x self i < i + Z.of_nat (length self))%Z.
Proof.
  revert i. induction self as [|y self IH]; intros i Hx; [by apply elem_of_nil in Hx|].
  simpl. destruct (decide (y = x)) as [->|Hne]; [lia|].
  apply elem_of_cons in Hx as [->|Hx]; [done|]. specialize (IH (i + 1)%Z Hx). lia.
Qed.

Lemma indexOfFrom_app x xs ys i :
  indexOfFrom x (xs ++ ys) i
  = if decide (x ∈ xs) then indexOfFrom x xs i
    else indexOfFrom x ys (i + Z.of_nat (length xs))%Z.
Proof.
  revert i. induction xs as [|y xs IH]; intros i.
  - cbn [app length]. rewrite decide_False by (by intros ?%elem_of_nil). f_equal. lia.
  - cbn [app length indexOfFrom]. destruct (decide (y = x)) as [->|Hne].
    + by rewrite decide_True by (by left).
    + rewrite IH. destruct (decide (x ∈ xs)) as [Hin|Hin].
      * by rewrite decide_True by (by right).
      * rewrite decide_False by (intros [->|?]%elem_of_cons; done). f_equal. lia.
Qed.

Lemma omap_ext_in {A B} (f g : A → option B) (l : list A) :
  (∀ x, x ∈ l → f x = g x) → omap f l = omap g l.
Proof.
  induction l as [|x l IH]; intros Hfg; [done|].
  csimpl. rewrite (Hfg x) by (by left). rewrite IH; [done|].
  intros y Hy. apply Hfg. by right.
Qed.

Lemma dedupe_snoc xs x :
  dedupe (xs ++ [x]) = dedupe xs ++ (if decide (x ∈ xs) then [] else [x]).
Proof.
  unfold dedupe. rewrite imap_app, omap_app. f_equal.
  - apply omap_ext_in. intros [i d] Hin.
    apply elem_of_lookup_imap_1 in Hin as (i' & d' & Heq & Hl). injection Heq as -> ->.
    unfold indexOf. rewrite indexOfFrom_app.
    assert (d' ∈ xs) as Hd by (by eapply list_elem_of_lookup_2).
    by destruct (decide (d' ∈ xs)).
  - cbn [imap omap list_omap]. unfold indexOf. rewrite indexOfFrom_app.
    destruct (decide (x ∈ xs)) as [Hin|Hin].
    + pose proof (indexOfFrom_bounds x xs 0 Hin).
      destruct (decide (indexOfFrom x xs 0 = Z.of_nat (length xs + 0))); [lia|done].
    + cbn [indexOfFrom]. destruct (decide (x = x)); [|done].
      destruct (decide ((0 + Z.of_nat (length xs))%Z = Z.of_nat (length xs + 0))); [done|lia].
Qed.

(** X8.  The sequential version drops duplicate input lines with
    [filter((d, i, self) => self.indexOf(d) === i)], the parallel one with
    [[...new Set(domains)]]: both keep the first occurrence of every line,
    in the order of the file. *)
Theorem dedupe_keeps_first_occurrences (domains : list string) :
  dedupe domains = Js.uniq domains
  ∧ NoDup (dedupe domains)
  ∧ (∀ d, d ∈ dedupe domains ↔ d ∈ domains).
Proof.
  assert (dedupe domains = Js.uniq domains) as ->.
  { induction domains as [|x xs IH] using rev_ind; [done|].
    rewrite dedupe_snoc, IH. unfold Js.uniq. rewrite foldl_app.
    cbn [foldl]. fold (Js.uniq xs). unfold Js.uniq_add.
    pose proof (uniq_elem_of xs x) as Hx.
    destruct (decide (x ∈ xs)), (decide (x ∈ Js.uniq xs)); rewrite ?app_nil_r; tauto. }
  split; [done|]. split; [apply uniq_NoDup|]. intros d. apply uniq_elem_of.
Qed.

End Dedupe.

(** ** The sequential program: the recorder *)

Section SoloFaults.
Context {L : Type}.

(** A file system call in a world where the next fault is due. *)
Lemma solo_faulty {A} (op : World → Outcome A * World) (l : L) w fl
    (Q : Outcome A → L → World → Prop) :
  faults w = true :: fl → Q (Thrown IOError) l (set_faults fl w) → solo (fs.fallible op) l w Q.
Proof. intros Hf HQ. unfold solo, fs.fallible, fs.take_fault. by rewrite Hf. Qed.
End SoloFaults.

Section SoloOutcome.
Context {L A X : Type}.

Lemma solo_outcome (m : Prog L A) (l : L) w (a : X → A) (l' : X → L)
    (F : X → gmap string string) :
  solo m l w (λ o l1 w1, ∃ x, o = Normal (a x) ∧ l1 = l' x ∧ files w1 = F x) →
  ∃ x w', exec [] (m l w) = (Normal (a x), l' x, w') ∧ files w' = F x.
Proof.
  intros Hm. apply solo_exec in Hm.
  destruct (exec [] (m l w)) as [[o l1] w1]. destruct Hm as (x & -> & -> & Hf). eauto.
Qed.
End SoloOutcome.

(** Steps up to the next call of the file system. *)
Ltac solo_calm :=
  repeat (lazymatch goal with
          | |- solo (fs.writeFileSync _ _) _ _ _ => fail
          | _ => solo_step; cbv beta iota
          end).

Ltac solo_replies :=
  repeat (solo_go;
          try match goal with
              | |- context [match ?rm with [] => _ | _ :: _ => _ end] =>
                  is_var rm; destruct rm as [|[|? ?] ?]
              end).

Section SequentialRecorder.
Context `{JsonCodec}.
Import Sequential.

(** The checker of the sequential program answers with a status whatever
    the site does, and leaves the files and the local variables alone. *)
Lemma sequential_checker_solo {L} domain (l : L) w :
  solo (checkDomainAvailabilityName domain 2) l w
    (λ o l' w', (∃ status, o = Normal status) ∧ l' = l
                ∧ files w' = files w ∧ faults w' = faults w).
Proof.
  destruct w as [fs ds ck fl rm sc tr].
  cbn [checkDomainAvailabilityName]. unfold searchBox.
  solo_replies.
  all: repeat (match goal with |- solo (if ?b then _ else _) _ _ _ => destruct b end; solo_go).
  all: by (split; [by eexists|]).
Qed.

(** X9.  [checkDomainAvailability] of the sequential program never looks at
    what [domainData] or the output file hold: it appends a record for
    the domain to [domainData], also when the array has one already, and
    replaces the output file by the whole array.  When that write fails,
    the [catch] block appends a second record for the same domain, with
    the status [error], and writes again. *)
Theorem sequential_recorder_appends_whatever_is_stored
    (domain outputFilePath : string) (domainData : list json) (w : World) :
  (faults w = [] →
   ∃ status w',
     exec [] (checkDomainAvailability domain outputFilePath (JArr domainData) w)
     = (Normal (DomainEntry domain status),
        JArr (domainData ++ [DomainEntry domain status]), w')
     ∧ files w'
       = <[outputFilePath :=
             JSON_stringify (JArr (domainData ++ [DomainEntry domain status]))]> (files w))
  ∧ (faults w = [true] →
     ∃ status w',
       exec [] (checkDomainAvailability domain outputFilePath (JArr domainData) w)
       = (Normal (DomainEntry domain error),
          JArr (domainData ++ [DomainEntry domain status; DomainEntry domain error]), w')
       ∧ files w'
         = <[outputFilePath :=
               JSON_stringify (JArr (domainData ++ [DomainEntry domain status;
                                                    DomainEntry domain error]))]> (files w)).
Proof.
  split; intros Hfaults.
  - apply (solo_outcome (checkDomainAvailability domain outputFilePath) (JArr domainData) w
      (λ status, DomainEntry domain status)
      (λ status, JArr (domainData ++ [DomainEntry domain status]))).
    unfold checkDomainAvailability, pushData, saveData. solo_go.
    eapply solo_mono; [apply sequential_checker_solo|].
    intros o1 l1 w1 ([status ->] & -> & Hf1 & Hfl1). cbv beta iota. solo_go.
    cbn [Js.push]. solo_go.
    + by rewrite Hfl1.
    + exists status. cbn. by rewrite Hf1.
  - apply (solo_outcome (checkDomainAvailability domain outputFilePath) (JArr domainData) w
      (λ _, DomainEntry domain error)
      (λ status, JArr (domainData ++ [DomainEntry domain status; DomainEntry domain error]))).
    unfold checkDomainAvailability, pushData, saveData. solo_go.
    eapply solo_mono; [apply sequential_checker_solo|].
    intros o1 l1 w1 ([status ->] & -> & Hf1 & Hfl1). cbv beta iota.
    cbn in Hfl1. rewrite Hfaults in Hfl1.
    solo_calm. cbn [Js.push]. solo_calm.
    unfold fs.writeFileSync at 1. eapply solo_faulty; [solo_world; exact Hfl1|].
    solo_calm. cbn [Js.push]. solo_go.
    exists status. cbn. by rewrite Hf1, <- app_assoc.
Qed.
End SequentialRecorder.

(** ** Only the files of the store are changed *)

Section FrameRules.
Context {L : Type} (q : string) (c : option string).
Implicit Types (l : L).

Lemma fileIs_files w w' : files w' = files w → fileIs q c w → fileIs q c w'.
Proof. unfold fileIs. by intros ->. Qed.

Lemma keeps_Date_now l (S : Outcome N → L → Prop) :
  (∀ now, S (Normal now) l) → keeps (fileIs q c) Date_now l S.
Proof. intros HS w Hw. cbn. split; [done|]. apply HS. Qed.

Lemma keeps_writeFileSync p content l (S : Outcome unit → L → Prop) :
  p ≠ q → S (Normal tt) l → S (Thrown IOError) l →
  keeps (fileIs q c) (fs.writeFileSync p content) l S.
Proof.
  intros Hp HN HT w Hw. unfold fs.writeFileSync, fs.fallible, fs.take_fault.
  destruct (faults w) as [|[] bs]; cbn; (split; [|done]).
  all: unfold fileIs in *; cbn; try done.
  all: by rewrite lookup_insert_ne.
Qed.

Lemma keeps_copyFileSync src dst l (S : Outcome unit → L → Prop) :
  dst ≠ q → S (Normal tt) l → S (Thrown IOError) l →
  keeps (fileIs q c) (fs.copyFileSync src dst) l S.
Proof.
  intros Hp HN HT w Hw. unfold fs.copyFileSync, fs.fallible, fs.take_fault.
  destruct (faults w) as [|[] bs]; cbn; [|by split|].
  all: destruct (files w !! src); cbn; (split; [|done]).
  all: unfold fileIs in *; cbn; try done.
  all: by rewrite lookup_insert_ne.
Qed.

Lemma keeps_renameSync src dst l (S : Outcome unit → L → Prop) :
  src ≠ q → dst ≠ q → S (Normal tt) l → S (Thrown IOError) l →
  keeps (fileIs q c) (fs.renameSync src dst) l S.
Proof.
  intros Hs Hp HN HT w Hw. unfold fs.renameSync, fs.fallible, fs.take_fault.
  destruct (faults w) as [|[] bs]; cbn; [|by split|].
  all: destruct (files w !! src); cbn; (split; [|done]).
  all: unfold fileIs in *; cbn; try done.
  all: by rewrite lookup_insert_ne, lookup_delete_ne.
Qed.
End FrameRules.

Ltac frame_step :=
  lazymatch goal with
  | |- keeps _ Date_now _ _ => apply keeps_Date_now; intros ?
  | |- keeps _ (fs.writeFileSync _ _) _ _ => apply keeps_writeFileSync; [try done| |]
  | |- keeps _ (fs.copyFileSync _ _) _ _ => apply keeps_copyFileSync; [try done| |]
  | |- keeps _ (fs.renameSync _ _) _ _ => apply keeps_renameSync; [try done|try done| |]
  | |- keeps _ (parse _) _ _ => unfold parse
  | |- match ?o with Normal _ => _ | Thrown _ => _ end => destruct o
  | |- True => exact Logic.I
  | _ => keeps_step
  end.

Ltac frame_go := repeat (frame_step; cbv beta iota).

Section Frame.
Context `{JsonCodec}.
Variables (out q : string) (c : option string).
Hypothesis Hq : ¬ storeFile out q.

Lemma outside_out : out ≠ q.
Proof. intros <-. apply Hq. by left. Qed.

Lemma outside_tmp : out +:+ ".tmp" ≠ q.
Proof. intros <-. apply Hq. right. by left. Qed.

Lemma outside_backup : out +:+ ".backup" ≠ q.
Proof. intros <-. apply Hq. right. right. by left. Qed.

Lemma outside_quarantine (now : N) : out +:+ ".backup." +:+ pretty now ≠ q.
Proof. intros <-. apply Hq. right. right. right. by exists now. Qed.

Local Hint Resolve outside_out outside_tmp outside_backup outside_quarantine : core.

Lemma readLoop_frame {L} maxRetries left (l : L) :
  keeps (fileIs q c) (readLoop out maxRetries left) l (λ _ _, True).
Proof.
  pose proof (fileIs_files q c) as HI.
  pose proof outside_out. pose proof outside_quarantine.
  revert l. induction left as [|left IH]; intros l; cbn [readLoop]; [by frame_go|].
  unfold readAttempt. frame_go.
  all: try (eapply keeps_mono; [apply IH|done]).
  all: try done.
Qed.

Lemma writeLoop_frame {L} data maxRetries left (l : L) :
  keeps (fileIs q c) (writeLoop out data maxRetries left) l (λ _ _, True).
Proof.
  pose proof (fileIs_files q c) as HI.
  pose proof outside_out. pose proof outside_tmp. pose proof outside_backup.
  revert l. induction left as [|left IH]; intros l; cbn [writeLoop]; [by frame_go|].
  unfold writeAttempt. frame_go.
  all: try (eapply keeps_mono; [apply IH|done]).
  all: try done.
Qed.

Lemma checkName_frame {L} domain left (l : L) :
  keeps (fileIs q c) (checkDomainAvailabilityName domain left) l (λ _ _, True).
Proof.
  pose proof (fileIs_files q c) as HI.
  revert l. induction left as [|left IH]; intros l;
    cbn [checkDomainAvailabilityName]; unfold searchBox; frame_go.
  all: try (eapply keeps_mono; [apply IH|]; intros [?|?] ? _; by frame_go).
Qed.

Lemma reloadResults_frame l :
  keeps (fileIs q c) (reloadResults out) l (λ _ _, True).
Proof.
  pose proof (fileIs_files q c) as HI.
  unfold reloadResults, safelyReadResultsFile. frame_step. frame_step.
  keeps_call (readLoop_frame (L:=Locals) 3 3 l). intros [v|e] l1 _; by frame_go.
Qed.

Lemma pushAndSave_frame entry l :
  keeps (fileIs q c) (pushAndSave out entry) l (λ _ _, True).
Proof.
  pose proof (fileIs_files q c) as HI.
  unfold pushAndSave, safelyWriteResultsFile. frame_go.
  keeps_call (writeLoop_frame (L:=Locals)). intros [v|e] l1 _; by frame_go.
Qed.

Lemma recordResult_frame n domain status l :
  keeps (fileIs q c) (recordResult n out domain status) l (λ _ _, True).
Proof.
  pose proof (fileIs_files q c) as HI.
  unfold recordResult. frame_step. keeps_call reloadResults_frame.
  intros [[]|e] l1 _; frame_go.
  keeps_call pushAndSave_frame. intros [[]|e] l2 _; by frame_go.
Qed.

Lemma recordError_frame n domain l :
  keeps (fileIs q c) (recordError n out domain) l (λ o _, o = Normal tt).
Proof.
  pose proof (fileIs_files q c) as HI.
  unfold recordError. frame_step. frame_step. keeps_call reloadResults_frame.
  intros [[]|e] l1 _; frame_go; try done.
  keeps_call pushAndSave_frame. intros [[]|e] l2 _; by frame_go.
Qed.

Lemma processDomain_frame n domain l :
  keeps (fileIs q c) (processDomain n out domain) l (λ o _, o = Normal tt).
Proof.
  pose proof (fileIs_files q c) as HI.
  unfold processDomain, checkDomainAvailability. frame_go; try done.
  keeps_call (checkName_frame (L:=Locals)). intros [status|?] l1 _; frame_go.
  all: keeps_call recordResult_frame; intros [[]|?] l2 _; frame_go; [done|].
  all: apply recordError_frame.
Qed.

Lemma processDomainBatch_frame domains n l :
  keeps (fileIs q c) (processDomainBatch domains n out) l (λ o _, o = Normal tt).
Proof.
  pose proof (fileIs_files q c) as HI.
  unfold processDomainBatch, initializeBrowserbaseSession. frame_go; try done.
  keeps_call reloadResults_frame.
  intros [[]|e] l1 _; frame_go; try done.
  eapply keeps_mono.
  { apply (keeps_forOf (fileIs q c) HI domains (processDomain n out) _ (λ _, True)); [done|].
    intros d l2 _ _. keeps_call processDomain_frame. by intros o l3 ->. }
  intros o l2 [-> _]. frame_go; done.
Qed.

Lemma baseline_frame :
  keeps (fileIs q c) (baseline out) tt (λ _ _, True).
Proof.
  pose proof (fileIs_files q c) as HI.
  unfold baseline, safelyReadResultsFile, safelyWriteResultsFile. frame_step. frame_step.
  keeps_call (readLoop_frame (L:=unit) 3 3 tt). intros [v|e] l1 _; frame_go.
  keeps_call (writeLoop_frame (L:=unit)). intros [b|e] l2 _; by frame_go.
Qed.
End Frame.

Section ProgramFrame.
Context `{JsonCodec}.

Lemma run_frame root q c :
  ¬ storeFile (path.join (path.join root "output") "domain.json") q →
  keeps (fileIs q c) (run root) tt (λ o _, o = Normal tt).
Proof.
  set (out := path.join (path.join root "output") "domain.json"). intros Hq.
  pose proof (fileIs_files q c) as HI.
  unfold run. fold out. keeps_go; try done.
  all: keeps_call (baseline_frame out q c Hq).
  all: intros [validResults|e] [] _; keeps_go; try done.
  all: destruct (Js.map Js.entry_domain validResults) as [checked|e]; keeps_go; try done.
  all: eapply keeps_mono;
    [apply (keeps_forOf _ HI _ _ _ (λ _, True)); [done|];
     intros [index batch] l1 _ _; by keeps_go|].
  all: intros o l1 [-> _]; keeps_go.
  all: eapply keeps_mono;
    [apply (keeps_promise_all _ HI); apply Forall_forall; intros p Hp;
     apply elem_of_lookup_imap in Hp as (index & batch & -> & _);
     eapply keeps_mono; [by apply processDomainBatch_frame|done]|].
  all: intros [[]|e] l2 ->; by keeps_go.
Qed.

Lemma main_frame root q c :
  ¬ storeFile (path.join (path.join root "output") "domain.json") q →
  keeps (fileIs q c) (main root) tt (λ o _, o = Normal 0%Z).
Proof.
  intros Hq. pose proof (fileIs_files q c) as HI.
  unfold main. keeps_step. keeps_step. keeps_call (run_frame root q c Hq).
  intros o l ->. by keeps_go.
Qed.

(** X10.  The program changes no file but the store, its temporary sibling and
    the copies it keeps of the store: a worker that starts, and is resumed
    after every wait, in a world where another file holds [c] (or does not
    exist) waits and finishes only in such worlds, and so does the whole
    program, which leaves every other file, the input file among them, as
    it found it. *)
Theorem only_the_store_files_change
    (projectRoot q : string) (batch : list string) (sessionNumber : nat)
    (l : Locals) (w : World) :
  ¬ storeFile (path.join (path.join projectRoot "output") "domain.json") q →
  (∀ c, keeps (fileIs q c)
          (processDomainBatch batch sessionNumber
             (path.join (path.join projectRoot "output") "domain.json")) l
          (λ o _, o = Normal tt))
  ∧ files (exitStatus projectRoot w).2 !! q = files w !! q.
Proof.
  intros Hq. split; [intros c; by apply processDomainBatch_frame|].
  unfold exitStatus.
  pose proof (keeps_finish (fileIs q (files w !! q)) _ _
                (main_frame projectRoot q (files w !! q) Hq w eq_refl)) as Hfin.
  destruct (finish (main projectRoot tt w)) as [[o l1] w1]. by destruct Hfin.
Qed.
End ProgramFrame.

(** ** The session of a worker *)

Section SessionFacts.
Context `{JsonCodec}.

Lemma loadEvent_calm out evs : Forall (loadEvent out) evs → Forall calm evs.
Proof.
  intros Hev. eapply Forall_impl; [exact Hev|]. intros e He Hs. by destruct e.
Qed.

Lemma saveEvent_calm out data evs : Forall (saveEvent out data) evs → Forall calm evs.
Proof.
  intros Hev. eapply Forall_impl; [exact Hev|]. intros e He Hs. by destruct e.
Qed.

Ltac calm_done :=
  lazymatch goal with
  | |- runs _ _ _ => fail
  | _ => repeat split; try done; try congruence;
         solve_Forall; try (by intros []); eauto using loadEvent_calm, saveEvent_calm
  end.

Lemma checkName_calm {L} domain left (l : L) :
  runs (checkDomainAvailabilityName domain left) l (λ o l' evs, l' = l ∧ Forall calm evs).
Proof.
  revert l. induction left as [|left IH]; intros l;
    cbn [checkDomainAvailabilityName]; runs_go.
  all: try calm_done.
  all: first [ runs_call (searchBox_runs (L:=L) domain);
               intros [?|?] l' evs [-> ->]; runs_go; calm_done
             | runs_call IH; intros [?|?] l' evs [-> Hev]; runs_go; calm_done ].
Qed.

Lemma recordResult_calm n out d s l :
  runs (recordResult n out d s) l
    (λ o l' evs, Forall calm evs ∧ stagehand l' = stagehand l).
Proof.
  unfold recordResult. runs_step. runs_call reloadResults_runs.
  intros [[]|e] l1 evs1 (Hev1 & Hst1 & Hl1); cbv beta iota; [|calm_done].
  destruct Hl1 as (items & Hcur & Hkeys). runs_go; [|calm_done].
  runs_call (pushAndSave_runs out (DomainEntry d s) items l1 Hcur).
  intros o l2 evs2 (-> & Hev2 & Hst2 & Hch2). runs_go. cbn. calm_done.
Qed.

Lemma recordError_calm n out d l :
  runs (recordError n out d) l
    (λ o l' evs, o = Normal tt ∧ Forall calm evs ∧ stagehand l' = stagehand l).
Proof.
  unfold recordError. runs_step. runs_step. runs_call reloadResults_runs.
  intros [[]|e] l1 evs1 (Hev1 & Hst1 & Hl1); cbv beta iota; [|runs_go; calm_done].
  destruct Hl1 as (items & Hcur & Hkeys). runs_go; [|calm_done].
  runs_call (pushAndSave_runs out (DomainEntry d error) items l1 Hcur).
  intros o l2 evs2 (-> & Hev2 & Hst2 & Hch2). runs_go. cbn. calm_done.
Qed.

Lemma processDomain_calm n out d l :
  runs (processDomain n out d) l
    (λ o l' evs, o = Normal tt ∧ Forall calm evs ∧ stagehand l' = stagehand l).
Proof.
  unfold processDomain, checkDomainAvailability. runs_go; [calm_done|].
  runs_call (checkName_calm (L:=Locals) d 2).
  intros [s|e] l1 evs1 [-> Hev1]; runs_go.
  all: runs_call recordResult_calm; intros [[]|?] l2 evs2 [Hev2 Hst2]; runs_go;
    [calm_done|].
  all: runs_call recordError_calm; intros o l3 evs3 (-> & Hev3 & Hst3); calm_done.
Qed.

Lemma forOf_calm n out ds l :
  runs (forOf ds (processDomain n out)) l
    (λ o l' evs, o = Normal tt ∧ Forall calm evs ∧ stagehand l' = stagehand l).
Proof.
  revert l. induction ds as [|d ds IH]; intros l; cbn [forOf].
  - runs_go. calm_done.
  - runs_step. runs_call processDomain_calm.
    intros o l1 evs1 (-> & Hev1 & Hst1). runs_call IH.
    intros o l2 evs2 (-> & Hev2 & Hst2). calm_done.
Qed.

Lemma closesSession_last last : calm last → closesSession [Remote CloseSession; last].
Proof. intros Hl. exists [], last. by repeat split. Qed.

Lemma closesSession_cons e rest : calm e → closesSession rest → closesSession (e :: rest).
Proof.
  intros He (between & last & -> & Hb & Hl). exists (e :: between), last.
  repeat split; [|done]. by constructor.
Qed.

Lemma closesSession_app evs rest :
  Forall calm evs → closesSession rest → closesSession (evs ++ rest).
Proof.
  intros He (between & last & -> & Hb & Hl). exists (evs ++ between), last.
  rewrite app_assoc. repeat split; [|done]. by apply Forall_app.
Qed.

(** X11.  A worker creates its session before anything else.  When that fails
    it only reports the failure: no file is touched and no domain probed.
    Otherwise it closes the session, once, as the last thing it does but
    for one line of log, whatever happened to the domains in between;
    and it never raises. *)
Theorem worker_closes_the_session_it_created
    (domains : list string) (sessionNumber : nat) (outputPath : string) :
  runs (processDomainBatch domains sessionNumber outputPath) noLocals
    (λ o l' evs,
       o = Normal tt
       ∧ ∃ m rest,
           evs = ConsoleLog m :: Remote (InitSession sessionNumber) :: rest
           ∧ if stagehand l' then closesSession rest
             else ∃ m', rest = [ConsoleError m']).
Proof.
  unfold processDomainBatch, initializeBrowserbaseSession.
  runs_go.
  2-4: try discriminate.
  2: by (split; [done|]; cbn; eexists _, _; split; [reflexivity|]; eexists).
  runs_call reloadResults_runs.
  intros o l1 evs1 (Hev1%loadEvent_calm & Hst1 & _); cbn in Hst1.
  destruct o as [[]|e]; runs_go.
  1:{ runs_call forOf_calm. intros o l2 evs2 (-> & Hev2 & Hst2).
      rewrite Hst1 in Hst2. runs_go; try congruence.
      all: split; [done|]; cbn [app]; eexists _, _; (split; [reflexivity|]).
      all: rewrite Hst2, <- ?app_assoc; cbn [app].
      all: repeat first [ apply closesSession_last | apply closesSession_cons
                        | apply closesSession_app; [assumption|] ]; by intros []. }
  all: try congruence.
  all: split; [done|]; cbn [app]; eexists _, _; (split; [reflexivity|]).
  all: rewrite Hst1, <- ?app_assoc; cbn [app].
  all: repeat first [ apply closesSession_last | apply closesSession_cons
                    | apply closesSession_app; [assumption|] ]; by intros [].
Qed.
End SessionFacts.

(** ** The preconditions are met *)

Section MoreWitnesses.
Existing Instance MiniJson.codec.
Import Demo.

Lemma store_not_a_directory fs replies : store ∉ dirs (world fs replies).
Proof.
  cbn. intros [Hin|Hin]%elem_of_union; apply elem_of_singleton in Hin; discriminate Hin.
Qed.

Lemma input_outside_store :
  ¬ storeFile (path.join (path.join "/app" "output") "domain.json") "/app/input/domains.txt".
Proof.
  intros [Hq|[Hq|[Hq|[now Hq]]]];
    cbv beta iota delta [String.append path.join] in Hq; discriminate Hq.
Qed.

Lemma save_keeps_the_previous_document_witness :
  let w := world [(store, document (JArr twoRecords))] [] in
  faults w = [] ∧ (store ∉ dirs w) ∧ path.dirname store ≠ store
  ∧ ∃ w', safelyWriteResultsFile store (JArr [DomainEntry "a.com" available]) 3 tt w
          = Fin (Normal true) tt w'
          ∧ files w' !! (store +:+ ".backup") = Some (document (JArr twoRecords)).
Proof.
  intros w. split; [reflexivity|]. split; [apply store_not_a_directory|].
  split; [by vm_compute|].
  destruct (save_keeps_the_previous_document (L:=unit) store
              [DomainEntry "a.com" available] tt w)
    as (w' & Hrun & _ & _ & Hbackup & _);
    [reflexivity|apply store_not_a_directory|by vm_compute|].
  exists w'. split; [exact Hrun|]. rewrite Hbackup. reflexivity.
Defined.

Lemma save_then_load_gives_the_records_witness :
  let w := world [] [] in
  JSON_parse (JSON_stringify (JArr twoRecords)) = Some (JArr twoRecords)
  ∧ ∃ w1 w2,
      safelyWriteResultsFile store (JArr twoRecords) 3 tt w = Fin (Normal true) tt w1
      ∧ safelyReadResultsFile store 3 tt w1 = Fin (Normal (JArr twoRecords)) tt w2
      ∧ files w2 = files w1.
Proof.
  intros w. split; [by vm_compute|].
  apply (save_then_load_gives_the_records (L:=unit) store twoRecords tt w);
    [reflexivity|apply store_not_a_directory|by vm_compute|by vm_compute|by vm_compute].
Defined.

Lemma only_the_store_files_change_witness :
  let w := world [("/app/input/domains.txt", "a.com")] [Succeeds true ""] in
  ¬ storeFile (path.join (path.join "/app" "output") "domain.json") "/app/input/domains.txt"
  ∧ files (exitStatus "/app" w).2 !! "/app/input/domains.txt" = Some "a.com".
Proof.
  intros w. split; [exact input_outside_store|].
  destruct (only_the_store_files_change "/app" "/app/input/domains.txt" ["a.com"] 1
              noLocals w input_outside_store) as [_ Hsame].
  rewrite Hsame. reflexivity.
Defined.
End MoreWitnesses.
